(** * yang-cache: the two-tier LRU store and the single-flight group

    A shallow embedding of the Go packages [store] (internal clock, BKDR
    hash, array-backed LRU list, sharded two-tier store), [singleflight]
    (request de-duplication) and [yangcache] (the cache in front of the
    store), followed by the properties checked against them.

    Conventions of the embedding:
    - [uint16], [int32] and [int64] values are integers in [Z]; every
      arithmetic operation of the source that can wrap is followed by the
      matching [wrap16], [wrap_i32] or [wrap_i64];
    - slices are lists indexed with [!!]; an index out of range is a Go
      run-time panic and is the result [None] of the operation (values of
      unsigned types are never negative, which the well-formedness
      predicates [cache_ok] and [store_ok] record);
    - the Go map [hmap] is a [gmap string Z];
    - a pointer to a node returned by the list is the content of that node
      at the time of the return (every caller reads it before the list it
      points into is changed again);
    - the eviction callback is observed through the list of its
      invocations, in call order;
    - each store operation holds the lock of its shard from start to end
      and is therefore one atomic transition of the shard. *)

From Stdlib Require Import ZArith Lia.
From stdpp Require Import base option list gmap strings fin_maps.

Local Open Scope Z_scope.

(** ** Package [store] *)

Module Store.

(** *** Machine integers *)

Definition wrap16 (z : Z) : Z := z mod 65536.
Definition wrap_i32 (z : Z) : Z := (z + 2147483648) mod 4294967296 - 2147483648.
Definition wrap_i64 (z : Z) : Z :=
  (z + 9223372036854775808) mod 18446744073709551616 - 9223372036854775808.

(** [int64(100*time.Millisecond)], in nanoseconds. *)
Definition ms100 : Z := 100000000.

(** *** Internal clock

    [var clock = time.Now().UnixNano()], one goroutine started by [init]
    and the reader [Now]. The goroutine is the list of its instructions;
    [StoreWall] is [atomic.StoreInt64(&clock, time.Now().UnixNano())],
    [Sleep d] is [time.Sleep(d)], [AddClock d] is
    [atomic.AddInt64(&clock, d)]. *)

Inductive instr : Type :=
  | StoreWall
  | Sleep (d : Z)
  | AddClock (d : Z).

(** The body of the [for i := 0; i < 9; i++] loop, [n] iterations. *)
Fixpoint loop_body (n : nat) : list instr :=
  match n with
  | O => []
  | S n' => Sleep ms100 :: AddClock ms100 :: loop_body n'
  end.

(** The goroutine of [init]: one wall-clock read, nine increments, one
    last sleep, and the function returns. *)
Definition init_task : list instr :=
  StoreWall :: loop_body 9 ++ [Sleep ms100].

(** [wall] is the real time ([time.Now().UnixNano()]), [clock] the shared
    variable. *)
Record timeState : Type := { wall : Z; clock : Z }.

Definition Now (t : timeState) : Z := clock t.

(** One instruction; a sleep lasts exactly its duration. *)
Definition exec_instr (i : instr) (t : timeState) : timeState :=
  match i with
  | StoreWall => {| wall := wall t; clock := wall t |}
  | Sleep d => {| wall := wall t + d; clock := clock t |}
  | AddClock d => {| wall := wall t; clock := wrap_i64 (clock t + d) |}
  end.

(** The goroutine from real time [wall t] until real time [deadline]: the
    instructions that have completed by then are executed, and once the
    list is exhausted (the goroutine has returned) only the real time
    moves. *)
Fixpoint run_until (deadline : Z) (task : list instr) (t : timeState) : timeState :=
  match task with
  | [] => {| wall := Z.max (wall t) deadline; clock := clock t |}
  | i :: task' =>
      let t' := exec_instr i t in
      if decide (wall t' <= deadline) then run_until deadline task' t'
      else {| wall := Z.max (wall t) deadline; clock := clock t |}
  end.

(** The process [elapsed] nanoseconds after the package was initialised at
    real time [t0]. *)
Definition process_after (t0 elapsed : Z) : timeState :=
  run_until (t0 + elapsed) init_task {| wall := t0; clock := t0 |}.

(** The same goroutine under a scheduler that can be late:
    [time.Sleep(d)] pauses for at least [d], and a goroutine that is
    ready may wait for its turn. [late] is the time that passes, on top
    of the duration of a sleep, before the instruction takes effect. *)
Definition exec_late (late : Z) (i : instr) (t : timeState) : timeState :=
  exec_instr i {| wall := wall t + late; clock := clock t |}.

(** [run_until] with the lateness of each instruction taken from [lates]
    in turn (none once [lates] is used up). *)
Fixpoint run_late (deadline : Z) (task : list instr) (lates : list Z)
    (t : timeState) : timeState :=
  match task with
  | [] => {| wall := Z.max (wall t) deadline; clock := clock t |}
  | i :: task' =>
      let t' := exec_late (hd 0 lates) i t in
      if decide (wall t' <= deadline) then run_late deadline task' (tl lates) t'
      else {| wall := Z.max (wall t) deadline; clock := clock t |}
  end.

Definition process_late (t0 : Z) (lates : list Z) (elapsed : Z) : timeState :=
  run_late (t0 + elapsed) init_task lates {| wall := t0; clock := t0 |}.

(** The lateness of all instructions together. *)
Definition lateness (lates : list Z) : Z := foldr Z.add 0 lates.

(** *** Hash and shard mask *)

(** [hashBKRD]; the loop over the bytes of [s], [hash] being the
    accumulator. (The call sites in [lru2Store] spell it [hashBKDR].) *)
Fixpoint hashBKRD_from (hash : Z) (s : string) : Z :=
  match s with
  | EmptyString => hash
  | String c s' =>
      hashBKRD_from (wrap_i32 (hash * 131 + Z.of_N (Ascii.N_of_ascii c))) s'
  end.

Definition hashBKRD (s : string) : Z := hashBKRD_from 0 s.

Definition maskOfNextPowOf2 (cap : Z) : Z :=
  if decide (0 < cap ∧ Z.land cap (wrap16 (cap - 1)) = 0) then wrap16 (cap - 1)
  else
    let cap := Z.lor cap (Z.shiftr cap 1) in
    let cap := Z.lor cap (Z.shiftr cap 2) in
    let cap := Z.lor cap (Z.shiftr cap 4) in
    Z.lor cap (Z.shiftr cap 8).

(** The polynomial in 131 whose coefficients are the bytes of [s], the
    first byte with the highest power, without any wrap-around. *)
Fixpoint bkdr_sum (s : string) : Z :=
  match s with
  | EmptyString => 0
  | String c s' =>
      Z.of_N (Ascii.N_of_ascii c) * 131 ^ Z.of_nat (String.length s') + bkdr_sum s'
  end.

(** *** The array-backed LRU list ([cache]) *)

Section WithValue.

(** [Value] is an interface type: [None] is the nil interface, [Some x] a
    value with payload [x]. *)
Context {V : Type}.

Definition Value : Type := option V.

Record node : Type := { k : string; v : Value; expireAt : Z }.

(** The two columns of [dlnk]: [var pre, next = uint16(0), uint16(1)]. *)
Inductive dir : Type := pre | next.

Definition col (d : dir) (p : Z * Z) : Z :=
  match d with pre => p.1 | next => p.2 end.

Definition setcol (d : dir) (x : Z) (p : Z * Z) : Z * Z :=
  match d with pre => (x, p.2) | next => (p.1, x) end.

Record cache : Type := {
  dlnk : list (Z * Z);
  m : list node;
  hmap : gmap string Z;
  last : Z
}.

(** [l[i][d]] *)
Definition rd (l : list (Z * Z)) (i : Z) (d : dir) : option Z :=
  col d <$> l !! Z.to_nat i.

(** [l[i][d] = x] *)
Definition wr (l : list (Z * Z)) (i : Z) (d : dir) (x : Z) : option (list (Z * Z)) :=
  p ← l !! Z.to_nat i; Some (<[Z.to_nat i := setcol d x p]> l).

(** [c.m[idx-1]], the subtraction being one of [uint16]. *)
Definition slot (idx : Z) : nat := Z.to_nat (wrap16 (idx - 1)).

Definition Create (cap : Z) : cache :=
  {| dlnk := replicate (Z.to_nat (wrap16 (cap + 1))) (0, 0);
     m := replicate (Z.to_nat cap) {| k := ""; v := None; expireAt := 0 |};
     hmap := ∅;
     last := 0 |}.

(** [adjust] on the link array (the only field it touches). *)
Definition adjust (l : list (Z * Z)) (idx : Z) (front tail : dir)
  : option (list (Z * Z)) :=
  f0 ← rd l idx front;
  if decide (f0 ≠ 0) then
    curPre ← rd l idx front;
    curNext ← rd l idx tail;
    x1 ← rd l idx front;
    l1 ← wr l curNext front x1;
    x2 ← rd l1 idx tail;
    l2 ← wr l1 curPre tail x2;
    l3 ← wr l2 idx front 0;
    x4 ← rd l3 0 tail;
    l4 ← wr l3 idx tail x4;
    t5 ← rd l4 0 tail;
    l5 ← wr l4 t5 front idx;
    wr l5 0 tail idx
  else Some l.

(** [put]: the new list, the returned [int] and the invocations of
    [onEvicted]; [onEvicted = false] is the nil callback. *)
Definition put (c : cache) (key : string) (val : Value) (e : Z) (onEvicted : bool)
  : option (cache * Z * list (string * Value)) :=
  match hmap c !! key with
  | Some idx =>
      n ← m c !! slot idx;
      let m' := <[slot idx := {| k := k n; v := val; expireAt := e |}]> (m c) in
      d ← adjust (dlnk c) idx pre next;
      Some ({| dlnk := d; m := m'; hmap := hmap c; last := last c |}, 0, [])
  | None =>
      if decide (last c = wrap16 (Z.of_nat (length (m c)))) then
        t ← rd (dlnk c) 0 pre;
        tail ← m c !! slot t;
        let evs := if onEvicted && bool_decide (0 < expireAt tail)
                   then [(k tail, v tail)] else [] in
        let h1 := delete (k tail) (hmap c) in
        let h2 := <[key := t]> h1 in
        let m' := <[slot t := {| k := key; v := val; expireAt := e |}]> (m c) in
        d ← adjust (dlnk c) t pre next;
        Some ({| dlnk := d; m := m'; hmap := h2; last := last c |}, 1, evs)
      else
        let last' := wrap16 (last c + 1) in
        d1 ← (if decide (size (hmap c) ≤ 0)%nat then wr (dlnk c) 0 pre last'
              else h ← rd (dlnk c) 0 next; wr (dlnk c) h pre last');
        _ ← m c !! slot last';
        let m' := <[slot last' := {| k := key; v := val; expireAt := e |}]> (m c) in
        h ← rd d1 0 next;
        _ ← d1 !! Z.to_nat last';
        let d2 := <[Z.to_nat last' := (0, h)]> d1 in
        let h2 := <[key := last']> (hmap c) in
        d3 ← wr d2 0 next last';
        Some ({| dlnk := d3; m := m'; hmap := h2; last := last' |}, 1, [])
  end.

(** [get]: the node (nil is [None]) and the status. *)
Definition get (c : cache) (key : string) : option (cache * option node * Z) :=
  match hmap c !! key with
  | Some idx =>
      d ← adjust (dlnk c) idx pre next;
      n ← m c !! slot idx;
      Some ({| dlnk := d; m := m c; hmap := hmap c; last := last c |}, Some n, 1)
  | None => Some (c, None, 0)
  end.

(** [del]: the node, the status and the expiry it had. *)
Definition del (c : cache) (key : string) : option (cache * option node * Z * Z) :=
  match hmap c !! key with
  | Some idx =>
      n ← m c !! slot idx;
      if decide (0 < expireAt n) then
        let e := expireAt n in
        let n' := {| k := k n; v := v n; expireAt := 0 |} in
        let m' := <[slot idx := n']> (m c) in
        d ← adjust (dlnk c) idx next pre;
        Some ({| dlnk := d; m := m'; hmap := hmap c; last := last c |}, Some n', 1, e)
      else Some (c, None, 0, 0)
  | None => Some (c, None, 0, 0)
  end.

(** [walk]: the visitor threads an accumulator of type [A] and answers
    whether to go on. [fuel] bounds the number of iterations of the [for]
    loop; [None] is a panic or a loop that did not reach [idx = 0] within
    [fuel] iterations. *)
Fixpoint walk_from {A : Type} (fuel : nat) (c : cache) (idx : Z)
    (walker : string → Value → Z → A → A * bool) (acc : A) : option A :=
  if decide (idx = 0) then Some acc
  else
    match fuel with
    | O => None
    | S fuel' =>
        n ← m c !! slot idx;
        let '(acc', go_on) :=
          if decide (0 < expireAt n) then walker (k n) (v n) (expireAt n) acc
          else (acc, true) in
        if go_on then
          idx' ← rd (dlnk c) idx next;
          walk_from fuel' c idx' walker acc'
        else Some acc'
    end.

Definition walk {A : Type} (fuel : nat) (c : cache)
    (walker : string → Value → Z → A → A * bool) (acc : A) : option A :=
  idx ← rd (dlnk c) 0 next; walk_from fuel c idx walker acc.

(** *** The sharded two-tier store ([lru2Store]) *)

(** The fields of [Options] that [newLRU2Cache] reads; [OnEvicted = false]
    is the nil callback. *)
Record Options : Type := {
  BucketCount : Z;
  CapPerBucket : Z;
  Level2Cap : Z;
  CleanupInterval : Z;
  OnEvicted : bool
}.

(** [caches[i]] is the pair [(caches[i][0], caches[i][1])] of the L1 and
    the L2 list of shard [i]. The locks and the sweep ticker carry no
    data. *)
Record lru2Store : Type := {
  caches : list (cache * cache);
  onEvicted : bool;
  mask : Z
}.

Definition newLRU2Cache (opts : Options) : lru2Store :=
  let bucketCount := if decide (BucketCount opts = 0) then 16 else BucketCount opts in
  let capPerBucket := if decide (CapPerBucket opts = 0) then 1024 else CapPerBucket opts in
  let level2Cap := if decide (Level2Cap opts = 0) then 1024 else Level2Cap opts in
  let mark := maskOfNextPowOf2 bucketCount in
  {| caches := replicate (Z.to_nat (wrap16 (mark + 1)))
                 (Create capPerBucket, Create level2Cap);
     onEvicted := OnEvicted opts;
     mask := mark |}.

(** [hashBKDR(key) & s.mask] *)
Definition shard_index (s : lru2Store) (key : string) : Z :=
  Z.land (hashBKRD key) (mask s).

(** [s.caches[idx]], [idx] being an [int32] (a negative index panics),
    and the store after the two lists of shard [idx] were changed in
    place. *)
Definition shard (s : lru2Store) (idx : Z) : option (cache * cache) :=
  if decide (0 ≤ idx) then caches s !! Z.to_nat idx else None.

Definition with_shard (s : lru2Store) (idx : Z) (p : cache * cache) : lru2Store :=
  {| caches := <[Z.to_nat idx := p]> (caches s);
     onEvicted := onEvicted s;
     mask := mask s |}.

(** [s.caches[idx][level]] *)
Definition tier (p : cache * cache) (level : Z) : option cache :=
  if decide (level = 0) then Some p.1
  else if decide (level = 1) then Some p.2
  else None.

Definition with_tier (p : cache * cache) (level : Z) (c : cache) : cache * cache :=
  if decide (level = 0) then (c, p.2) else (p.1, c).

(** [lru2Store.delete]: the store, the result and the invocations of the
    callback. *)
Definition delete (s : lru2Store) (key : string) (idx : Z)
  : option (lru2Store * bool * list (string * Value)) :=
  p ← shard s idx;
  '(c0, n1, s1, _) ← del p.1 key;
  '(c1, n2, s2, _) ← del p.2 key;
  let deleted := bool_decide (0 < s1) || bool_decide (0 < s2) in
  let evs :=
    if deleted && onEvicted s then
      match n1 with
      | Some {| v := Some x |} => [(key, Some x)]
      | _ =>
          match n2 with
          | Some {| v := Some x |} => [(key, Some x)]
          | _ => []
          end
      end
    else [] in
  Some (with_shard s idx (c0, c1), deleted, evs).

Definition Delete (s : lru2Store) (key : string)
  : option (lru2Store * bool * list (string * Value)) :=
  delete s key (shard_index s key).

(** [lru2Store._get]; [now] is the value [Now()] returns inside it. *)
Definition _get (s : lru2Store) (now : Z) (key : string) (idx level : Z)
  : option (lru2Store * option node * Z) :=
  p ← shard s idx;
  c ← tier p level;
  '(c', n, st) ← get c key;
  let s' := with_shard s idx (with_tier p level c') in
  match n with
  | Some nd =>
      if decide (0 < st) then
        if decide (expireAt nd ≤ 0 ∨ expireAt nd ≤ now) then Some (s', None, 0)
        else Some (s', Some nd, st)
      else Some (s', None, 0)
  | None => Some (s', None, 0)
  end.

(** Steps 3 and 4 of [lru2Store.Get] (the lookup in L2), which both the
    path through the promotion and the path of a miss in L1 reach; [evs]
    are the invocations of the callback made before. *)
Definition Get_L2 (s : lru2Store) (now now' : Z) (key : string) (idx : Z)
    (evs : list (string * Value))
  : option (lru2Store * (Value * bool) * list (string * Value)) :=
  '(s3, n2, status2) ← _get s now' key idx 1;
  match n2 with
  | Some nd =>
      if decide (0 < status2) then
        if decide (0 < expireAt nd ∧ expireAt nd ≤ now) then
          '(s4, _, evs') ← delete s3 key idx;
          Some (s4, (None, false), evs ++ evs')
        else Some (s3, (v nd, true), evs)
      else Some (s3, (None, false), evs)
  | None => Some (s3, (None, false), evs)
  end.

(** [lru2Store.Get]. The clock is read twice during one call: [now] is
    [currentTime], the value of [Now()] at the start, [now'] the value
    [Now()] returns inside [_get]. The result is the store, the returned
    pair and the invocations of the callback. *)
Definition Get (s : lru2Store) (now now' : Z) (key : string)
  : option (lru2Store * (Value * bool) * list (string * Value)) :=
  let idx := shard_index s key in
  p ← shard s idx;
  '(c0, n1, status1, e) ← del p.1 key;
  let s1 := with_shard s idx (c0, p.2) in
  if decide (0 < status1) then
    if decide (0 < e ∧ e ≤ now) then
      '(s2, _, evs) ← delete s1 key idx;
      Some (s2, (None, false), evs)
    else
      nd ← n1;
      '(c1, _, evs) ← put p.2 key (v nd) e (onEvicted s);
      Get_L2 (with_shard s idx (c0, c1)) now now' key idx evs
  else Get_L2 s1 now now' key idx [].

(** [lru2Store.SetWithExpiration]; [now] is the value of [Now()],
    [expiration] the [time.Duration] in nanoseconds. The returned [error]
    is always nil and is left out. *)
Definition SetWithExpiration (s : lru2Store) (now : Z) (key : string)
    (value : Value) (expiration : Z)
  : option (lru2Store * list (string * Value)) :=
  let e := if decide (0 < expiration) then wrap_i64 (now + expiration) else 0 in
  let idx := shard_index s key in
  p ← shard s idx;
  '(c0, _, evs) ← put p.1 key value e (onEvicted s);
  Some (with_shard s idx (c0, p.2), evs).

(** [lru2Store.Set] *)
Definition Set_ (s : lru2Store) (now : Z) (key : string) (value : Value)
  : option (lru2Store * list (string * Value)) :=
  SetWithExpiration s now key value 9999999999999999.

(** The visitor of [Len]: [count++; return true]. *)
Definition count_walker (_ : string) (_ : Value) (_ : Z) (count : Z) : Z * bool :=
  (count + 1, true).

Fixpoint Len_from (fuel : nat) (cs : list (cache * cache)) (count : Z) : option Z :=
  match cs with
  | [] => Some count
  | p :: cs' =>
      n0 ← walk fuel p.1 count_walker count;
      n1 ← walk fuel p.2 count_walker n0;
      Len_from fuel cs' n1
  end.

(** [lru2Store.Len]; [fuel] bounds the iterations of each [walk]. *)
Definition Len (fuel : nat) (s : lru2Store) : option Z :=
  Len_from fuel (caches s) 0.

(** *** Observations used in the statements *)

(** The node [key] is mapped to by [c.hmap], if any. *)
Definition find (c : cache) (key : string) : option node :=
  idx ← hmap c !! key; m c !! slot idx.

(** [key] is live in [c]: mapped, and its node has [expireAt > 0]. *)
Definition live (c : cache) (key : string) : bool :=
  match find c key with
  | Some n => bool_decide (0 < expireAt n)
  | None => false
  end.

(** The payload of the live copy of [key] in [c]; [None] when there is no
    live copy or its value is the nil interface. *)
Definition live_payload (c : cache) (key : string) : option V :=
  match find c key with
  | Some n => if bool_decide (0 < expireAt n) then v n else None
  | None => None
  end.

(** What [lru2Store.delete] passes to the callback for the two lists of a
    shard, [cb] telling whether a callback is installed. *)
Definition delete_events (cb : bool) (p : cache * cache) (key : string)
  : list (string * Value) :=
  if cb then
    match live_payload p.1 key with
    | Some x => [(key, Some x)]
    | None =>
        match live_payload p.2 key with
        | Some x => [(key, Some x)]
        | None => []
        end
    end
  else [].

(** *** Sequences of operations

    The public operations of the store as data, to speak about what
    happens between two calls. *)

Inductive op : Type :=
  | OpGet (now now' : Z) (key : string)
  | OpSet (now : Z) (key : string) (value : Value)
  | OpSetWithExpiration (now : Z) (key : string) (value : Value) (expiration : Z)
  | OpDelete (key : string).

Definition op_key (o : op) : string :=
  match o with
  | OpGet _ _ key | OpSet _ key _ | OpSetWithExpiration _ key _ _ | OpDelete key => key
  end.

Definition apply_op (s : lru2Store) (o : op)
  : option (lru2Store * list (string * Value)) :=
  match o with
  | OpGet now now' key => '(s', _, evs) ← Get s now now' key; Some (s', evs)
  | OpSet now key value => Set_ s now key value
  | OpSetWithExpiration now key value expiration =>
      SetWithExpiration s now key value expiration
  | OpDelete key => '(s', _, evs) ← Delete s key; Some (s', evs)
  end.

Fixpoint run_ops (s : lru2Store) (ops : list op)
  : option (lru2Store * list (string * Value)) :=
  match ops with
  | [] => Some (s, [])
  | o :: ops' =>
      '(s1, evs1) ← apply_op s o;
      '(s2, evs2) ← run_ops s1 ops';
      Some (s2, evs1 ++ evs2)
  end.

(** *** Well-formed lists and stores

    What every list built by [Create] and changed only through [put],
    [get] and [del] satisfies, and what keeps these operations from an
    index out of range. *)

(** Every link of a link array of length [n] is an index into it, and the
    two links of the sentinel [l[0]] are non-zero as soon as [used]
    holds. *)
Definition links_ok (n : Z) (used : Prop) (l : list (Z * Z)) : Prop :=
  Z.of_nat (length l) = n
  ∧ Forall (λ p, (0 ≤ p.1 < n) ∧ (0 ≤ p.2 < n)) l
  ∧ (used → ∀ p, l !! 0%nat = Some p → p.1 ≠ 0 ∧ p.2 ≠ 0).

Record cache_ok (c : cache) : Prop := {
  ok_cap : 1 ≤ Z.of_nat (length (m c)) < 65535;
  ok_last : 0 ≤ last c ≤ Z.of_nat (length (m c));
  ok_links : links_ok (Z.of_nat (length (m c)) + 1) (1 ≤ last c) (dlnk c);
  ok_hmap : ∀ key idx, hmap c !! key = Some idx → 1 ≤ idx ≤ last c
}.

Record store_ok (s : lru2Store) : Prop := {
  ok_mask : 0 ≤ mask s;
  ok_shards : Z.of_nat (length (caches s)) = mask s + 1;
  ok_caches : Forall (λ p, cache_ok p.1 ∧ cache_ok p.2) (caches s)
}.

(** *** The order of a list

    The nodes of a list in the order of its links, read from the sentinel
    along column [next] as the loop of [walk] does, without the test on
    [expireAt]: from the node used last to the node used longest ago. *)

Definition opp (d : dir) : dir := match d with pre => next | next => pre end.

(** The indices met from [idx] along column [next] until the sentinel, at
    most [fuel] of them. *)
Fixpoint chain (fuel : nat) (l : list (Z * Z)) (idx : Z) : list Z :=
  if decide (idx = 0) then []
  else
    match fuel with
    | O => []
    | S fuel' =>
        idx :: match rd l idx next with
               | Some idx' => chain fuel' l idx'
               | None => []
               end
    end.

Definition order (c : cache) : list Z :=
  match rd (dlnk c) 0 next with
  | Some h => chain (length (dlnk c)) (dlnk c) h
  | None => []
  end.

Definition entries (c : cache) : list node :=
  omap (λ idx, m c !! slot idx) (order c).

(** What [walk] does to its accumulator on a list whose nodes in order
    are [es]. *)
Fixpoint visit {A : Type} (walker : string → Value → Z → A → A * bool)
    (es : list node) (acc : A) : A :=
  match es with
  | [] => acc
  | n :: es' =>
      if decide (0 < expireAt n) then
        let '(acc', go_on) := walker (k n) (v n) (expireAt n) acc in
        if go_on then visit walker es' acc' else acc'
      else visit walker es' acc
  end.

(** The lists the program can build: [Create] with a capacity that leaves
    room for the sentinel, then any calls of [put], [get] and [del]. *)
Inductive grown : cache → Prop :=
  | grown_Create cap : 1 ≤ cap < 65535 → grown (Create cap)
  | grown_put c key val e cb c' r evs :
      grown c → put c key val e cb = Some (c', r, evs) → grown c'
  | grown_get c key c' r st :
      grown c → get c key = Some (c', r, st) → grown c'
  | grown_del c key c' r st e :
      grown c → del c key = Some (c', r, st, e) → grown c'.

(** *** The invariant of the links

    [xs] lists the indices in use, in the order of the list. The links of
    column [next] lead from each index of the cycle [0 :: xs] to the one
    after it, those of column [pre] to the one before it. *)

Fixpoint succ_in (xs : list Z) (a : Z) : Z :=
  match xs with
  | [] => 0
  | y :: ys => if decide (a = y) then hd 0 ys else succ_in ys a
  end.

Definition nbr (d : dir) (xs : list Z) (a : Z) : Z :=
  match d with
  | next => succ_in (0 :: xs) a
  | pre => succ_in (0 :: reverse xs) a
  end.

Definition to_front (x : Z) (xs : list Z) : list Z := x :: filter (λ y, y ≠ x) xs.
Definition to_back (x : Z) (xs : list Z) : list Z := filter (λ y, y ≠ x) xs ++ [x].

(** [adjust idx front tail] moves [idx] to the end that column [tail]
    leaves the sentinel by. *)
Definition moved (tail : dir) (x : Z) (xs : list Z) : list Z :=
  match tail with next => to_front x xs | pre => to_back x xs end.

Definition threaded (l : list (Z * Z)) (xs : list Z) : Prop :=
  ∀ a d, a ∈ 0 :: xs → rd l a d = Some (nbr d xs a).

Record repr (c : cache) (xs : list Z) : Prop := {
  repr_cap : 1 ≤ Z.of_nat (length (m c)) < 65535;
  repr_len : length (dlnk c) = S (length (m c));
  repr_last : 0 ≤ last c ≤ Z.of_nat (length (m c));
  repr_nodup : NoDup xs;
  repr_dom : ∀ x, x ∈ xs ↔ 1 ≤ x ≤ last c;
  repr_links : threaded (dlnk c) xs;
  repr_hmap : ∀ key idx,
    hmap c !! key = Some idx
    ↔ 1 ≤ idx ≤ last c ∧ ∃ n, m c !! slot idx = Some n ∧ k n = key
}.

(** *** [Clear] and the sweep of [cleanupLoop] *)

(** The two visitors of [Clear]: the one for L1 appends every key it is
    given, the one for L2 those that [keys] does not hold yet. *)
Definition collect_all (key : string) (_ : Value) (_ : Z) (keys : list string)
  : list string * bool :=
  (keys ++ [key], true).

Definition collect_new (key : string) (_ : Value) (_ : Z) (keys : list string)
  : list string * bool :=
  (if decide (key ∈ keys) then keys else keys ++ [key], true).

(** The first loop of [Clear] over the shards; [keys] is the one slice all
    shards append to. *)
Fixpoint Clear_keys (fuel : nat) (cs : list (cache * cache)) (keys : list string)
  : option (list string) :=
  match cs with
  | [] => Some keys
  | p :: cs' =>
      k0 ← walk fuel p.1 collect_all keys;
      k1 ← walk fuel p.2 collect_new k0;
      Clear_keys fuel cs' k1
  end.

(** The second loop of [Clear]: [s.Delete(key)] for each key. *)
Fixpoint Delete_each (s : lru2Store) (keys : list string)
  : option (lru2Store * list (string * Value)) :=
  match keys with
  | [] => Some (s, [])
  | key :: keys' =>
      '(s1, _, evs1) ← Delete s key;
      '(s2, evs2) ← Delete_each s1 keys';
      Some (s2, evs1 ++ evs2)
  end.

(** [lru2Store.Clear]; [fuel] bounds the iterations of each [walk]. *)
Definition Clear (fuel : nat) (s : lru2Store)
  : option (lru2Store * list (string * Value)) :=
  keys ← Clear_keys fuel (caches s) []; Delete_each s keys.

(** The two visitors of [cleanupLoop], [now] being [currentTime]. *)
Definition expired_all (now : Z) (key : string) (_ : Value) (e : Z)
    (keys : list string) : list string * bool :=
  (if decide (0 < e ∧ e ≤ now) then keys ++ [key] else keys, true).

Definition expired_new (now : Z) (key : string) (_ : Value) (e : Z)
    (keys : list string) : list string * bool :=
  (if decide (0 < e ∧ e ≤ now)
   then if decide (key ∈ keys) then keys else keys ++ [key]
   else keys, true).

(** [s.delete(key, idx)] for each of the expired keys of a shard. *)
Fixpoint delete_each (s : lru2Store) (idx : Z) (keys : list string)
  : option (lru2Store * list (string * Value)) :=
  match keys with
  | [] => Some (s, [])
  | key :: keys' =>
      '(s1, _, evs1) ← delete s key idx;
      '(s2, evs2) ← delete_each s1 idx keys';
      Some (s2, evs1 ++ evs2)
  end.

(** The body of the loop of [cleanupLoop] over the shards, for shard
    [i]. *)
Definition sweep_shard (fuel : nat) (now : Z) (s : lru2Store) (i : nat)
  : option (lru2Store * list (string * Value)) :=
  p ← caches s !! i;
  k0 ← walk fuel p.1 (expired_all now) [];
  k1 ← walk fuel p.2 (expired_new now) k0;
  delete_each s (wrap_i32 (Z.of_nat i)) k1.

Fixpoint sweep_shards (fuel : nat) (now : Z) (s : lru2Store) (shards : list nat)
  : option (lru2Store * list (string * Value)) :=
  match shards with
  | [] => Some (s, [])
  | i :: shards' =>
      '(s1, evs1) ← sweep_shard fuel now s i;
      '(s2, evs2) ← sweep_shards fuel now s1 shards';
      Some (s2, evs1 ++ evs2)
  end.

(** What [cleanupLoop] does at one tick of its ticker, [now] being the
    value of [Now()] it reads then. *)
Definition cleanupLoop (fuel : nat) (s : lru2Store) (now : Z)
  : option (lru2Store * list (string * Value)) :=
  sweep_shards fuel now s (seq 0 (length (caches s))).

(** The live nodes of all lists of the store. *)
Definition live_nodes (c : cache) : list node :=
  filter (λ n, 0 < expireAt n) (entries c).

Definition live_total (s : lru2Store) : Z :=
  Z.of_nat (length (flat_map (λ p, live_nodes p.1 ++ live_nodes p.2) (caches s))).

(** The stores the program can build: [newLRU2Cache] with options in
    range, then any operations, calls of [Clear] and ticks of
    [cleanupLoop]. *)
Inductive built : lru2Store → Prop :=
  | built_new opts :
      0 ≤ BucketCount opts ≤ 32768 →
      0 ≤ CapPerBucket opts < 65535 →
      0 ≤ Level2Cap opts < 65535 →
      built (newLRU2Cache opts)
  | built_op s o s' evs : built s → apply_op s o = Some (s', evs) → built s'
  | built_Clear s fuel s' evs : built s → Clear fuel s = Some (s', evs) → built s'
  | built_cleanupLoop s fuel now s' evs :
      built s → cleanupLoop fuel s now = Some (s', evs) → built s'.

(** What the lists of a built store satisfy: each is one the program can
    build, and holds keys of its shard only. *)
Definition of_shard (mk i : Z) (c : cache) : Prop :=
  grown c ∧ ∀ key, is_Some (hmap c !! key) → Z.land (hashBKRD key) mk = i.

Definition shards_grown (s : lru2Store) : Prop :=
  ∀ i p, caches s !! i = Some p →
    of_shard (mask s) (Z.of_nat i) p.1 ∧ of_shard (mask s) (Z.of_nat i) p.2.

(** [key] has no live copy in any list of the store. *)
Definition dead (s : lru2Store) (key : string) : Prop :=
  ∀ i p, caches s !! i = Some p → live p.1 key = false ∧ live p.2 key = false.

(** [key] has a live copy in [c] that expired at or before [now]. *)
Definition stale (now : Z) (c : cache) (key : string) : bool :=
  match find c key with
  | Some n => bool_decide (0 < expireAt n ∧ expireAt n ≤ now)
  | None => false
  end.

End WithValue.

Arguments node : clear implicits.
Arguments cache : clear implicits.
Arguments Value : clear implicits.
Arguments lru2Store : clear implicits.
Arguments op : clear implicits.

(** *** Small stores used as examples *)

(** Two shards, one slot per tier, a callback installed. The keys ["a"]
    and ["k"] fall into shard 1, the key ["b"] into shard 0. *)
Definition small_opts : Options :=
  {| BucketCount := 2; CapPerBucket := 1; Level2Cap := 1;
     CleanupInterval := 0; OnEvicted := true |}.

Definition small_store : lru2Store Z := newLRU2Cache small_opts.

(** One shard, one slot per tier, a callback installed. *)
Definition one_shard_opts : Options :=
  {| BucketCount := 1; CapPerBucket := 1; Level2Cap := 1;
     CleanupInterval := 0; OnEvicted := true |}.

(** A visitor for [walk] that collects the keys in the order of the
    visit. *)
Definition keys_walker (key : string) (_ : Value Z) (_ : Z) (keys : list string)
  : list string * bool :=
  (keys ++ [key], true).

(** A list of one slot that holds [key] with value [val] and expiry [e]. *)
Definition one_slot (key : string) (val : Value Z) (e : Z) : cache Z :=
  {| dlnk := [(1, 1); (0, 0)];
     m := [{| k := key; v := val; expireAt := e |}];
     hmap := {[key := 1]};
     last := 1 |}.

(** The store [small_store] is in after [SetWithExpiration("a", 7, 5ns)]
    at clock 0 and a [Get("a")] at clock 1: ["a"] is a tombstone in L1 and
    live in L2 with expiry 5. *)
Definition promoted_store : lru2Store Z :=
  {| caches := [(Create 1, Create 1);
                (one_slot "a" (Some 7) 0, one_slot "a" (Some 7) 5)];
     onEvicted := true;
     mask := 1 |}.

(** The store [small_store] is in after [Set("k", 1)], [Get("k")] and
    [Set("k", 2)], all at clock 0. *)
Definition twice_store : lru2Store Z :=
  {| caches := [(Create 1, Create 1);
                (one_slot "k" (Some 2) 9999999999999999,
                 one_slot "k" (Some 1) 9999999999999999)];
     onEvicted := true;
     mask := 1 |}.

(** A full list of two slots: ["x"] is the tail, ["y"] the head. *)
Definition full_list (ex : Z) : cache Z :=
  {| dlnk := [(1, 2); (2, 0); (0, 1)];
     m := [{| k := "x"; v := Some 1; expireAt := ex |};
           {| k := "y"; v := Some 2; expireAt := 9 |}];
     hmap := {["x" := 1; "y" := 2]};
     last := 2 |}.

End Store.

(** ** Package [singleflight] *)

Module Singleflight.

Section WithResult.

(** [R] is the payload of a non-nil [interface{}] result; [W] is the state
    outside the group that the computation [fn] reads and changes (a
    shared counter, a backing store). *)
Context {R W : Type}.

(** The [error] interface: [None] is nil. *)
Definition error : Type := option string.

Definition compute : Type := W → W * (option R * error).

(** [call]; [wg] is the counter of the [sync.WaitGroup]. *)
Record call : Type := { wg : Z; val : option R; err : error }.

(** Program points of one invocation of [Do] (prefix [d]) or [DoV2]
    (prefix [v]); the waiting path is the same in both. *)
Inductive label : Type :=
  | dLoad          (* g.m.Load(key) *)
  | dNew           (* c := &call{}; c.wg.Add(1) *)
  | dStore         (* g.m.Store(key, c) *)
  | dFn            (* c.val, c.err = fn() *)
  | dDone          (* c.wg.Done() *)
  | dDelete        (* g.m.Delete(key) *)
  | dRet           (* return c.val, c.err *)
  | vNew           (* c := &call{}; c.wg.Add(1) *)
  | vLoadOrStore   (* g.m.LoadOrStore(key, c) *)
  | vFn            (* c.val, c.err = fn() *)
  | vRet           (* return c.val, c.err: the results are evaluated *)
  | vDeferDelete   (* deferred g.m.Delete(key) *)
  | vDeferDone     (* deferred c.wg.Done() *)
  | wWait          (* c.wg.Wait() *)
  | wRet           (* return c.val, c.err after the wait *)
  | Finished.

(** One goroutine inside [Do] or [DoV2]: its arguments, its program
    point, its local [c] (the address of a [call]) and, once set, the pair
    it returns. *)
Record thread : Type := {
  key : string;
  fn : compute;
  pc : label;
  c : nat;
  result : option (option R * error)
}.

(** What the goroutines share: the [sync.Map] of the group, the [call]
    objects by address, the outside state, and the number of times any
    [fn] has been run. *)
Record shared : Type := {
  table : gmap string nat;
  calls : list call;
  world : W;
  runs : nat
}.

Definition at_pc (t : thread) (l : label) : thread :=
  {| key := key t; fn := fn t; pc := l; c := c t; result := result t |}.

Definition with_c (t : thread) (a : nat) (l : label) : thread :=
  {| key := key t; fn := fn t; pc := l; c := a; result := result t |}.

Definition returning (t : thread) (cl : call) (l : label) : thread :=
  {| key := key t; fn := fn t; pc := l; c := c t; result := Some (val cl, err cl) |}.

Definition with_table (s : shared) (tb : gmap string nat) : shared :=
  {| table := tb; calls := calls s; world := world s; runs := runs s |}.

Definition with_calls (s : shared) (cs : list call) : shared :=
  {| table := table s; calls := cs; world := world s; runs := runs s |}.

(** [c := &call{}; c.wg.Add(1)]: a fresh address. *)
Definition new_call (s : shared) : nat * shared :=
  (length (calls s),
   with_calls s (calls s ++ [{| wg := 1; val := None; err := None |}])).

(** [c.val, c.err = fn()] *)
Definition run_fn (t : thread) (s : shared) : option shared :=
  cl ← calls s !! c t;
  let '(w', (r, e)) := fn t (world s) in
  Some {| table := table s;
          calls := <[c t := {| wg := wg cl; val := r; err := e |}]> (calls s);
          world := w';
          runs := S (runs s) |}.

(** [c.wg.Done()] *)
Definition wg_done (t : thread) (s : shared) : option shared :=
  cl ← calls s !! c t;
  if decide (wg cl - 1 < 0) then None
  else Some (with_calls s
               (<[c t := {| wg := wg cl - 1; val := val cl; err := err cl |}]> (calls s))).

(** The statements both versions share: waiting for and returning the
    result of somebody else's call. [None]: the goroutine cannot move
    (it waits, it has returned, or it panicked). *)
Definition step_wait (t : thread) (s : shared) : option (thread * shared) :=
  match pc t with
  | wWait =>
      cl ← calls s !! c t;
      if decide (wg cl = 0) then Some (at_pc t wRet, s) else None
  | wRet =>
      cl ← calls s !! c t;
      Some (returning t cl Finished, s)
  | _ => None
  end.

(** One atomic step of a goroutine running [Group.Do]. *)
Definition step_Do (t : thread) (s : shared) : option (thread * shared) :=
  match pc t with
  | dLoad =>
      match table s !! key t with
      | Some a => Some (with_c t a wWait, s)
      | None => Some (at_pc t dNew, s)
      end
  | dNew => let '(a, s') := new_call s in Some (with_c t a dStore, s')
  | dStore => Some (at_pc t dFn, with_table s (<[key t := c t]> (table s)))
  | dFn => s' ← run_fn t s; Some (at_pc t dDone, s')
  | dDone => s' ← wg_done t s; Some (at_pc t dDelete, s')
  | dDelete => Some (at_pc t dRet, with_table s (base.delete (key t) (table s)))
  | dRet => cl ← calls s !! c t; Some (returning t cl Finished, s)
  | _ => step_wait t s
  end.

(** One atomic step of a goroutine running [Group.DoV2]. *)
Definition step_DoV2 (t : thread) (s : shared) : option (thread * shared) :=
  match pc t with
  | vNew => let '(a, s') := new_call s in Some (with_c t a vLoadOrStore, s')
  | vLoadOrStore =>
      match table s !! key t with
      | Some a => Some (with_c t a wWait, s)
      | None => Some (at_pc t vFn, with_table s (<[key t := c t]> (table s)))
      end
  | vFn => s' ← run_fn t s; Some (at_pc t vRet, s')
  | vRet => cl ← calls s !! c t; Some (returning t cl vDeferDelete, s)
  | vDeferDelete =>
      Some (at_pc t vDeferDone, with_table s (base.delete (key t) (table s)))
  | vDeferDone => s' ← wg_done t s; Some (at_pc t Finished, s')
  | _ => step_wait t s
  end.

(** A call of [Do], respectively [DoV2], that has not started yet. *)
Definition enter_Do (key : string) (fn : compute) : thread :=
  {| key := key; fn := fn; pc := dLoad; c := O; result := None |}.

Definition enter_DoV2 (key : string) (fn : compute) : thread :=
  {| key := key; fn := fn; pc := vNew; c := O; result := None |}.

Definition finished (t : thread) : bool :=
  match pc t with Finished => true | _ => false end.

(** A call run to its return with no other goroutine moving: the value
    it returns and the state it leaves. [None] when it does not return
    within [fuel] steps (it waits for a call nobody completes) or
    panics. *)
Fixpoint run_alone (step : thread → shared → option (thread * shared))
    (fuel : nat) (t : thread) (s : shared)
  : option ((option R * error) * shared) :=
  if finished t then r ← result t; Some (r, s)
  else
    match fuel with
    | O => None
    | S fuel' => '(t', s') ← step t s; run_alone step fuel' t' s'
    end.

Definition Do (fuel : nat) (s : shared) (key : string) (fn : compute) :=
  run_alone step_Do fuel (enter_Do key fn) s.

Definition DoV2 (fuel : nat) (s : shared) (key : string) (fn : compute) :=
  run_alone step_DoV2 fuel (enter_DoV2 key fn) s.

(** The two entry points of the package, to state what both do. *)
Inductive version : Type := OfDo | OfDoV2.

Definition call_alone (ver : version) (fuel : nat) (s : shared)
    (key : string) (fn : compute) : option ((option R * error) * shared) :=
  match ver with
  | OfDo => Do fuel s key fn
  | OfDoV2 => DoV2 fuel s key fn
  end.

(** Several goroutines: a schedule names, step by step, the goroutine
    that moves. A step of a goroutine that cannot move leaves the state
    as it is. *)
Definition sys : Type := list thread * shared.

Definition sched_step (step : thread → shared → option (thread * shared))
    (tid : nat) (st : sys) : sys :=
  match st.1 !! tid with
  | Some t =>
      match step t st.2 with
      | Some (t', s') => (<[tid := t']> st.1, s')
      | None => st
      end
  | None => st
  end.

Definition run_sched (step : thread → shared → option (thread * shared))
    (schedule : list nat) (st : sys) : sys :=
  foldl (fun st tid => sched_step step tid st) st schedule.

(** The goroutine is the executor of its key: it has registered its call
    and has neither finished running [fn] and publishing the result nor
    removed the registration. *)
Definition executes (t : thread) : bool :=
  match pc t with
  | dFn | dDone | dDelete | vFn | vRet | vDeferDelete => true
  | _ => false
  end.

(** At most one execution per key at a time: every executor's key is
    registered, and two executors of one key are the same goroutine. *)
Definition exclusive (st : sys) : Prop :=
  (∀ i t, st.1 !! i = Some t → executes t = true → is_Some (table st.2 !! key t))
  ∧ (∀ i j ti tj,
       st.1 !! i = Some ti → st.1 !! j = Some tj →
       executes ti = true → executes tj = true → key ti = key tj → i = j).

(** The group with no call in flight, next to an outside state [w]. *)
Definition idle (w : W) : shared :=
  {| table := ∅; calls := []; world := w; runs := O |}.

End WithResult.

Arguments call : clear implicits.
Arguments thread : clear implicits.
Arguments shared : clear implicits.
Arguments compute : clear implicits.
Arguments sys : clear implicits.

(** The schedule of two goroutines that move in turns, seven steps
    each. *)
Definition in_turns : list nat := [0; 1; 0; 1; 0; 1; 0; 1; 0; 1; 0; 1; 0; 1]%nat.

(** The observable computation of the stress test: it increments a shared
    counter and returns the new count, with a nil error. *)
Definition count_up : compute Z Z := fun n => (n + 1, (Some (n + 1), None)).

(** *** The calls in flight

    What holds of the [call] objects while goroutines run [DoV2]. *)

(** The goroutine holds a [call] of its own making: from its creation
    until the goroutine gives it up for a registered one or completes
    it. *)
Definition owns {R W : Type} (t : thread R W) : bool :=
  match pc t with
  | vLoadOrStore | vFn | vRet | vDeferDelete | vDeferDone => true
  | _ => false
  end.

(** The goroutine has seen the [WaitGroup] of its [call] at zero, or has
    brought it there itself. *)
Definition past_wait {R W : Type} (t : thread R W) : bool :=
  match pc t with
  | wRet | Finished => true
  | _ => false
  end.

(** The goroutine has evaluated the pair it returns. *)
Definition returned {R W : Type} (t : thread R W) : bool :=
  match pc t with
  | vDeferDelete | vDeferDone | Finished => true
  | _ => false
  end.

Record flights_ok {R W : Type} (st : sys R W) : Prop := {
  own_distinct : ∀ i j ti tj,
    st.1 !! i = Some ti → st.1 !! j = Some tj →
    owns ti = true → owns tj = true → c ti = c tj → i = j;
  own_open : ∀ i t,
    st.1 !! i = Some t → owns t = true →
    ∃ cl, calls st.2 !! c t = Some cl ∧ wg cl = 1;
  waited_closed : ∀ i t,
    st.1 !! i = Some t → past_wait t = true →
    ∃ cl, calls st.2 !! c t = Some cl ∧ wg cl = 0;
  result_set : ∀ i t,
    st.1 !! i = Some t → returned t = true ↔ is_Some (result t);
  result_of_call : ∀ i t r,
    st.1 !! i = Some t → result t = Some r →
    ∃ cl, calls st.2 !! c t = Some cl ∧ r = (val cl, err cl)
}.

(** The same for goroutines that run [Do]: a goroutine holds a [call] of
    its own making from [dStore] on; the [WaitGroup] of that [call] is at
    one until the goroutine has run [Done], and at zero afterwards. *)
Definition owns_Do {R W : Type} (t : thread R W) : bool :=
  match pc t with
  | dStore | dFn | dDone | dDelete | dRet => true
  | _ => false
  end.

Definition before_Done {R W : Type} (t : thread R W) : bool :=
  match pc t with
  | dStore | dFn | dDone => true
  | _ => false
  end.

Definition after_Done {R W : Type} (t : thread R W) : bool :=
  match pc t with
  | dDelete | dRet | wRet | Finished => true
  | _ => false
  end.

Record flights_ok_Do {R W : Type} (st : sys R W) : Prop := {
  do_distinct : ∀ i j ti tj,
    st.1 !! i = Some ti → st.1 !! j = Some tj →
    owns_Do ti = true → owns_Do tj = true → c ti = c tj → i = j;
  do_open : ∀ i t,
    st.1 !! i = Some t → before_Done t = true →
    ∃ cl, calls st.2 !! c t = Some cl ∧ wg cl = 1;
  do_closed : ∀ i t,
    st.1 !! i = Some t → after_Done t = true →
    ∃ cl, calls st.2 !! c t = Some cl ∧ wg cl = 0;
  do_result_set : ∀ i t,
    st.1 !! i = Some t → finished t = true ↔ is_Some (result t);
  do_result_of_call : ∀ i t r,
    st.1 !! i = Some t → result t = Some r →
    ∃ cl, calls st.2 !! c t = Some cl ∧ r = (val cl, err cl)
}.

End Singleflight.

(** ** Package [yangcache]: the cache in front of the store

    [Cache] wraps a [store.Store] that it creates on first use. The
    interface [store.Store], its constructor [store.NewStore] and the type
    [ByteView] are not part of the sources embedded here: the store is a
    state of any type with the methods the cache calls, each of which may
    panic ([None]). Locks and atomic accesses order the steps of concurrent
    calls and carry no data; the calls are embedded as they run one at a
    time. Log output is left out. *)

Module YangCache.

Section WithStore.

(** [St] is the state of a store, [Val] the interface type [store.Value],
    [BV] the type [ByteView], [Opts] the type [CacheOptions]. *)
Context {St Val BV Opts : Type}.

(** The methods of [store.Store] the cache calls. [Set] and
    [SetWithExpiration] return whether their [error] is non-nil; [sClose]
    is [None] when the store has no method [Close]. *)
Record StoreMethods : Type := {
  NewStore : Opts → option St;
  sGet : St → string → option (St * (Val * bool));
  sSet : St → string → Val → option (St * bool);
  sSetWithExpiration : St → string → Val → Z → option (St * bool);
  sDelete : St → string → option (St * bool);
  sClear : St → option St;
  sLen : St → option (St * Z);
  sClose : option (St → option St)
}.

(** A [ByteView] passed as a [store.Value], the type assertion
    [val.(ByteView)], and the zero value [ByteView{}]. *)
Record ByteViews : Type := {
  toValue : BV → Val;
  asByteView : Val → option BV;
  zeroByteView : BV
}.

Context (M : StoreMethods) (B : ByteViews).

Record Cache : Type := {
  store : option St;
  opts : Opts;
  hits : Z;
  misses : Z;
  initialized : Z;
  closed : Z
}.

Definition NewCache (o : Opts) : Cache :=
  {| store := None; opts := o; hits := 0; misses := 0;
     initialized := 0; closed := 0 |}.

Definition with_store (c : Cache) (st : option St) : Cache :=
  {| store := st; opts := opts c; hits := hits c; misses := misses c;
     initialized := initialized c; closed := closed c |}.

(** [atomic.AddInt64(&c.hits, 1)] and [atomic.AddInt64(&c.misses, 1)] *)
Definition count_hit (c : Cache) : Cache :=
  {| store := store c; opts := opts c; hits := Store.wrap_i64 (hits c + 1);
     misses := misses c; initialized := initialized c; closed := closed c |}.

Definition count_miss (c : Cache) : Cache :=
  {| store := store c; opts := opts c; hits := hits c;
     misses := Store.wrap_i64 (misses c + 1);
     initialized := initialized c; closed := closed c |}.

Definition ensureInitialized (c : Cache) : option Cache :=
  if decide (initialized c = 1) then Some c
  else if decide (initialized c = 0) then
    st ← NewStore M (opts c);
    Some {| store := Some st; opts := opts c; hits := hits c; misses := misses c;
            initialized := 1; closed := closed c |}
  else Some c.

(** [Add]; a non-nil error of [Set] ends in [log.Panicf]. *)
Definition Add (c : Cache) (key : string) (value : BV) : option Cache :=
  if decide (closed c = 1) then Some c
  else
    c1 ← ensureInitialized c;
    st ← store c1;
    '(st', err) ← sSet M st key (toValue B value);
    if (err : bool) then None else Some (with_store c1 (Some st')).

Definition Get (c : Cache) (key : string) : option (Cache * (BV * bool)) :=
  if decide (closed c = 1) then Some (c, (zeroByteView B, false))
  else if decide (initialized c = 0) then
    Some (count_miss c, (zeroByteView B, false))
  else
    st ← store c;
    '(st', (val, found)) ← sGet M st key;
    let c1 := with_store c (Some st') in
    if (found : bool) then
      let c2 := count_hit c1 in
      match asByteView B val with
      | Some bv => Some (c2, (bv, true))
      | None => Some (count_miss c2, (zeroByteView B, false))
      end
    else Some (count_miss c1, (zeroByteView B, false)).

(** [AddWithExpiration]; [until] is the value of [time.Until(expiredAt)].
    The error of [SetWithExpiration] is logged only. *)
Definition AddWithExpiration (c : Cache) (key : string) (value : BV) (until : Z)
  : option Cache :=
  if decide (closed c = 1) then Some c
  else
    c1 ← ensureInitialized c;
    if decide (until ≤ 0) then Some c1
    else
      st ← store c1;
      '(st', _) ← sSetWithExpiration M st key (toValue B value) until;
      Some (with_store c1 (Some st')).

Definition Delete (c : Cache) (key : string) : option (Cache * bool) :=
  if decide (closed c = 1 ∨ initialized c = 0) then Some (c, false)
  else
    st ← store c;
    '(st', b) ← sDelete M st key;
    Some (with_store c (Some st'), b).

Definition Clear (c : Cache) : option Cache :=
  if decide (closed c = 1 ∨ initialized c = 0) then Some c
  else
    st ← store c;
    st' ← sClear M st;
    Some {| store := Some st'; opts := opts c; hits := 0; misses := 0;
            initialized := initialized c; closed := closed c |}.

Definition Len (c : Cache) : option (Cache * Z) :=
  if decide (closed c = 1 ∨ initialized c = 0) then Some (c, 0)
  else
    st ← store c;
    '(st', n) ← sLen M st;
    Some (with_store c (Some st'), n).

(** [Close]; the compare-and-swap of [closed] from 0 to 1 fails when
    [closed] is not 0. *)
Definition Close (c : Cache) : option Cache :=
  if decide (closed c = 0) then
    st1 ← match store c with
          | Some st =>
              match sClose M with
              | Some close => _ ← close st; Some None
              | None => Some None
              end
          | None => Some None
          end;
    Some {| store := st1; opts := opts c; hits := hits c; misses := misses c;
            initialized := 0; closed := 1 |}
  else Some c.

(** The calls of the cache as data, and what each returns. *)
Inductive request : Type :=
  | ReqAdd (key : string) (value : BV)
  | ReqAddWithExpiration (key : string) (value : BV) (until : Z)
  | ReqGet (key : string)
  | ReqDelete (key : string)
  | ReqClear
  | ReqLen
  | ReqClose.

Inductive answer : Type :=
  | Nothing
  | Found (value : BV) (ok : bool)
  | Deleted (ok : bool)
  | Length (n : Z).

Definition serve (c : Cache) (a : request) : option (Cache * answer) :=
  match a with
  | ReqAdd key value => c' ← Add c key value; Some (c', Nothing)
  | ReqAddWithExpiration key value until =>
      c' ← AddWithExpiration c key value until; Some (c', Nothing)
  | ReqGet key => '(c', (value, ok)) ← Get c key; Some (c', Found value ok)
  | ReqDelete key => '(c', ok) ← Delete c key; Some (c', Deleted ok)
  | ReqClear => c' ← Clear c; Some (c', Nothing)
  | ReqLen => '(c', n) ← Len c; Some (c', Length n)
  | ReqClose => c' ← Close c; Some (c', Nothing)
  end.

Fixpoint serve_all (c : Cache) (calls : list request) : option (Cache * list answer) :=
  match calls with
  | [] => Some (c, [])
  | a :: calls' =>
      '(c1, r) ← serve c a;
      '(c2, rs) ← serve_all c1 calls';
      Some (c2, r :: rs)
  end.

(** What a call answers on a closed cache. *)
Definition refused (a : request) : answer :=
  match a with
  | ReqGet _ => Found (zeroByteView B) false
  | ReqDelete _ => Deleted false
  | ReqLen => Length 0
  | _ => Nothing
  end.

(** The store is there whenever [initialized] says so. *)
Definition store_present (c : Cache) : Prop :=
  (initialized c = 1 → is_Some (store c)) ∧ (initialized c = 0 ∨ initialized c = 1).

(** The methods of the store never panic, and [Set] returns no error. *)
Record methods_total : Prop := {
  total_NewStore : ∀ o, is_Some (NewStore M o);
  total_Get : ∀ st key, is_Some (sGet M st key);
  total_Set : ∀ st key val, ∃ st', sSet M st key val = Some (st', false);
  total_SetWithExpiration : ∀ st key val d, is_Some (sSetWithExpiration M st key val d);
  total_Delete : ∀ st key, is_Some (sDelete M st key);
  total_Clear : ∀ st, is_Some (sClear M st);
  total_Len : ∀ st, is_Some (sLen M st);
  total_Close : ∀ close st, sClose M = Some close → is_Some (close st)
}.

End WithStore.

Arguments StoreMethods : clear implicits.
Arguments ByteViews : clear implicits.
Arguments Cache : clear implicits.
Arguments request : clear implicits.
Arguments answer : clear implicits.

(** A store for the examples: the association list of the keys set, the
    last one first. *)
Definition list_store : StoreMethods (list (string * Z)) Z unit :=
  {| NewStore := λ _, Some [];
     sGet := λ st key,
       Some (st, match list_find (λ kv, kv.1 = key) st with
                 | Some (_, kv) => (kv.2, true)
                 | None => (0, false)
                 end);
     sSet := λ st key val, Some ((key, val) :: st, false);
     sSetWithExpiration := λ st key val _, Some ((key, val) :: st, false);
     sDelete := λ st key,
       Some (filter (λ kv, kv.1 ≠ key) st,
             bool_decide (Exists (λ kv, kv.1 = key) st));
     sClear := λ _, Some [];
     sLen := λ st, Some (st, Z.of_nat (length st));
     sClose := None |}.

Definition plain_values : ByteViews Z Z :=
  {| toValue := λ b, b; asByteView := λ val, Some val; zeroByteView := 0 |}.

End YangCache.

(** * Properties of package [store] *)

Module StoreSpec.
Import Store.

(** ** Machine integers *)

Lemma wrap16_small z : 0 ≤ z < 65536 → wrap16 z = z.
Proof. intros H. unfold wrap16. by apply Z.mod_small. Qed.

Lemma wrap_i64_small z :
  -9223372036854775808 ≤ z < 9223372036854775808 → wrap_i64 z = z.
Proof. intros H. unfold wrap_i64. rewrite Z.mod_small; lia. Qed.

Lemma slot_eq idx : 1 ≤ idx ≤ 65536 → slot idx = Z.to_nat (idx - 1).
Proof. intros H. unfold slot. rewrite wrap16_small; [done | lia]. Qed.

Section WithValue.
Context {V : Type}.
Implicit Types (c : cache V) (n : node V) (l : list (Z * Z)) (d : dir).

(** ** The link array *)

Lemma rd_ok N U l i d :
  links_ok N U l → 0 ≤ i < N → ∃ x, rd l i d = Some x ∧ 0 ≤ x < N.
Proof.
  intros (Hlen & Hall & _) Hi. unfold rd.
  destruct (lookup_lt_is_Some_2 l (Z.to_nat i)) as [p Hp]; [lia |].
  rewrite Hp. exists (col d p). split; [done |].
  rewrite Forall_lookup in Hall. specialize (Hall _ _ Hp).
  destruct d; simpl; tauto.
Qed.

Lemma wr_ok N U l i d x :
  links_ok N U l → 0 ≤ i < N → 0 ≤ x < N → (i ≠ 0 ∨ x ≠ 0) →
  ∃ l', wr l i d x = Some l' ∧ links_ok N U l'.
Proof.
  intros (Hlen & Hall & Hs) Hi Hx Hnz. unfold wr.
  destruct (lookup_lt_is_Some_2 l (Z.to_nat i)) as [p Hp]; [lia |].
  rewrite Hp. simpl. eexists. split; [done |].
  pose proof Hall as Hall'. rewrite Forall_lookup in Hall'.
  pose proof (Hall' _ _ Hp) as Hpb.
  split; [by rewrite length_insert |]. split.
  - apply Forall_insert; [done |]. destruct d; simpl; tauto.
  - intros HU q Hq. destruct (decide (Z.to_nat i = 0%nat)) as [Hz | Hz].
    + rewrite Hz in Hq, Hp. rewrite list_lookup_insert_eq in Hq; [| lia].
      injection Hq as <-. specialize (Hs HU _ Hp).
      assert (i = 0) by lia. destruct d; simpl; split; try tauto; lia.
    + rewrite list_lookup_insert_ne in Hq; [| done]. by apply Hs.
Qed.

(** The next [rd], respectively [wr], of the goal is in range. *)
Ltac rd_step H :=
  match goal with
  | |- context [rd ?l ?i ?d] =>
      let x := fresh "x" in
      let E := fresh "E" in
      let Hx := fresh "Hx" in
      destruct (rd_ok _ _ l i d H) as (x & E & Hx);
      [lia | rewrite ?E; simpl]
  end.

Ltac wr_step H :=
  match goal with
  | |- context [wr ?l ?i ?d ?x] =>
      let l' := fresh "l" in
      let E := fresh "E" in
      let H' := fresh "Hl" in
      destruct (wr_ok _ _ l i d x H) as (l' & E & H');
      [lia | lia | lia | rewrite ?E; simpl]
  end.

Lemma adjust_ok N U l idx front tail :
  links_ok N U l → 1 ≤ idx < N →
  ∃ l', adjust l idx front tail = Some l' ∧ links_ok N U l'.
Proof.
  intros Hl Hidx. unfold adjust.
  rd_step Hl. case_decide; [| by eauto].
  rd_step Hl. wr_step Hl. rd_step Hl0. wr_step Hl0. wr_step Hl1.
  rd_step Hl2. wr_step Hl2. rd_step Hl3. wr_step Hl3. wr_step Hl4.
  eauto.
Qed.

Lemma links_ok_weaken N (U U' : Prop) l :
  links_ok N U l → (U' → U) → links_ok N U' l.
Proof. intros (? & ? & Hs) HU. repeat split; auto. all: by apply Hs; auto. Qed.

Lemma links_ok_sentinel N (U U' : Prop) l :
  links_ok N U l → (∀ p, l !! 0%nat = Some p → p.1 ≠ 0 ∧ p.2 ≠ 0) →
  links_ok N U' l.
Proof. intros (? & ? & _) Hs. repeat split; auto. all: by apply Hs. Qed.

Lemma hmap_slot c key idx :
  cache_ok c → hmap c !! key = Some idx →
  1 ≤ idx ≤ last c ∧ slot idx = Z.to_nat (idx - 1) ∧ is_Some (m c !! slot idx).
Proof.
  intros [Hcap Hlast _ Hh] Hk. specialize (Hh _ _ Hk).
  assert (slot idx = Z.to_nat (idx - 1)) as E by (apply slot_eq; lia).
  repeat split; try lia; try done.
  rewrite E. apply lookup_lt_is_Some_2. lia.
Qed.

Lemma rd_sentinel N (U : Prop) l d :
  links_ok N U l → U → 0 < N → ∃ t, rd l 0 d = Some t ∧ 1 ≤ t < N.
Proof.
  intros Hl HU HN. destruct (rd_ok _ _ l 0 d Hl) as (t & E & Ht); [lia |].
  exists t. split; [done |]. destruct Hl as (_ & _ & Hs).
  unfold rd in E. change (Z.to_nat 0) with 0%nat in E.
  destruct (l !! 0%nat) as [p |] eqn:Hp; simplify_eq/=.
  destruct (Hs HU _ eq_refl). destruct d; simpl in *; lia.
Qed.

Lemma hmap_empty_last c : cache_ok c → last c = 0 → hmap c = ∅.
Proof.
  intros [_ _ _ Hh] E. apply map_empty. intros key.
  destruct (hmap c !! key) as [idx |] eqn:Hk; [| done].
  specialize (Hh _ _ Hk). lia.
Qed.

Lemma wr_sentinel l d x p :
  l !! 0%nat = Some p → wr l 0 d x = Some (<[0%nat := setcol d x p]> l).
Proof. intros Hp. unfold wr. change (Z.to_nat 0) with 0%nat. by rewrite Hp. Qed.

(** The link updates of the branch of [put] that takes a fresh slot [L]. *)
Lemma fresh_links N (U : Prop) l L (sz : nat) :
  links_ok N U l → 1 ≤ L < N → ((0 < sz)%nat → U) →
  ∃ la h lc,
    (if decide (sz ≤ 0)%nat then wr l 0 pre L
     else h ← rd l 0 next; wr l h pre L) = Some la
    ∧ rd la 0 next = Some h
    ∧ is_Some (la !! Z.to_nat L)
    ∧ wr (<[Z.to_nat L := (0, h)]> la) 0 next L = Some lc
    ∧ links_ok N True lc.
Proof.
  intros Hl HL HU.
  assert (∃ la p1, (if decide (sz ≤ 0)%nat then wr l 0 pre L
     else h ← rd l 0 next; wr l h pre L) = Some la
     ∧ links_ok N False la ∧ la !! 0%nat = Some p1 ∧ p1.1 ≠ 0)
    as (la & p1 & -> & Hla & Hp1 & Hnz).
  { pose proof (links_ok_weaken _ _ False _ Hl ltac:(tauto)) as Hw.
    destruct (lookup_lt_is_Some_2 l 0%nat) as [p0 Hp0].
    { destruct Hl as (? & _). lia. }
    case_decide as Hsz.
    - destruct (wr_ok _ _ l 0 pre L Hw) as (la & E & Hla); [lia | lia | lia |].
      rewrite E. rewrite (wr_sentinel _ _ _ _ Hp0) in E. injection E as <-.
      exists (<[0%nat := setcol pre L p0]> l), (setcol pre L p0).
      split_and!; try done.
      + rewrite list_lookup_insert_eq; [done | by eapply lookup_lt_Some].
      + simpl. lia.
    - destruct (rd_sentinel _ _ _ next Hl) as (h & -> & Hh); [apply HU; lia | lia |].
      simpl.
      destruct (wr_ok _ _ l h pre L Hw) as (la & E & Hla); [lia | lia | lia |].
      rewrite E. exists la, p0. split_and!; try done.
      + unfold wr in E. destruct (l !! Z.to_nat h); simplify_eq/=.
        rewrite list_lookup_insert_ne; [done | lia].
      + destruct Hl as (_ & _ & Hs). apply (Hs ltac:(apply HU; lia) _ Hp0). }
  destruct (rd_ok _ _ la 0 next Hla) as (h & Eh & Hh); [lia |].
  exists la, h. rewrite Eh.
  assert (links_ok N False (<[Z.to_nat L := (0, h)]> la)) as Hlb.
  { destruct Hla as (Hlen & Hall & _). split; [by rewrite length_insert |].
    split; [| tauto]. apply Forall_insert; [done |]. simpl. lia. }
  assert (<[Z.to_nat L := (0, h)]> la !! 0%nat = Some p1) as Hp2.
  { rewrite list_lookup_insert_ne; [done | lia]. }
  rewrite (wr_sentinel _ _ _ _ Hp2). eexists. split_and!; try done.
  - apply lookup_lt_is_Some_2. destruct Hla as (? & _). lia.
  - destruct (wr_ok _ _ _ 0 next L Hlb) as (lc & E & Hlc); [lia | lia | lia |].
    rewrite (wr_sentinel _ _ _ _ Hp2) in E. injection E as <-.
    apply (links_ok_sentinel _ False True _ Hlc). intros p.
    rewrite list_lookup_insert_eq; [| by eapply lookup_lt_Some].
    intros [= <-]. simpl. split; [done | lia].
Qed.

Lemma put_ok c key val e cb :
  cache_ok c →
  ∃ c' r evs, put c key val e cb = Some (c', r, evs)
    ∧ cache_ok c'
    ∧ ∃ n, find c' key = Some n ∧ v n = val ∧ expireAt n = e.
Proof.
  intros Hc. pose proof Hc as [Hcap Hlast Hl Hh]. unfold put.
  destruct (hmap c !! key) as [idx |] eqn:Hk.
  - destruct (hmap_slot _ _ _ Hc Hk) as (Hidx & Es & [n Hn]).
    rewrite Hn. simpl.
    destruct (adjust_ok _ _ _ idx pre next Hl) as (l' & -> & Hl'); [lia |].
    simpl. do 3 eexists. split; [done |]. split.
    + constructor; simpl; rewrite ?length_insert; auto.
    + unfold find. simpl. rewrite Hk. simpl.
      rewrite list_lookup_insert_eq; [eauto | by eapply lookup_lt_Some].
  - case_decide as Hfull.
    + rewrite wrap16_small in Hfull; [| lia].
      destruct (rd_sentinel _ _ _ pre Hl) as (t & -> & Ht); [lia | lia |].
      simpl. assert (slot t = Z.to_nat (t - 1)) as Es by (apply slot_eq; lia).
      destruct (lookup_lt_is_Some_2 (m c) (slot t)) as [tl Htl]; [lia |].
      rewrite Htl. simpl.
      destruct (adjust_ok _ _ _ t pre next Hl) as (l' & -> & Hl'); [lia |].
      simpl. do 3 eexists. split; [done |]. split.
      * constructor; simpl; rewrite ?length_insert; auto.
        intros key' idx'. rewrite lookup_insert. case_decide.
        -- intros [= <-]. lia.
        -- rewrite lookup_delete. case_decide; [done | apply Hh].
      * unfold find. simpl. rewrite lookup_insert_eq. simpl.
        rewrite list_lookup_insert_eq; [eauto | lia].
    + rewrite wrap16_small in Hfull; [| lia].
      rewrite (wrap16_small (last c + 1)); [| lia].
      destruct (fresh_links _ _ _ (last c + 1) (size (hmap c)) Hl)
        as (la & h & lc & -> & Eh & [p Hp] & Elc & Hlc); [lia | |].
      { intros Hsz. destruct (decide (1 ≤ last c)) as [| Hz]; [done |].
        rewrite (hmap_empty_last c Hc) in Hsz; [| lia].
        rewrite map_size_empty in Hsz. lia. }
      simpl. assert (slot (last c + 1) = Z.to_nat (last c)) as Es.
      { rewrite slot_eq; [f_equal; lia | lia]. }
      destruct (lookup_lt_is_Some_2 (m c) (slot (last c + 1))) as [n0 Hn0]; [lia |].
      rewrite Hn0, Eh. simpl. rewrite Hp. simpl. rewrite Elc. simpl.
      do 3 eexists. split; [done |]. split.
      * constructor; simpl; rewrite ?length_insert; auto; try lia.
        -- eapply links_ok_weaken; [apply Hlc | done].
        -- intros key' idx'. rewrite lookup_insert. case_decide.
           ++ intros [= <-]. lia.
           ++ intros Hk'. specialize (Hh _ _ Hk'). lia.
      * unfold find. simpl. rewrite lookup_insert_eq. simpl.
        rewrite list_lookup_insert_eq; [eauto | lia].
Qed.

(** ** [get] and [del] *)

Lemma find_None c key : cache_ok c → find c key = None → hmap c !! key = None.
Proof.
  intros Hc Hf. destruct (hmap c !! key) as [idx |] eqn:Hk; [| done].
  destruct (hmap_slot _ _ _ Hc Hk) as (_ & _ & [n Hn]).
  unfold find in Hf. rewrite Hk in Hf. simpl in Hf. congruence.
Qed.

Lemma get_hit c key n :
  cache_ok c → find c key = Some n →
  ∃ c', get c key = Some (c', Some n, 1)
    ∧ cache_ok c' ∧ m c' = m c ∧ hmap c' = hmap c ∧ last c' = last c.
Proof.
  intros Hc Hf. pose proof Hc as [Hcap Hlast Hl Hh]. unfold get, find in *.
  destruct (hmap c !! key) as [idx |] eqn:Hk; [| done]. simpl in Hf.
  destruct (hmap_slot _ _ _ Hc Hk) as (Hidx & _).
  destruct (adjust_ok _ _ _ idx pre next Hl) as (l' & -> & Hl'); [lia |].
  simpl. rewrite Hf. simpl. eexists. split; [done |].
  split; [| done]. by constructor.
Qed.

Lemma get_miss c key : cache_ok c → find c key = None → get c key = Some (c, None, 0).
Proof. intros Hc Hf. unfold get. by rewrite (find_None _ _ Hc Hf). Qed.

Lemma del_live c key n :
  cache_ok c → find c key = Some n → 0 < expireAt n →
  ∃ c', del c key =
          Some (c', Some {| k := k n; v := v n; expireAt := 0 |}, 1, expireAt n)
    ∧ cache_ok c'
    ∧ find c' key = Some {| k := k n; v := v n; expireAt := 0 |}
    ∧ hmap c' = hmap c ∧ last c' = last c.
Proof.
  intros Hc Hf He. pose proof Hc as [Hcap Hlast Hl Hh]. unfold del, find in *.
  destruct (hmap c !! key) as [idx |] eqn:Hk; [| done]. simpl in Hf.
  destruct (hmap_slot _ _ _ Hc Hk) as (Hidx & _).
  rewrite Hf. simpl. rewrite decide_True; [| done].
  destruct (adjust_ok _ _ _ idx next pre Hl) as (l' & -> & Hl'); [lia |].
  simpl. eexists. split; [done |]. simpl. rewrite Hk. simpl. split_and!; try done.
  - constructor; simpl; rewrite ?length_insert; auto.
  - rewrite list_lookup_insert_eq; [done | by eapply lookup_lt_Some].
Qed.

Lemma del_dead c key :
  cache_ok c → live c key = false → del c key = Some (c, None, 0, 0).
Proof.
  intros Hc Hd. unfold del, live in *.
  destruct (find c key) as [n |] eqn:Hf.
  - unfold find in Hf. destruct (hmap c !! key) as [idx |]; [| done].
    simpl in Hf. rewrite Hf. simpl. apply bool_decide_eq_false in Hd.
    by rewrite decide_False.
  - by rewrite (find_None _ _ Hc Hf).
Qed.

(** [get] and [del] never panic on a well-formed list and leave it
    well-formed ([put]: see [put_ok]). *)
Lemma get_ok c key :
  cache_ok c → ∃ c' r st, get c key = Some (c', r, st) ∧ cache_ok c'.
Proof.
  intros Hc. destruct (find c key) as [n |] eqn:Hf.
  - destruct (get_hit _ _ _ Hc Hf) as (c' & -> & Hc' & _). eauto.
  - rewrite (get_miss _ _ Hc Hf). eauto.
Qed.

Lemma del_ok c key :
  cache_ok c → ∃ c' r st e, del c key = Some (c', r, st, e) ∧ cache_ok c'.
Proof.
  intros Hc. destruct (live c key) eqn:Hlive.
  - unfold live in Hlive. destruct (find c key) as [n |] eqn:Hf; [| done].
    apply bool_decide_eq_true in Hlive.
    destruct (del_live _ _ _ Hc Hf Hlive) as (c' & -> & Hc' & _). eauto 10.
  - rewrite (del_dead _ _ Hc Hlive). eauto 10.
Qed.

Lemma live_find c key : live c key = true ↔ ∃ n, find c key = Some n ∧ 0 < expireAt n.
Proof.
  unfold live. destruct (find c key) as [n |].
  - rewrite bool_decide_eq_true. split; [eauto |]. by intros (? & [= <-] & ?).
  - split; [done |]. by intros (? & ? & _).
Qed.

(** ** Shards *)

Lemma land_range a b : 0 ≤ b → 0 ≤ Z.land a b ≤ b.
Proof.
  intros Hb. split; [apply Z.land_nonneg; auto |].
  assert (Z.land (Z.ldiff b a) (Z.land a b) = 0) as E0.
  { rewrite Z.land_assoc, Z.land_ldiff. apply Z.land_0_l. }
  assert (Z.ldiff b a + Z.land a b = b) as E.
  { rewrite Z.add_nocarry_lxor, Z.lxor_lor, (Z.land_comm a b) by exact E0.
    apply Z.lor_ldiff_and. }
  assert (0 ≤ Z.ldiff b a) by (apply Z.ldiff_nonneg; auto).
  lia.
Qed.

Implicit Types (s : lru2Store V) (p : cache V * cache V).

Lemma shard_index_range s key : store_ok s → 0 ≤ shard_index s key ≤ mask s.
Proof. intros [Hm _ _]. by apply land_range. Qed.

Lemma shard_in_range s idx :
  store_ok s → 0 ≤ idx ≤ mask s →
  ∃ p, shard s idx = Some p ∧ cache_ok p.1 ∧ cache_ok p.2.
Proof.
  intros [Hm Hlen Hall] Hi. unfold shard. rewrite decide_True by lia.
  destruct (lookup_lt_is_Some_2 (caches s) (Z.to_nat idx)) as [p Hp]; [lia |].
  exists p. split; [done |]. rewrite Forall_lookup in Hall. by apply (Hall _ _ Hp).
Qed.

Lemma shard_Some s idx p :
  shard s idx = Some p → 0 ≤ idx ∧ caches s !! Z.to_nat idx = Some p.
Proof. unfold shard. by case_decide. Qed.

Lemma shard_of_key s key :
  store_ok s → ∃ p, shard s (shard_index s key) = Some p ∧ cache_ok p.1 ∧ cache_ok p.2.
Proof. intros Hs. apply shard_in_range; [done | by apply shard_index_range]. Qed.

Lemma shard_cache_ok s idx p :
  store_ok s → shard s idx = Some p → cache_ok p.1 ∧ cache_ok p.2.
Proof.
  intros [_ _ Hall] [_ Hp]%shard_Some.
  rewrite Forall_lookup in Hall. by apply (Hall _ _ Hp).
Qed.

Lemma with_shard_ok s idx p :
  store_ok s → cache_ok p.1 → cache_ok p.2 → store_ok (with_shard s idx p).
Proof.
  intros [Hm Hlen Hall] H1 H2. constructor; simpl; [done | by rewrite length_insert |].
  by apply Forall_insert.
Qed.

Lemma shard_with_shard s idx p p0 :
  shard s idx = Some p0 → shard (with_shard s idx p) idx = Some p.
Proof.
  intros [Hidx Hp]%shard_Some. unfold shard. simpl. rewrite decide_True by done.
  rewrite list_lookup_insert_eq; [done | by eapply lookup_lt_Some].
Qed.

Lemma shard_with_shard_ne s idx j p :
  0 ≤ idx → 0 ≤ j → idx ≠ j → shard (with_shard s idx p) j = shard s j.
Proof.
  intros Hi Hj Hne. unfold shard. simpl. case_decide; [| done].
  rewrite list_lookup_insert_ne; [done | lia].
Qed.

Lemma with_shard_twice s idx p p' :
  with_shard (with_shard s idx p) idx p' = with_shard s idx p'.
Proof. unfold with_shard. simpl. by rewrite list_insert_insert_eq. Qed.

Lemma with_shard_same s idx p : shard s idx = Some p → with_shard s idx p = s.
Proof.
  intros [_ Hp]%shard_Some. destruct s as [cs cb mk]. unfold with_shard. simpl in *.
  by rewrite list_insert_id.
Qed.

(** ** The operations of the store on one shard *)

Lemma del_cases c key :
  cache_ok c →
  (∃ n c', find c key = Some n ∧ 0 < expireAt n
     ∧ del c key =
         Some (c', Some {| k := k n; v := v n; expireAt := 0 |}, 1, expireAt n)
     ∧ cache_ok c'
     ∧ find c' key = Some {| k := k n; v := v n; expireAt := 0 |})
  ∨ (live c key = false ∧ del c key = Some (c, None, 0, 0)).
Proof.
  intros Hc. destruct (live c key) eqn:Hlive.
  - left. apply live_find in Hlive as (n & Hf & He).
    destruct (del_live _ _ _ Hc Hf He) as (c' & ? & ? & ? & _). eauto 10.
  - right. split; [done |]. by apply del_dead.
Qed.

Lemma live_tombstone c key n :
  find c key = Some {| k := k n; v := v n; expireAt := 0 |} → live c key = false.
Proof. intros Hf. unfold live. rewrite Hf. by apply bool_decide_eq_false. Qed.

Lemma delete_spec s key idx p :
  store_ok s → shard s idx = Some p →
  ∃ c0 c1,
    delete s key idx =
      Some (with_shard s idx (c0, c1), live p.1 key || live p.2 key,
            delete_events (onEvicted s) p key)
    ∧ cache_ok c0 ∧ cache_ok c1
    ∧ live c0 key = false ∧ live c1 key = false.
Proof.
  intros Hs Hp. destruct (shard_cache_ok _ _ _ Hs Hp) as [H1 H2].
  unfold delete, delete_events, live_payload. rewrite Hp. simpl.
  destruct (del_cases p.1 key H1) as
    [(n1 & c0 & Hf1 & He1 & -> & Hc0 & Hf1') | (Hd1 & ->)];
  destruct (del_cases p.2 key H2) as
    [(n2 & c1 & Hf2 & He2 & -> & Hc1 & Hf2') | (Hd2 & ->)]; simpl.
  - exists c0, c1. rewrite Hf1, Hf2.
    rewrite (proj2 (live_find _ _) (ex_intro _ n1 (conj Hf1 He1))).
    rewrite !bool_decide_eq_true_2 by done. simpl.
    split_and!; eauto using live_tombstone.
  - exists c0, p.2. rewrite Hf1.
    rewrite (proj2 (live_find _ _) (ex_intro _ n1 (conj Hf1 He1))).
    rewrite !bool_decide_eq_true_2 by done. simpl.
    split_and!; eauto using live_tombstone.
    unfold live in Hd2. destruct (find p.2 key) as [n2 |].
    + rewrite Hd2. destruct (onEvicted s), (v n1); done.
    + destruct (onEvicted s), (v n1); done.
  - exists p.1, c1. rewrite Hf2, Hd1.
    rewrite (proj2 (live_find _ _) (ex_intro _ n2 (conj Hf2 He2))).
    rewrite !bool_decide_eq_true_2 by done. simpl.
    split_and!; eauto using live_tombstone.
    unfold live in Hd1. destruct (find p.1 key) as [n1 |].
    + rewrite Hd1. destruct (onEvicted s), (v n2); done.
    + destruct (onEvicted s), (v n2); done.
  - exists p.1, p.2. rewrite Hd1, Hd2. simpl. split_and!; try done.
    unfold live in Hd1, Hd2.
    destruct (find p.1 key) as [n1 |], (find p.2 key) as [n2 |];
      rewrite ?Hd1, ?Hd2; by destruct (onEvicted s).
Qed.

Lemma _get_spec s now key idx p :
  store_ok s → shard s idx = Some p →
  ∃ c1 (r : option (node V)),
    _get s now key idx 1 =
      Some (with_shard s idx (p.1, c1), r, match r with Some _ => 1 | None => 0 end)
    ∧ r = match find p.2 key with
          | Some n =>
              if decide (expireAt n ≤ 0 ∨ expireAt n ≤ now) then None else Some n
          | None => None
          end
    ∧ cache_ok c1 ∧ m c1 = m p.2 ∧ hmap c1 = hmap p.2.
Proof.
  intros Hs Hp. destruct (shard_cache_ok _ _ _ Hs Hp) as [H1 H2].
  unfold _get. rewrite Hp. simpl. unfold with_tier. simpl.
  destruct (find p.2 key) as [n |] eqn:Hf.
  - destruct (get_hit _ _ _ H2 Hf) as (c1 & -> & Hc1 & Hm & Hh & _).
    simpl. exists c1. case_decide; [exists None | exists (Some n)]; split_and!; done.
  - rewrite (get_miss _ _ H2 Hf). simpl. exists p.2, None. split_and!; done.
Qed.

Lemma SetWithExpiration_spec s now key value expiration p :
  store_ok s → shard s (shard_index s key) = Some p →
  ∃ c0 evs n,
    SetWithExpiration s now key value expiration =
      Some (with_shard s (shard_index s key) (c0, p.2), evs)
    ∧ cache_ok c0
    ∧ find c0 key = Some n ∧ v n = value
    ∧ expireAt n =
        (if decide (0 < expiration) then wrap_i64 (now + expiration) else 0).
Proof.
  intros Hs Hp. destruct (shard_cache_ok _ _ _ Hs Hp) as [H1 H2].
  unfold SetWithExpiration. rewrite Hp. simpl.
  destruct (put_ok p.1 key value
              (if decide (0 < expiration) then wrap_i64 (now + expiration) else 0)
              (onEvicted s) H1) as (c0 & r & evs & -> & Hc0 & n & Hf & Hv & He).
  simpl. eauto 10.
Qed.

Lemma find_ext c c' key : m c' = m c → hmap c' = hmap c → find c' key = find c key.
Proof. intros Hm Hh. unfold find. by rewrite Hm, Hh. Qed.

Lemma live_ext c c' key : m c' = m c → hmap c' = hmap c → live c' key = live c key.
Proof. intros Hm Hh. unfold live. by rewrite (find_ext c c'). Qed.

(** The lookup in L2 answers with the node it finds when that node is
    neither a tombstone nor expired. *)
Lemma Get_L2_hit s now now' key idx evs p n :
  store_ok s → shard s idx = Some p →
  find p.2 key = Some n → 0 < expireAt n → now < expireAt n → now' < expireAt n →
  ∃ c1,
    Get_L2 s now now' key idx evs =
      Some (with_shard s idx (p.1, c1), (v n, true), evs)
    ∧ cache_ok c1 ∧ m c1 = m p.2 ∧ hmap c1 = hmap p.2.
Proof.
  intros Hs Hp Hf He Hn Hn'. unfold Get_L2.
  destruct (_get_spec s now' key idx p Hs Hp) as (c1 & r & -> & Hr & Hc1 & Hm & Hh).
  rewrite Hf in Hr. rewrite decide_False in Hr by lia. subst r. simpl.
  repeat case_decide; try lia. eauto.
Qed.

(** The lookup in L2 answers not-found, and changes neither the nodes nor
    the map of L2, when [_get] filters the node out. *)
Lemma Get_L2_miss s now now' key idx evs p :
  store_ok s → shard s idx = Some p →
  match find p.2 key with
  | Some n => expireAt n ≤ 0 ∨ expireAt n ≤ now'
  | None => True
  end →
  ∃ c1,
    Get_L2 s now now' key idx evs =
      Some (with_shard s idx (p.1, c1), (None, false), evs)
    ∧ cache_ok c1 ∧ m c1 = m p.2 ∧ hmap c1 = hmap p.2.
Proof.
  intros Hs Hp Hf. unfold Get_L2.
  destruct (_get_spec s now' key idx p Hs Hp) as (c1 & r & -> & Hr & Hc1 & Hm & Hh).
  assert (r = None) as ->.
  { destruct (find p.2 key); [by rewrite decide_True in Hr | done]. }
  simpl. eauto.
Qed.

(** As long as the clock does not run backwards between the two readings
    of one [Get], the lookup in L2 deletes nothing and invokes no callback:
    the branch of [Get] for an expired L2 entry is never taken, because
    [_get] has already turned the expired node into a miss. *)
Lemma Get_L2_never_deletes s now now' key idx evs p :
  store_ok s → shard s idx = Some p → now ≤ now' →
  ∃ c1 r,
    Get_L2 s now now' key idx evs = Some (with_shard s idx (p.1, c1), r, evs)
    ∧ cache_ok c1 ∧ m c1 = m p.2 ∧ hmap c1 = hmap p.2.
Proof.
  intros Hs Hp Hle. unfold Get_L2.
  destruct (_get_spec s now' key idx p Hs Hp) as (c1 & r & -> & Hr & Hc1 & Hm & Hh).
  simpl. destruct (find p.2 key) as [n |]; [| subst r; by eauto 10].
  case_decide as He; subst r; [by eauto 10 |].
  case_decide; [| lia]. case_decide; [lia |]. eauto 10.
Qed.

Lemma Get_L2_shape s now now' key idx evs p :
  store_ok s → shard s idx = Some p →
  ∃ c0 c1 r evs',
    Get_L2 s now now' key idx evs = Some (with_shard s idx (c0, c1), r, evs')
    ∧ cache_ok c0 ∧ cache_ok c1.
Proof.
  intros Hs Hp. destruct (shard_cache_ok _ _ _ Hs Hp) as [H1 H2]. unfold Get_L2.
  destruct (_get_spec s now' key idx p Hs Hp) as (c1 & r & -> & Hr & Hc1 & Hm & Hh).
  simpl. destruct r as [nd |]; [| by eauto 10].
  case_decide; [| lia]. case_decide; [| by eauto 10].
  destruct (delete_spec (with_shard s idx (p.1, c1)) key idx (p.1, c1))
    as (c0' & c1' & -> & ? & ? & _).
  { by apply with_shard_ok. }
  { by eapply shard_with_shard. }
  simpl. rewrite with_shard_twice. eauto 10.
Qed.

(** A live, unexpired entry of L1 is moved to L2 and returned. *)
Lemma Get_promote s now now' key p n :
  store_ok s → shard s (shard_index s key) = Some p →
  find p.1 key = Some n → 0 < expireAt n → now < expireAt n → now' < expireAt n →
  ∃ c0 c1 evs,
    Get s now now' key =
      Some (with_shard s (shard_index s key) (c0, c1), (v n, true), evs)
    ∧ cache_ok c0 ∧ cache_ok c1
    ∧ live c0 key = false ∧ live c1 key = true.
Proof.
  intros Hs Hp Hf He Hn Hn'. destruct (shard_cache_ok _ _ _ Hs Hp) as [H1 H2].
  unfold Get. rewrite Hp. simpl.
  destruct (del_live _ _ _ H1 Hf He) as (c0 & -> & Hc0 & Hf0 & _).
  simpl. case_decide; [lia |]. simpl.
  destruct (put_ok p.2 key (v n) (expireAt n) (onEvicted s) H2)
    as (c1 & r & evs & -> & Hc1 & n' & Hf1 & Hv & He').
  simpl.
  destruct (Get_L2_hit (with_shard s (shard_index s key) (c0, c1)) now now' key
              (shard_index s key) evs (c0, c1) n') as (c1' & -> & Hc1' & Hm & Hh).
  { by apply with_shard_ok. }
  { by eapply shard_with_shard. }
  { done. }
  { lia. }
  { lia. }
  { lia. }
  rewrite with_shard_twice, Hv. simpl. exists c0, c1', evs. split_and!; try done.
  - by eapply live_tombstone.
  - rewrite (live_ext c1 c1') by done. apply live_find. exists n'. split; [done | lia].
Qed.

(** A key that is not live in L1 and whose L2 node [_get] filters out is
    answered not-found; the callback is not invoked, L1 is left as it is,
    and L2 keeps its nodes and its map. *)
Lemma Get_filtered s now now' key p :
  store_ok s → shard s (shard_index s key) = Some p →
  live p.1 key = false →
  match find p.2 key with
  | Some n => expireAt n ≤ 0 ∨ expireAt n ≤ now'
  | None => True
  end →
  ∃ c1,
    Get s now now' key =
      Some (with_shard s (shard_index s key) (p.1, c1), (None, false), [])
    ∧ cache_ok c1 ∧ m c1 = m p.2 ∧ hmap c1 = hmap p.2.
Proof.
  intros Hs Hp Hd Hf. destruct (shard_cache_ok _ _ _ Hs Hp) as [H1 H2].
  unfold Get. rewrite Hp. simpl. rewrite (del_dead _ _ H1 Hd). simpl.
  replace (p.1, p.2) with p by (by destruct p).
  rewrite (with_shard_same _ _ _ Hp).
  by apply Get_L2_miss.
Qed.

(** [Get] never panics on a well-formed store, and it changes the shard of
    its key only. *)
Lemma Get_shape s now now' key :
  store_ok s →
  ∃ c0 c1 r evs,
    Get s now now' key = Some (with_shard s (shard_index s key) (c0, c1), r, evs)
    ∧ cache_ok c0 ∧ cache_ok c1.
Proof.
  intros Hs. destruct (shard_of_key s key Hs) as (p & Hp & H1 & H2).
  unfold Get. rewrite Hp. simpl.
  destruct (del_cases p.1 key H1) as
    [(n & c0 & Hf & He & -> & Hc0 & Hf0) | (Hd & ->)]; simpl.
  - assert (store_ok (with_shard s (shard_index s key) (c0, p.2))) as Hs1.
    { by apply with_shard_ok. }
    case_decide.
    + destruct (delete_spec _ key (shard_index s key) (c0, p.2) Hs1)
        as (c0' & c1' & -> & ? & ? & _); [by eapply shard_with_shard |].
      simpl. rewrite with_shard_twice. eauto 10.
    + destruct (put_ok p.2 key (v n) (expireAt n) (onEvicted s) H2)
        as (c1 & r & evs & -> & Hc1 & _).
      simpl.
      destruct (Get_L2_shape (with_shard s (shard_index s key) (c0, c1)) now now'
                  key (shard_index s key) evs (c0, c1))
        as (c0' & c1' & r' & evs' & -> & ? & ?).
      { by apply with_shard_ok. }
      { by eapply shard_with_shard. }
      rewrite with_shard_twice. eauto 10.
  - replace (p.1, p.2) with p by (by destruct p).
    rewrite (with_shard_same _ _ _ Hp).
    by eapply Get_L2_shape.
Qed.

(** ** Construction *)

Lemma Create_ok (cap : Z) : 1 ≤ cap < 65535 → cache_ok (Create (V := V) cap).
Proof.
  intros Hcap. constructor; simpl; rewrite ?length_replicate.
  - lia.
  - lia.
  - rewrite wrap16_small by lia. split_and!.
    + rewrite length_replicate. lia.
    + apply Forall_replicate. simpl. lia.
    + lia.
  - intros key idx. by rewrite lookup_empty.
Qed.

Lemma lor_shiftr_bound a j :
  0 ≤ a < 32768 → 0 ≤ j → 0 ≤ Z.lor a (Z.shiftr a j) < 32768.
Proof.
  intros Ha Hj.
  assert (0 ≤ Z.shiftr a j ≤ a) as Hsh.
  { rewrite Z.shiftr_div_pow2 by done. split.
    - apply Z.div_pos; [lia | by apply Z.pow_pos_nonneg].
    - apply Z.div_le_upper_bound; [by apply Z.pow_pos_nonneg |].
      assert (1 ≤ 2 ^ j) by (apply (Z.pow_le_mono_r 2 0 j); lia). nia. }
  assert (0 ≤ Z.lor a (Z.shiftr a j)) as H0 by (apply Z.lor_nonneg; lia).
  split; [done |].
  destruct (decide (Z.lor a (Z.shiftr a j) = 0)) as [-> | Hjz]; [lia |].
  change 32768 with (2 ^ 15). apply Z.log2_lt_pow2; [lia |].
  rewrite Z.log2_lor by lia.
  assert (Z.log2 (Z.shiftr a j) ≤ Z.log2 a) by (apply Z.log2_le_mono; lia).
  assert (Z.log2 a < 15).
  { destruct (decide (a = 0)) as [-> | ?]; [done |].
    apply Z.log2_lt_pow2; lia. }
  lia.
Qed.

Lemma maskOfNextPowOf2_range (cap : Z) :
  1 ≤ cap ≤ 32768 → 0 ≤ maskOfNextPowOf2 cap < 32768.
Proof.
  intros Hcap. unfold maskOfNextPowOf2. case_decide as Hpow.
  - rewrite wrap16_small; lia.
  - assert (cap ≠ 32768) as Hne.
    { intros ->. apply Hpow. by vm_compute. }
    assert (0 ≤ cap < 32768) as H0 by lia.
    pose proof (lor_shiftr_bound _ 1 H0 ltac:(lia)) as H1.
    pose proof (lor_shiftr_bound _ 2 H1 ltac:(lia)) as H2.
    pose proof (lor_shiftr_bound _ 4 H2 ltac:(lia)) as H3.
    exact (lor_shiftr_bound _ 8 H3 ltac:(lia)).
Qed.

(** Every store [newLRU2Cache] builds from options in range is
    well-formed. *)
Lemma newLRU2Cache_ok (opts : Options) :
  0 ≤ BucketCount opts ≤ 32768 →
  0 ≤ CapPerBucket opts < 65535 →
  0 ≤ Level2Cap opts < 65535 →
  store_ok (newLRU2Cache (V := V) opts).
Proof.
  intros Hb Hc1 Hc2. unfold newLRU2Cache.
  set (b := if decide (BucketCount opts = 0) then 16 else BucketCount opts).
  assert (1 ≤ b ≤ 32768) as Hb' by (subst b; case_decide; lia).
  pose proof (maskOfNextPowOf2_range b Hb') as Hm.
  constructor; simpl.
  - lia.
  - rewrite length_replicate, wrap16_small by lia. lia.
  - apply Forall_replicate. simpl.
    split; apply Create_ok; case_decide; lia.
Qed.

(** ** The claims about the list and the store *)

(** C7. [put] of a key that is not mapped, into a list at full capacity,
    reclaims the tail slot: with a callback installed the callback is
    invoked exactly once, with the key and the value the tail node had, when
    that node was live ([expireAt > 0]), and not at all when it was a
    tombstone; without a callback nothing is invoked. Either way the call
    reports an insertion and the new key is mapped to the reclaimed slot. *)
Theorem put_full_evicts_live_tail_only c key val e cb :
  cache_ok c →
  hmap c !! key = None →
  last c = Z.of_nat (length (m c)) →
  ∃ t tail c',
    rd (dlnk c) 0 pre = Some t
    ∧ m c !! slot t = Some tail
    ∧ put c key val e cb =
        Some (c', 1,
              if cb && bool_decide (0 < expireAt tail)
              then [(k tail, v tail)] else [])
    ∧ hmap c' !! key = Some t
    ∧ m c' !! slot t = Some {| k := key; v := val; expireAt := e |}.
Proof.
  intros Hc Hk Hfull. pose proof Hc as [Hcap Hlast Hl Hh]. unfold put.
  rewrite Hk. rewrite decide_True by (rewrite wrap16_small; lia).
  destruct (rd_sentinel _ _ _ pre Hl) as (t & Et & Ht); [lia | lia |].
  assert (slot t = Z.to_nat (t - 1)) as Es by (apply slot_eq; lia).
  destruct (lookup_lt_is_Some_2 (m c) (slot t)) as [tl Htl]; [lia |].
  destruct (adjust_ok _ _ _ t pre next Hl) as (l' & El & Hl'); [lia |].
  exists t, tl. rewrite Et. simpl. rewrite Htl. simpl. rewrite El. simpl.
  eexists. split_and!; try done; simpl.
  - by rewrite lookup_insert_eq.
  - rewrite list_lookup_insert_eq; [done | lia].
Qed.

(** Where C2 holds: with a positive expiration that does not carry the
    clock past the largest [int64], the expiry stored is the clock plus the
    expiration, a positive number. *)
Lemma SetWithExpiration_positive_stores_positive s now key value expiration p :
  store_ok s →
  shard s (shard_index s key) = Some p →
  0 ≤ now → 0 < expiration → now + expiration < 9223372036854775808 →
  ∃ s' evs c0 n,
    SetWithExpiration s now key value expiration = Some (s', evs)
    ∧ shard s' (shard_index s' key) = Some (c0, p.2)
    ∧ find c0 key = Some n ∧ v n = value
    ∧ expireAt n = now + expiration ∧ 0 < expireAt n.
Proof.
  intros Hs Hp Hnow Hexp Hmax.
  destruct (SetWithExpiration_spec s now key value expiration p Hs Hp)
    as (c0 & evs & n & -> & Hc0 & Hf & Hv & He).
  rewrite decide_True in He by lia. rewrite wrap_i64_small in He by lia.
  exists (with_shard s (shard_index s key) (c0, p.2)), evs, c0, n.
  split_and!; try done; [by eapply shard_with_shard | lia].
Qed.

Lemma dead_filtered c key now :
  live c key = false →
  match find c key with
  | Some n => expireAt n ≤ 0 ∨ expireAt n ≤ now
  | None => True
  end.
Proof.
  unfold live. destruct (find c key) as [n |]; [| done].
  intros Hd%bool_decide_eq_false. lia.
Qed.

(** C2 (what the code does where the claim fails). Called with an
    expiration that is zero or negative, [SetWithExpiration] stores the
    entry with [expireAt = 0]: the node is a tombstone from the start, the
    key is not live in L1, and unless L2 held a live copy before, a [Get]
    of the key right after it answers not-found, whatever the clock
    shows. *)
Theorem SetWithExpiration_nonpositive_stores_tombstone
    s now key value expiration p :
  store_ok s →
  shard s (shard_index s key) = Some p →
  expiration ≤ 0 →
  ∃ s' evs c0 n,
    SetWithExpiration s now key value expiration = Some (s', evs)
    ∧ shard s' (shard_index s' key) = Some (c0, p.2)
    ∧ find c0 key = Some n ∧ v n = value ∧ expireAt n = 0
    ∧ live c0 key = false
    ∧ (live p.2 key = false →
       ∀ t t', ∃ s'', Get s' t t' key = Some (s'', (None, false), [])).
Proof.
  intros Hs Hp Hexp.
  destruct (SetWithExpiration_spec s now key value expiration p Hs Hp)
    as (c0 & evs & n & -> & Hc0 & Hf & Hv & He).
  rewrite decide_False in He by lia.
  destruct (shard_cache_ok _ _ _ Hs Hp) as [H1 H2].
  assert (live c0 key = false) as Hd.
  { unfold live. rewrite Hf, He. by apply bool_decide_eq_false. }
  assert (shard (with_shard s (shard_index s key) (c0, p.2)) (shard_index s key)
          = Some (c0, p.2)) as Hp' by (by eapply shard_with_shard).
  exists (with_shard s (shard_index s key) (c0, p.2)), evs, c0, n.
  split_and!; try done.
  intros Hd2 t t'.
  destruct (Get_filtered (with_shard s (shard_index s key) (c0, p.2)) t t' key
              (c0, p.2)) as (c1 & -> & _); try done.
  - by apply with_shard_ok.
  - by apply dead_filtered.
  - eauto.
Qed.

(** C6, as amended. [Delete] returns true exactly when the key was live in
    at least one tier of its shard, and afterwards it is live in neither.
    When it returns false the callback is not invoked. When it returns true
    and a callback is installed, the callback is invoked exactly once with
    the L1 value if L1 held a live copy whose value is not nil, otherwise
    exactly once with the L2 value if L2 held a live copy whose value is not
    nil, and otherwise not at all. *)
Theorem Delete_result_and_callback s key p :
  store_ok s →
  shard s (shard_index s key) = Some p →
  ∃ s' b evs p',
    Delete s key = Some (s', b, evs)
    ∧ (b = true ↔ live p.1 key = true ∨ live p.2 key = true)
    ∧ (b = false → evs = [])
    ∧ (onEvicted s = false → evs = [])
    ∧ (onEvicted s = true →
       ∀ x, live_payload p.1 key = Some x → evs = [(key, Some x)])
    ∧ (onEvicted s = true → live_payload p.1 key = None →
       ∀ x, live_payload p.2 key = Some x → evs = [(key, Some x)])
    ∧ (live_payload p.1 key = None → live_payload p.2 key = None → evs = [])
    ∧ shard s' (shard_index s key) = Some p'
    ∧ live p'.1 key = false ∧ live p'.2 key = false.
Proof.
  intros Hs Hp. unfold Delete.
  destruct (delete_spec s key (shard_index s key) p Hs Hp)
    as (c0 & c1 & -> & Hc0 & Hc1 & Hd0 & Hd1).
  do 3 eexists. exists (c0, c1). split; [done |].
  assert (∀ c : cache V, live c key = false → live_payload c key = None) as Hnone.
  { intros c. unfold live, live_payload.
    destruct (find c key); [| done]. by intros ->. }
  unfold delete_events. split_and!; try done.
  - rewrite orb_true_iff. tauto.
  - intros [H1 H2]%orb_false_iff.
    rewrite (Hnone _ H1), (Hnone _ H2). by destruct (onEvicted s).
  - by intros ->.
  - intros -> x ->. done.
  - intros -> -> x ->. done.
  - intros -> ->. by destruct (onEvicted s).
  - by eapply shard_with_shard.
Qed.

(** C3 (what the code does where the claim fails). A key that is not live
    in L1 and whose node in L2 has a positive expiry that the clock has
    reached when [_get] reads it: [Get] answers not-found, but it neither
    invokes the callback nor deletes anything. L1 is untouched, L2 keeps
    all its nodes and its map, and the key is still live ([expireAt > 0])
    in L2 afterwards. *)
Theorem Get_expired_in_L2_is_not_deleted s now now' key p n :
  store_ok s →
  shard s (shard_index s key) = Some p →
  live p.1 key = false →
  find p.2 key = Some n →
  0 < expireAt n →
  expireAt n ≤ now' →
  ∃ s' c1,
    Get s now now' key = Some (s', (None, false), [])
    ∧ shard s' (shard_index s key) = Some (p.1, c1)
    ∧ m c1 = m p.2 ∧ hmap c1 = hmap p.2
    ∧ find c1 key = Some n
    ∧ live c1 key = true.
Proof.
  intros Hs Hp Hd Hf He Hn.
  destruct (Get_filtered s now now' key p Hs Hp Hd) as (c1 & -> & Hc1 & Hm & Hh).
  { rewrite Hf. lia. }
  do 2 eexists. split_and!; try done.
  - by eapply shard_with_shard.
  - by rewrite (find_ext p.2 c1).
  - rewrite (live_ext p.2 c1) by done. apply live_find. eauto.
Qed.

(** [SetWithExpiration] with a positive expiration writes into L1 only:
    the L2 list of the key's shard and all other shards are as before, and
    the key is live in L1 with the value given. One [Get] of it before its
    expiry returns the value and leaves the key a tombstone in L1 and live
    in L2. *)
Lemma SetWithExpiration_then_Get s now now1 now2 key value expiration p :
  store_ok s →
  shard s (shard_index s key) = Some p →
  0 < expiration →
  0 < wrap_i64 (now + expiration) →
  now1 < wrap_i64 (now + expiration) →
  now2 < wrap_i64 (now + expiration) →
  ∃ s1 evs1 c0,
    SetWithExpiration s now key value expiration = Some (s1, evs1)
    ∧ store_ok s1 ∧ mask s1 = mask s
    ∧ shard s1 (shard_index s key) = Some (c0, p.2)
    ∧ (∀ j, j ≠ shard_index s key → shard s1 j = shard s j)
    ∧ live c0 key = true
    ∧ ∃ s2 evs2 c0' c1',
        Get s1 now1 now2 key = Some (s2, (value, true), evs2)
        ∧ store_ok s2 ∧ mask s2 = mask s
        ∧ shard s2 (shard_index s key) = Some (c0', c1')
        ∧ live c0' key = false ∧ live c1' key = true.
Proof.
  intros Hs Hp Hexp He Hn1 Hn2.
  destruct (SetWithExpiration_spec s now key value expiration p Hs Hp)
    as (c0 & evs & n & -> & Hc0 & Hf & Hv & Hen).
  rewrite decide_True in Hen by lia.
  destruct (shard_cache_ok _ _ _ Hs Hp) as [H1 H2].
  pose proof (shard_index_range s key Hs) as Hidx.
  set (s1 := with_shard s (shard_index s key) (c0, p.2)).
  assert (store_ok s1) as Hs1 by (by apply with_shard_ok).
  assert (shard s1 (shard_index s1 key) = Some (c0, p.2)) as Hp1.
  { by eapply shard_with_shard. }
  exists s1, evs, c0. split_and!; try done.
  - intros j Hne. unfold shard. simpl. case_decide; [| done].
    rewrite list_lookup_insert_ne; [done | lia].
  - apply live_find. exists n. split; [done | lia].
  - destruct (Get_promote s1 now1 now2 key (c0, p.2) n Hs1 Hp1 Hf)
      as (c0' & c1' & evs2 & -> & Hc0' & Hc1' & Hd & Hl); try lia.
    rewrite Hv. exists (with_shard s1 (shard_index s1 key) (c0', c1')), evs2, c0', c1'.
    split_and!; try done.
    + by apply with_shard_ok.
    + by eapply shard_with_shard.
Qed.

(** C5. [Set] writes into L1 only: the L2 list of the key's shard and all
    other shards are as before. A key that was not live in L2 is therefore
    live only in L1 after [Set], and after one [Get] of it before its
    expiry, which returns the value, it is live only in L2. (The expiry
    [Set] computes is the clock plus 9999999999999999 in [int64]; the
    hypotheses on it hold whenever that sum does not overflow and the
    clock of the [Get] has not reached it.) *)
Theorem Set_then_Get_moves_L1_to_L2 s now now1 now2 key value p :
  store_ok s →
  shard s (shard_index s key) = Some p →
  live p.2 key = false →
  0 < wrap_i64 (now + 9999999999999999) →
  now1 < wrap_i64 (now + 9999999999999999) →
  now2 < wrap_i64 (now + 9999999999999999) →
  ∃ s1 evs1 c0,
    Set_ s now key value = Some (s1, evs1)
    ∧ shard s1 (shard_index s key) = Some (c0, p.2)
    ∧ (∀ j, j ≠ shard_index s key → shard s1 j = shard s j)
    ∧ live c0 key = true ∧ live p.2 key = false
    ∧ ∃ s2 evs2 c0' c1',
        Get s1 now1 now2 key = Some (s2, (value, true), evs2)
        ∧ shard s2 (shard_index s key) = Some (c0', c1')
        ∧ live c0' key = false ∧ live c1' key = true.
Proof.
  intros Hs Hp Hfresh He Hn1 Hn2. unfold Set_.
  destruct (SetWithExpiration_then_Get s now now1 now2 key value
              9999999999999999 p Hs Hp)
    as (s1 & evs1 & c0 & Hset & _ & _ & Hsh & Hframe & Hlive
        & s2 & evs2 & c0' & c1' & Hget & _ & _ & Hsh2 & Hd & Hl); try done.
  eauto 20.
Qed.

(** ** Sequences of operations *)

(** No operation panics on a well-formed store; each changes the two lists
    of the shard of its key and nothing else. *)
Lemma apply_op_shape s (o : op V) :
  store_ok s →
  ∃ c0 c1 evs,
    apply_op s o = Some (with_shard s (shard_index s (op_key o)) (c0, c1), evs)
    ∧ cache_ok c0 ∧ cache_ok c1.
Proof.
  intros Hs. destruct (shard_of_key s (op_key o) Hs) as (p & Hp & H1 & H2).
  destruct o as [now now' key | now key value | now key value expiration | key];
    simpl in *.
  - destruct (Get_shape s now now' key Hs) as (c0 & c1 & r & evs & -> & Hc0 & Hc1).
    simpl. eauto 10.
  - unfold Set_.
    destruct (SetWithExpiration_spec s now key value 9999999999999999 p Hs Hp)
      as (c0 & evs & n & -> & Hc0 & _).
    eauto 10.
  - destruct (SetWithExpiration_spec s now key value expiration p Hs Hp)
      as (c0 & evs & n & -> & Hc0 & _).
    eauto 10.
  - unfold Delete.
    destruct (delete_spec s key (shard_index s key) p Hs Hp)
      as (c0 & c1 & -> & Hc0 & Hc1 & _).
    simpl. eauto 10.
Qed.

(** Well-formedness is an invariant of the store: whatever sequence of
    operations runs on a well-formed store, none panics and the store
    they leave is well-formed. *)
Lemma run_ops_ok s (ops : list (op V)) :
  store_ok s →
  ∃ s' evs, run_ops s ops = Some (s', evs) ∧ store_ok s' ∧ mask s' = mask s.
Proof.
  revert s. induction ops as [| o ops IH]; intros s Hs; simpl; [by eauto |].
  destruct (apply_op_shape s o Hs) as (c0 & c1 & evs1 & -> & Hc0 & Hc1). simpl.
  destruct (IH (with_shard s (shard_index s (op_key o)) (c0, c1)))
    as (s2 & evs2 & -> & Hs2 & Hm2); [by apply with_shard_ok |].
  simpl. eauto.
Qed.

(** Operations on keys of other shards leave shard [idx] as it is. *)
Lemma run_ops_other_shards s (ops : list (op V)) idx :
  store_ok s →
  Forall (λ o, shard_index s (op_key o) ≠ idx) ops →
  ∃ s' evs,
    run_ops s ops = Some (s', evs)
    ∧ store_ok s' ∧ mask s' = mask s ∧ shard s' idx = shard s idx.
Proof.
  revert s. induction ops as [| o ops IH]; intros s Hs Hall; simpl.
  - eauto 10.
  - apply Forall_cons in Hall as [Ho Hall].
    pose proof (shard_index_range s (op_key o) Hs) as Hr.
    destruct (apply_op_shape s o Hs) as (c0 & c1 & evs1 & -> & Hc0 & Hc1). simpl.
    destruct (IH (with_shard s (shard_index s (op_key o)) (c0, c1)))
      as (s2 & evs2 & -> & Hs2 & Hm2 & Hsh2); [by apply with_shard_ok | done |].
    simpl. do 2 eexists. split; [done |]. split_and!; [done | done |].
    rewrite Hsh2. unfold shard. simpl. case_decide; [| done].
    rewrite list_lookup_insert_ne; [done | lia].
Qed.

(** What was written with a positive expiration is read back before the
    expiry, whatever happened to keys of other shards in between. *)
Lemma SetWithExpiration_Get_roundtrip
    s now now1 now2 key value expiration (others : list (op V)) :
  store_ok s →
  0 < expiration →
  0 < wrap_i64 (now + expiration) →
  now1 < wrap_i64 (now + expiration) →
  now2 < wrap_i64 (now + expiration) →
  Forall (λ o, shard_index s (op_key o) ≠ shard_index s key) others →
  ∃ s1 evs1 s2 evs2 s3 evs3,
    SetWithExpiration s now key value expiration = Some (s1, evs1)
    ∧ run_ops s1 others = Some (s2, evs2)
    ∧ Get s2 now1 now2 key = Some (s3, (value, true), evs3).
Proof.
  intros Hs Hexp He Hn1 Hn2 Hothers.
  destruct (shard_of_key s key Hs) as (p & Hp & H1 & H2).
  destruct (SetWithExpiration_spec s now key value expiration p Hs Hp)
    as (c0 & evs & n & -> & Hc0 & Hf & Hv & Hen).
  rewrite decide_True in Hen by lia.
  set (s1 := with_shard s (shard_index s key) (c0, p.2)).
  assert (store_ok s1) as Hs1 by (by apply with_shard_ok).
  destruct (run_ops_other_shards s1 others (shard_index s key) Hs1)
    as (s2 & evs2 & Hrun & Hs2 & Hm2 & Hsh2); [done |].
  assert (shard s2 (shard_index s2 key) = Some (c0, p.2)) as Hp2.
  { unfold shard_index. rewrite Hm2. change (mask s1) with (mask s).
    change (Z.land (hashBKRD key) (mask s)) with (shard_index s key).
    rewrite Hsh2. by eapply shard_with_shard. }
  destruct (Get_promote s2 now1 now2 key (c0, p.2) n Hs2 Hp2 Hf)
    as (c0' & c1' & evs3 & Hget & _); try lia.
  rewrite Hv in Hget. eauto 10.
Qed.

(** The round trip on a well-formed store: [Set(k, v)] followed by
    [Get(k)] returns [(v, true)]; nothing any operation does in between
    to keys of other shards (insertions, promotions, evictions,
    deletions) changes that, and none of the calls panics. (The expiry [Set] computes is the clock plus 9999999999999999
    in [int64]; the hypotheses on it hold whenever that sum does not
    overflow and the clock of the [Get] has not reached it.) *)
Theorem Set_Get_roundtrip s now now1 now2 key value (others : list (op V)) :
  store_ok s →
  0 < wrap_i64 (now + 9999999999999999) →
  now1 < wrap_i64 (now + 9999999999999999) →
  now2 < wrap_i64 (now + 9999999999999999) →
  Forall (λ o, shard_index s (op_key o) ≠ shard_index s key) others →
  ∃ s1 evs1 s2 evs2 s3 evs3,
    Set_ s now key value = Some (s1, evs1)
    ∧ run_ops s1 others = Some (s2, evs2)
    ∧ Get s2 now1 now2 key = Some (s3, (value, true), evs3).
Proof.
  intros Hs He Hn1 Hn2 Hothers. unfold Set_.
  by apply SetWithExpiration_Get_roundtrip.
Qed.

(** After [Set], [Get], [Set] of one key, with no expiry reached, the key
    is live in both lists of its shard. *)
Lemma Set_Get_Set_live_in_both s now now1 now2 now3 key value value' :
  store_ok s →
  0 < wrap_i64 (now + 9999999999999999) →
  now1 < wrap_i64 (now + 9999999999999999) →
  now2 < wrap_i64 (now + 9999999999999999) →
  0 < wrap_i64 (now3 + 9999999999999999) →
  ∃ s1 evs1 s2 evs2 s3 evs3 p,
    Set_ s now key value = Some (s1, evs1)
    ∧ Get s1 now1 now2 key = Some (s2, (value, true), evs2)
    ∧ Set_ s2 now3 key value' = Some (s3, evs3)
    ∧ shard s3 (shard_index s3 key) = Some p
    ∧ live p.1 key = true ∧ live p.2 key = true.
Proof.
  intros Hs He Hn1 Hn2 He3. unfold Set_.
  destruct (shard_of_key s key Hs) as (p & Hp & _).
  destruct (SetWithExpiration_then_Get s now now1 now2 key value
              9999999999999999 p Hs Hp)
    as (s1 & evs1 & c0 & Hset & Hs1 & _ & _ & _ & _
        & s2 & evs2 & c0' & c1' & Hget & Hs2 & Hm2 & Hsh2 & _ & Hl2); try done.
  assert (shard_index s2 key = shard_index s key) as Hidx.
  { unfold shard_index. by rewrite Hm2. }
  rewrite <- Hidx in Hsh2.
  destruct (SetWithExpiration_spec s2 now3 key value' 9999999999999999 (c0', c1')
              Hs2 Hsh2) as (c0'' & evs3 & n & Hset3 & Hc0'' & Hf & Hv & Hen).
  rewrite decide_True in Hen by lia.
  exists s1, evs1, s2, evs2. do 2 eexists. exists (c0'', c1').
  split_and!; try done.
  - by eapply shard_with_shard.
  - apply live_find. exists n. split; [done | lia].
Qed.

End WithValue.


(** ** The example stores *)

Lemma one_slot_ok key val e : cache_ok (one_slot key val e).
Proof.
  constructor; simpl; try lia.
  - split_and!; [done | repeat constructor; simpl; lia |].
    intros _ p [= <-]. simpl. lia.
  - intros key' idx [_ <-]%lookup_singleton_Some. lia.
Qed.

Lemma full_list_ok ex : cache_ok (full_list ex).
Proof.
  constructor; simpl; try lia.
  - split_and!; [done | repeat constructor; simpl; lia |].
    intros _ p [= <-]. simpl. lia.
  - intros key' idx [[_ <-] | [_ [_ <-]%lookup_singleton_Some]]%lookup_insert_Some; lia.
Qed.

Lemma small_store_ok : store_ok small_store.
Proof. apply newLRU2Cache_ok; simpl; lia. Qed.

Lemma promoted_store_ok : store_ok promoted_store.
Proof.
  constructor; simpl; try lia.
  apply Forall_cons. split; [split; apply Create_ok; lia |].
  apply Forall_cons. split; [split; apply one_slot_ok | apply Forall_nil_2].
Qed.

Lemma twice_store_ok : store_ok twice_store.
Proof.
  constructor; simpl; try lia.
  apply Forall_cons. split; [split; apply Create_ok; lia |].
  apply Forall_cons. split; [split; apply one_slot_ok | apply Forall_nil_2].
Qed.

(** The example stores are states the operations reach. *)
Example promoted_store_reached :
  ('(s1, _) ← SetWithExpiration small_store 0 "a" (Some 7) 5; Get s1 1 1 "a")
  = Some (promoted_store, (Some 7, true), []).
Proof. vm_compute. reflexivity. Qed.

Example full_list_reached ex :
  ('(c1, _, _) ← put (Create 2) "x" (Some 1) ex true; put c1 "y" (Some 2) 9 true)
  = Some (full_list ex, 1, []).
Proof. vm_compute. reflexivity. Qed.

(** The two scenarios of the specification, run on the embedding. A list
    of capacity 2 after [put] of a, b, c: a is evicted with one callback
    and [walk] visits c, then b. *)
Example scenario_list_of_two :
  ('(c1, _, e1) ← put (Create 2) "a" (Some 1) 5 true;
   '(c2, _, e2) ← put c1 "b" (Some 2) 5 true;
   '(c3, _, e3) ← put c2 "c" (Some 3) 5 true;
   keys ← walk 2 c3 keys_walker [];
   Some (e1 ++ e2 ++ e3, keys))
  = Some ([("a", Some 1)], ["c"; "b"]).
Proof. vm_compute. reflexivity. Qed.

(** A store with L1 = L2 = 1: set a; get a (promoted); set b; get a (found
    in L2); get b (promoted, evicting a from L2 with one callback). *)
Example scenario_two_tiers :
  ('(s1, e1) ← Set_ (newLRU2Cache one_shard_opts) 0 "a" (Some 1);
   '(s2, r2, e2) ← Get s1 0 0 "a";
   '(s3, e3) ← Set_ s2 0 "b" (Some 2);
   '(s4, r4, e4) ← Get s3 0 0 "a";
   '(s5, r5, e5) ← Get s4 0 0 "b";
   p ← shard s5 0;
   Some (r2, r4, r5, e1 ++ e2 ++ e3 ++ e4, e5,
         live p.1 "a", live p.2 "a", live p.1 "b", live p.2 "b"))
  = Some ((Some 1, true), (Some 1, true), (Some 2, true), [], [("a", Some 1)],
          false, false, false, true).
Proof. vm_compute. reflexivity. Qed.

(** ** [walk] and [Len] with more fuel *)

Lemma walk_from_mono {V A : Type} (c : cache V) (w : string → Value V → Z → A → A * bool)
    fuel fuel' idx acc r :
  walk_from fuel c idx w acc = Some r → (fuel ≤ fuel')%nat →
  walk_from fuel' c idx w acc = Some r.
Proof.
  revert fuel' idx acc. induction fuel as [| fuel IH]; intros fuel' idx acc Hw Hle.
  - simpl in Hw. case_decide; [| done].
    destruct fuel'; simpl; by rewrite decide_True.
  - destruct fuel' as [| fuel']; [lia |]. simpl in *.
    case_decide; [done |].
    destruct (m c !! slot idx) as [n |]; [| done]. simpl in *.
    destruct (if decide (0 < expireAt n) then w (k n) (v n) (expireAt n) acc
              else (acc, true)) as [acc' go_on].
    destruct go_on; [| done].
    destruct (rd (dlnk c) idx next) as [idx' |]; [| done]. simpl in *.
    apply IH; [done | lia].
Qed.

Lemma walk_mono {V A : Type} (c : cache V) (w : string → Value V → Z → A → A * bool)
    fuel fuel' acc r :
  walk fuel c w acc = Some r → (fuel ≤ fuel')%nat → walk fuel' c w acc = Some r.
Proof.
  unfold walk. destruct (rd (dlnk c) 0 next) as [idx |]; [| done]. simpl.
  apply walk_from_mono.
Qed.

Lemma Len_from_mono {V : Type} (cs : list (cache V * cache V)) fuel fuel' count r :
  Len_from fuel cs count = Some r → (fuel ≤ fuel')%nat →
  Len_from fuel' cs count = Some r.
Proof.
  revert count. induction cs as [| p cs IH]; intros count Hlen Hle; [done |].
  simpl in *.
  destruct (walk fuel p.1 count_walker count) as [n0 |] eqn:E0; [| done].
  rewrite (walk_mono _ _ _ _ _ _ E0 Hle). simpl in *.
  destruct (walk fuel p.2 count_walker n0) as [n1 |] eqn:E1; [| done].
  rewrite (walk_mono _ _ _ _ _ _ E1 Hle). simpl in *.
  by apply IH.
Qed.

(** C10. On the store of two shards with one slot per tier, the sequence
    [Set("k", 1)], [Get("k")], [Set("k", 2)], all at the same clock
    reading, ends in a state where ["k"] is live in the L1 list and in the
    L2 list of its shard, no other key is mapped anywhere, and [Len]
    returns 2 (for every bound of at least one iteration per list). *)
Theorem Len_counts_key_live_in_both_tiers_twice :
  ∃ s1 s2 : lru2Store Z,
    Set_ small_store 0 "k" (Some 1) = Some (s1, [])
    ∧ Get s1 0 0 "k" = Some (s2, (Some 1, true), [])
    ∧ Set_ s2 0 "k" (Some 2) = Some (twice_store, [])
    ∧ (∃ p, shard twice_store (shard_index twice_store "k") = Some p
            ∧ live p.1 "k" = true ∧ live p.2 "k" = true)
    ∧ Forall (λ p, ∀ key, key ≠ "k" →
                hmap p.1 !! key = None ∧ hmap p.2 !! key = None)
        (caches twice_store)
    ∧ ∀ fuel, (1 ≤ fuel)%nat → Len fuel twice_store = Some 2.
Proof.
  exists (with_shard small_store 1 (one_slot "k" (Some 1) 9999999999999999, Create 1)),
         (with_shard small_store 1
            (one_slot "k" (Some 1) 0, one_slot "k" (Some 1) 9999999999999999)).
  split_and!.
  - vm_compute. reflexivity.
  - vm_compute. reflexivity.
  - vm_compute. reflexivity.
  - eexists. split; [reflexivity |]. split; reflexivity.
  - apply Forall_cons. split.
    { intros key _. simpl. by rewrite lookup_empty. }
    apply Forall_cons. split; [| apply Forall_nil_2].
    intros key Hne. simpl. by rewrite lookup_singleton_ne.
  - intros fuel Hfuel. unfold Len.
    apply (Len_from_mono _ 1%nat); [| done]. vm_compute. reflexivity.
Qed.

(** ** The clock *)

(** C4 (what the code does where the claim fails). The goroutine that
    [init] starts sets the clock to the real time once, adds 100ms nine
    times and returns. From 900ms after the start on, whatever time has
    passed, [Now()] is the start time plus 900ms: the clock no longer
    moves, and it is never set from the real time again. *)
Theorem clock_stops_after_900ms t0 elapsed :
  0 ≤ t0 →
  t0 + 900000000 < 9223372036854775808 →
  900000000 ≤ elapsed →
  Now (process_after t0 elapsed) = t0 + 900000000
  ∧ wall (process_after t0 elapsed) = t0 + elapsed.
Proof.
  intros H0 Hmax He. unfold process_after, init_task, Now, ms100. simpl.
  unfold ms100.
  repeat (rewrite decide_True by lia; simpl).
  repeat match goal with
         | |- context [wrap_i64 ?x] => rewrite (wrap_i64_small x) by lia
         end.
  case_decide; simpl; split; lia.
Qed.

(** ** The theorems at concrete inputs *)

(** C7 on the full two-slot list whose tail ["x"] is live: the callback
    receives ["x"] and its value. *)
Lemma put_full_evicts_live_tail_only_witness :
  cache_ok (full_list 5)
  ∧ ∃ c', put (full_list 5) "z" (Some 3) 7 true = Some (c', 1, [("x", Some 1)]).
Proof.
  split; [apply full_list_ok |].
  destruct (put_full_evicts_live_tail_only (full_list 5) "z" (Some 3) 7 true)
    as (t & tail & c' & Ht & Htail & Hput & _).
  - apply full_list_ok.
  - reflexivity.
  - reflexivity.
  - vm_compute in Ht. injection Ht as <-.
    vm_compute in Htail. injection Htail as <-.
    exists c'. exact Hput.
Defined.

(** C2 on the fresh two-shard store: an expiration of zero leaves ["a"]
    unreadable. *)
Lemma SetWithExpiration_nonpositive_stores_tombstone_witness :
  store_ok small_store
  ∧ ∃ s' evs, SetWithExpiration small_store 0 "a" (Some 7) 0 = Some (s', evs)
      ∧ ∃ s'', Get s' 1 1 "a" = Some (s'', (None, false), []).
Proof.
  split; [apply small_store_ok |].
  destruct (SetWithExpiration_nonpositive_stores_tombstone
              small_store 0 "a" (Some 7) 0 (Create 1, Create 1))
    as (s' & evs & c0 & n & Hset & _ & _ & _ & _ & _ & Hget).
  - apply small_store_ok.
  - reflexivity.
  - lia.
  - exists s', evs. split; [exact Hset |]. apply Hget. reflexivity.
Defined.

(** C6 on the store where ["a"] is live in L2 only. *)
Lemma Delete_result_and_callback_witness :
  store_ok promoted_store
  ∧ ∃ s', Delete promoted_store "a" = Some (s', true, [("a", Some 7)]).
Proof.
  split; [apply promoted_store_ok |].
  destruct (Delete_result_and_callback promoted_store "a"
              (one_slot "a" (Some 7) 0, one_slot "a" (Some 7) 5))
    as (s' & b & evs & p' & Hdel & Hb & _ & _ & _ & Hev & _).
  - apply promoted_store_ok.
  - reflexivity.
  - exists s'. rewrite Hdel.
    rewrite (Hev eq_refl eq_refl 7 eq_refl).
    destruct b; [reflexivity |].
    destruct Hb as [_ Hb]. discriminate (Hb (or_intror eq_refl)).
Defined.

(** C3 on the store where ["a"] is live in L2 with expiry 5, read at
    clock 10. *)
Lemma Get_expired_in_L2_is_not_deleted_witness :
  store_ok promoted_store
  ∧ ∃ s' c1,
      Get promoted_store 10 10 "a" = Some (s', (None, false), [])
      ∧ shard s' 1 = Some (one_slot "a" (Some 7) 0, c1)
      ∧ live c1 "a" = true.
Proof.
  split; [apply promoted_store_ok |].
  destruct (Get_expired_in_L2_is_not_deleted promoted_store 10 10 "a"
              (one_slot "a" (Some 7) 0, one_slot "a" (Some 7) 5)
              {| k := "a"; v := Some 7; expireAt := 5 |})
    as (s' & c1 & Hget & Hsh & _ & _ & _ & Hlive).
  - apply promoted_store_ok.
  - reflexivity.
  - reflexivity.
  - reflexivity.
  - simpl. lia.
  - simpl. lia.
  - exists s', c1. split; [exact Hget |]. split; [exact Hsh | exact Hlive].
Defined.

(** C5 on the fresh two-shard store. *)
Lemma Set_then_Get_moves_L1_to_L2_witness :
  store_ok small_store
  ∧ ∃ s1 evs1 s2 evs2,
      Set_ small_store 0 "a" (Some 7) = Some (s1, evs1)
      ∧ Get s1 0 0 "a" = Some (s2, (Some 7, true), evs2).
Proof.
  split; [apply small_store_ok |].
  destruct (Set_then_Get_moves_L1_to_L2 small_store 0 0 0 "a" (Some 7)
              (Create 1, Create 1))
    as (s1 & evs1 & c0 & Hset & _ & _ & _ & _ & s2 & evs2 & _ & _ & Hget & _).
  - apply small_store_ok.
  - reflexivity.
  - reflexivity.
  - vm_compute. reflexivity.
  - vm_compute. reflexivity.
  - vm_compute. reflexivity.
  - exists s1, evs1, s2, evs2. split; [exact Hset | exact Hget].
Defined.

(** The round trip on the fresh two-shard store, with an insertion and a
    promotion of ["b"] (shard 0) between the [Set] and the [Get] of ["a"]
    (shard 1). *)
Lemma Set_Get_roundtrip_witness :
  store_ok small_store
  ∧ ∃ s1 evs1 s2 evs2 s3 evs3,
      Set_ small_store 0 "a" (Some 7) = Some (s1, evs1)
      ∧ run_ops s1 [OpSet 0 "b" (Some 1); OpGet 0 0 "b"] = Some (s2, evs2)
      ∧ Get s2 0 0 "a" = Some (s3, (Some 7, true), evs3).
Proof.
  split; [apply small_store_ok |].
  apply (Set_Get_roundtrip small_store 0 0 0 "a" (Some 7)
           [OpSet 0 "b" (Some 1); OpGet 0 0 "b"]).
  - apply small_store_ok.
  - vm_compute. reflexivity.
  - vm_compute. reflexivity.
  - vm_compute. reflexivity.
  - apply Forall_cons. split; [vm_compute; discriminate |].
    apply Forall_cons. split; [vm_compute; discriminate | apply Forall_nil_2].
Defined.

(** C4 five seconds after the start, at a start time of the year 2026. *)
Lemma clock_stops_after_900ms_witness :
  Now (process_after 1793318400000000000 5000000000) = 1793318400900000000
  ∧ wall (process_after 1793318400000000000 5000000000) = 1793318405000000000.
Proof.
  apply (clock_stops_after_900ms 1793318400000000000 5000000000); lia.
Defined.

(** C6 as first stated fails: a live entry whose value is nil is deleted
    ([Delete] returns true) without the installed callback being invoked. *)
Lemma Delete_of_nil_value_skips_callback :
  ∃ s1 s2 : lru2Store Z,
    Set_ small_store 0 "a" None = Some (s1, [])
    ∧ onEvicted s1 = true
    ∧ (∃ p, shard s1 (shard_index s1 "a") = Some p ∧ live p.1 "a" = true)
    ∧ Delete s1 "a" = Some (s2, true, []).
Proof.
  exists (with_shard small_store 1 (one_slot "a" None 9999999999999999, Create 1)),
         (with_shard small_store 1 (one_slot "a" None 0, Create 1)).
  split_and!.
  - vm_compute. reflexivity.
  - reflexivity.
  - eexists. split; [reflexivity |]. reflexivity.
  - vm_compute. reflexivity.
Qed.

End StoreSpec.

(** * Properties of package [singleflight] *)

Module SingleflightSpec.
Import Singleflight.

Section WithResult.
Context {R W : Type}.
Implicit Types (s : shared R W) (t : thread R W) (fn : compute R W).

Lemma lookup_new_call (cs : list (call R)) (x : call R) :
  (cs ++ [x]) !! length cs = Some x.
Proof. by apply list_lookup_middle. Qed.

Lemma run_alone_step (step : thread R W → shared R W → option (thread R W * shared R W))
    fuel t s t' s' :
  finished t = false → step t s = Some (t', s') →
  run_alone step (S fuel) t s = run_alone step fuel t' s'.
Proof. intros Hf Hs. simpl. by rewrite Hf, Hs. Qed.

Lemma run_alone_finished (step : thread R W → shared R W → option (thread R W * shared R W))
    fuel t s r :
  finished t = true → result t = Some r → run_alone step fuel t s = Some (r, s).
Proof. intros Hf Hr. destruct fuel; simpl; by rewrite Hf, Hr. Qed.

(** The next step of a call that runs alone, [tac] rewriting the lookups
    the step makes. *)
Ltac alone_step tac :=
  erewrite run_alone_step;
  [| reflexivity
   | unfold step_Do, step_DoV2, step_wait, run_fn, wg_done, new_call,
       at_pc, with_c, returning, with_table, with_calls; simpl;
     tac; reflexivity].

(** One call with nobody else moving, for a key that is not registered:
    [fn] runs once on the outside state, its pair of results is what the
    call returns, and the table is as before. *)
Lemma call_alone_spec ver s key fn fuel :
  table s !! key = None → (7 ≤ fuel)%nat →
  ∃ s1,
    call_alone ver fuel s key fn = Some ((fn (world s)).2, s1)
    ∧ table s1 = table s
    ∧ world s1 = (fn (world s)).1
    ∧ runs s1 = S (runs s).
Proof.
  intros Hk Hfuel.
  do 7 (destruct fuel as [| fuel]; [lia |]).
  destruct (fn (world s)) as [w' [r e]] eqn:Hfn.
  assert (∀ x : call R, (length (calls s) < length (calls s ++ [x]))%nat) as Hlen.
  { intros x. rewrite length_app. simpl. lia. }
  destruct ver; unfold call_alone, Do, DoV2, enter_Do, enter_DoV2.
  - alone_step ltac:(rewrite Hk).
    alone_step idtac.
    alone_step idtac.
    alone_step ltac:(rewrite lookup_new_call; simpl; rewrite Hfn).
    alone_step ltac:(rewrite list_lookup_insert_eq by apply Hlen; simpl).
    alone_step idtac.
    alone_step ltac:(rewrite list_insert_insert_eq,
                       list_lookup_insert_eq by apply Hlen; simpl).
    rewrite (run_alone_finished _ _ _ _ (r, e)) by reflexivity.
    eexists. split; [reflexivity |]. simpl.
    split_and!; try done. by apply delete_insert_id.
  - alone_step idtac.
    alone_step ltac:(rewrite Hk).
    alone_step ltac:(rewrite lookup_new_call; simpl; rewrite Hfn).
    alone_step ltac:(rewrite list_lookup_insert_eq by apply Hlen; simpl).
    alone_step idtac.
    alone_step ltac:(rewrite list_lookup_insert_eq by apply Hlen; simpl).
    rewrite (run_alone_finished _ _ _ _ (r, e)) by reflexivity.
    eexists. split; [reflexivity |]. simpl.
    split_and!; try done. by apply delete_insert_id.
Qed.

(** C8. A call of [Do], or of [DoV2], for a key with no call in flight
    returns exactly the value and the error its [fn] produced, whatever
    they are, and leaves the key unregistered; a later call for the same
    key therefore runs its own [fn] again, on the state the first one left,
    and returns that result. *)
Theorem call_returns_result_and_unregisters ver s key fn fn' fuel :
  table s !! key = None →
  (7 ≤ fuel)%nat →
  ∃ s1 s2,
    call_alone ver fuel s key fn = Some ((fn (world s)).2, s1)
    ∧ table s1 !! key = None
    ∧ world s1 = (fn (world s)).1
    ∧ runs s1 = S (runs s)
    ∧ call_alone ver fuel s1 key fn' = Some ((fn' (world s1)).2, s2)
    ∧ table s2 !! key = None
    ∧ runs s2 = S (S (runs s)).
Proof.
  intros Hk Hfuel.
  destruct (call_alone_spec ver s key fn fuel Hk Hfuel) as (s1 & H1 & Ht1 & Hw1 & Hr1).
  assert (table s1 !! key = None) as Hk1 by (by rewrite Ht1).
  destruct (call_alone_spec ver s1 key fn' fuel Hk1 Hfuel)
    as (s2 & H2 & Ht2 & Hw2 & Hr2).
  exists s1, s2. split_and!; try done.
  - by rewrite Ht2.
  - by rewrite Hr2, Hr1.
Qed.

(** ** At most one execution at a time: [DoV2] *)

(** What a step of [DoV2] does to the registration of its goroutine: it
    leaves it alone, or it registers a key that was not registered, or it
    removes the registration of an executor. *)
Lemma step_DoV2_cases t s t' s' :
  step_DoV2 t s = Some (t', s') →
  key t' = key t
  ∧ ((executes t' = executes t ∧ table s' = table s)
     ∨ (executes t = false ∧ executes t' = true
        ∧ table s !! key t = None ∧ table s' = <[key t := c t]> (table s))
     ∨ (executes t = true ∧ executes t' = false
        ∧ table s' = base.delete (key t) (table s))).
Proof.
  unfold step_DoV2, step_wait, run_fn, wg_done, new_call, executes.
  destruct t as [k f l a res]. simpl.
  destruct l; simpl; intros Hstep; simplify_option_eq; simpl; try by auto.
  - destruct (table s !! k) eqn:Hk; simplify_eq/=; auto 10.
  - destruct (f (world s)) as [w' [r e]]. simplify_eq/=. auto.
  - auto 10.
Qed.

Lemma exclusive_step tid (st : sys R W) :
  exclusive st → exclusive (sched_step step_DoV2 tid st).
Proof.
  intros [HA HB]. destruct st as [ts s]. unfold sched_step. simpl in *.
  destruct (ts !! tid) as [t |] eqn:Ht; [| done].
  destruct (step_DoV2 t s) as [[t' s'] |] eqn:Hstep; [| done].
  destruct (step_DoV2_cases _ _ _ _ Hstep) as [Hkey Hcases].
  assert (∀ i x, <[tid := t']> ts !! i = Some x →
          (i = tid ∧ x = t') ∨ (i ≠ tid ∧ ts !! i = Some x)) as Hlk.
  { intros i x Hx. destruct (decide (i = tid)) as [-> | Hne].
    - rewrite list_lookup_insert_eq in Hx by (by eapply lookup_lt_Some).
      left. by simplify_eq.
    - rewrite list_lookup_insert_ne in Hx by done. by right. }
  split; simpl.
  - intros i x Hx Hex. apply Hlk in Hx as [[-> ->] | [Hne Hx]].
    + rewrite Hkey.
      destruct Hcases as [[He ->] | [(_ & _ & _ & ->) | (_ & He & _)]].
      * apply (HA tid t Ht). by rewrite <- He.
      * rewrite lookup_insert_eq. by eexists.
      * congruence.
    + pose proof (HA i x Hx Hex) as Hsome.
      destruct Hcases as [[_ ->] | [(_ & _ & _ & ->) | (He & _ & ->)]].
      * done.
      * rewrite lookup_insert. case_decide; [by eexists | done].
      * rewrite lookup_delete_ne; [done |].
        intros Hk. apply Hne. by apply (HB i tid x t Hx Ht Hex He).
  - intros i j x y Hx Hy Hex Hey Hk.
    apply Hlk in Hx as [[-> ->] | [Hni Hx]]; apply Hlk in Hy as [[-> ->] | [Hnj Hy]].
    + done.
    + rewrite Hkey in Hk.
      destruct Hcases as [[He _] | [(_ & _ & Hnone & _) | (_ & He & _)]].
      * apply (HB tid j t y Ht Hy); [by rewrite <- He | done | done].
      * destruct (HA j y Hy Hey) as [? Hs]. rewrite <- Hk in Hs. congruence.
      * congruence.
    + rewrite Hkey in Hk.
      destruct Hcases as [[He _] | [(_ & _ & Hnone & _) | (_ & He & _)]].
      * apply (HB i tid x t Hx Ht); [done | by rewrite <- He | done].
      * destruct (HA i x Hx Hex) as [? Hs]. rewrite Hk in Hs. congruence.
      * congruence.
    + by apply (HB i j x y).
Qed.

(** Whatever the schedule, callers of [DoV2] never have two executors of
    one key at the same time. *)
Lemma DoV2_exclusive schedule (st : sys R W) :
  exclusive st → exclusive (run_sched step_DoV2 schedule st).
Proof.
  revert st. induction schedule as [| tid schedule IH]; intros st Hst; [done |].
  simpl. apply IH. by apply exclusive_step.
Qed.

Lemma exclusive_at_start (ts : list (thread R W)) s :
  Forall (λ t, executes t = false) ts → exclusive (ts, s).
Proof.
  intros Hall. rewrite Forall_lookup in Hall. split; simpl.
  - intros i t Ht Hex. specialize (Hall _ _ Ht). simpl in Hall. congruence.
  - intros i j ti tj Hi _ Hex. specialize (Hall _ _ Hi). simpl in Hall. congruence.
Qed.

(** Any number of callers of [DoV2], any keys, any computations, any state
    of the group that has no executor of its own, any schedule: two
    goroutines that stand between their registration and its removal at the
    same time have different keys. *)
Lemma DoV2_one_executor_per_key
    (callers : list (string * compute R W)) s schedule i j ti tj :
  let st := run_sched step_DoV2 schedule
              (map (λ kf, enter_DoV2 kf.1 kf.2) callers, s) in
  st.1 !! i = Some ti → st.1 !! j = Some tj →
  executes ti = true → executes tj = true → i ≠ j →
  key ti ≠ key tj.
Proof.
  intros st Hi Hj Hei Hej Hne Hk.
  assert (exclusive st) as [_ HB].
  { apply DoV2_exclusive, exclusive_at_start.
    apply Forall_forall. intros t [kf [-> _]]%list_elem_of_fmap. done. }
  apply Hne. by apply (HB i j ti tj).
Qed.

End WithResult.


(** ** The theorems at concrete inputs *)

(** C8 on the idle group with the counting computation: the first call
    returns 1, the second runs the computation again and returns 2. *)
Lemma call_returns_result_and_unregisters_witness :
  ∃ s1 s2,
    call_alone OfDoV2 7 (idle 0) "k" count_up = Some ((Some 1, None), s1)
    ∧ call_alone OfDoV2 7 s1 "k" count_up = Some ((Some 2, None), s2)
    ∧ runs s2 = 2%nat.
Proof.
  destruct (call_returns_result_and_unregisters OfDoV2 (idle 0) "k"
              count_up count_up 7)
    as (s1 & s2 & H1 & _ & Hw & _ & H2 & _ & Hr).
  - reflexivity.
  - lia.
  - exists s1, s2. rewrite H1, H2, Hw. split; [reflexivity |].
    split; [reflexivity | exact Hr].
Defined.

(** C1 (what the code does where the claim fails). Two goroutines call
    [Do] with the same key on an idle group and move in turns. Both execute
    [Load] before either executes [Store], both find the key absent, both
    register and stand before [fn] at the same time, and both run it: the
    counter is incremented twice and the two callers return different
    pairs. Under the same schedule [DoV2] runs [fn] once and both callers
    return the pair of that run. *)
Theorem Do_race_runs_fn_twice :
  let callers enter := ([enter "k" count_up; enter "k" count_up], idle 0) in
  let after_Do := run_sched step_Do in_turns (callers enter_Do) in
  let after_DoV2 := run_sched step_DoV2 in_turns (callers enter_DoV2) in
  map pc (run_sched step_Do [0; 1]%nat (callers enter_Do)).1 = [dNew; dNew]
  ∧ map pc (run_sched step_Do [0; 1; 0; 1; 0; 1]%nat (callers enter_Do)).1
    = [dFn; dFn]
  ∧ map pc after_Do.1 = [Finished; Finished]
  ∧ runs after_Do.2 = 2%nat
  ∧ world after_Do.2 = 2
  ∧ map result after_Do.1 = [Some (Some 1, None); Some (Some 2, None)]
  ∧ map pc after_DoV2.1 = [Finished; Finished]
  ∧ runs after_DoV2.2 = 1%nat
  ∧ world after_DoV2.2 = 1
  ∧ map result after_DoV2.1 = [Some (Some 1, None); Some (Some 1, None)].
Proof. vm_compute. repeat split. Qed.

(** ** Executors of [DoV2] under any schedule *)

(** X25. Callers of [DoV2], any number of them with any keys and
    computations, started on any state of the group and run under any
    schedule: at every moment each goroutine that stands between its
    [LoadOrStore] and the removal of its registration has its key
    registered in the map, and no two such goroutines have the same
    key. *)
Theorem DoV2_every_executor_owns_its_key {R W : Type}
    (callers : list (string * compute R W)) (s : shared R W) (schedule : list nat) :
  let st := run_sched step_DoV2 schedule
              (map (λ kf, enter_DoV2 kf.1 kf.2) callers, s) in
  (∀ i t, st.1 !! i = Some t → executes t = true → is_Some (table st.2 !! key t))
  ∧ (∀ i j ti tj,
       st.1 !! i = Some ti → st.1 !! j = Some tj →
       executes ti = true → executes tj = true → key ti = key tj → i = j).
Proof.
  intros st. apply DoV2_exclusive, exclusive_at_start.
  apply Forall_forall. intros t [kf [-> _]]%list_elem_of_fmap. done.
Qed.

(** ** The result of a call in flight *)

Section Flights.
Context {R W : Type}.
Implicit Types (s : shared R W) (t : thread R W).

Lemma flights_ok_step tid (st : sys R W) :
  flights_ok st → flights_ok (sched_step step_DoV2 tid st).
Proof.
  intros [HD HO HC HS HR]. destruct st as [ts s]. unfold sched_step. simpl in *.
  destruct (ts !! tid) as [t |] eqn:Ht; [| by constructor].
  destruct (step_DoV2 t s) as [[t' s'] |] eqn:Hstep; [| by constructor].
  assert (∀ i x, <[tid := t']> ts !! i = Some x →
          (i = tid ∧ x = t') ∨ (i ≠ tid ∧ ts !! i = Some x)) as Hlk.
  { intros i x Hx. destruct (decide (i = tid)) as [-> | Hne].
    - rewrite list_lookup_insert_eq in Hx by (by eapply lookup_lt_Some).
      left. by simplify_eq.
    - rewrite list_lookup_insert_ne in Hx by done. by right. }
  (* the other goroutines that hold, or have read, a call do so at
     another address than a goroutine that owns its call *)
  assert (owns t = true → ∀ i x, i ≠ tid → ts !! i = Some x →
          owns x = true ∨ past_wait x = true ∨ is_Some (result x) →
          c x ≠ c t) as Hother.
  { intros Hot i x Hne Hx Hcase Hc.
    destruct (HO tid t Ht Hot) as (cl & Hcl & Hwg).
    assert (owns x = true ∨ past_wait x = true) as [Hox | Hwx].
    { destruct Hcase as [? | [? | Hres]]; [by left | by right |].
      apply (HS i x Hx) in Hres. unfold returned, owns, past_wait in *.
      destruct (pc x); auto; done. }
    - apply Hne. by apply (HD i tid x t).
    - destruct (HC i x Hx Hwx) as (cl' & Hcl' & Hwg'). rewrite Hc in Hcl'.
      simplify_eq. lia. }
  unfold step_DoV2, step_wait in Hstep.
  destruct t as [k f l a res]. simpl in *.
  destruct l; simpl in Hstep; try done.
  - (* vNew *)
    unfold new_call in Hstep. simplify_eq/=.
    assert (∀ i x, ts !! i = Some x → ∀ cl, calls s !! c x = Some cl →
            (calls s ++ [{| wg := 1; val := None; err := None |}]) !! c x = Some cl)
      as Hkeep.
    { intros i x Hx cl Hcl. by apply lookup_app_l_Some. }
    constructor; simpl.
    + intros i j ti tj Hi Hj Hoi Hoj Hc.
      apply Hlk in Hi as [[-> ->] | [Hni Hi]]; apply Hlk in Hj as [[-> ->] | [Hnj Hj]];
        try done.
      * simpl in Hc. destruct (HO j tj Hj Hoj) as (cl & Hcl & _).
        apply lookup_lt_Some in Hcl. lia.
      * simpl in Hc. destruct (HO i ti Hi Hoi) as (cl & Hcl & _).
        apply lookup_lt_Some in Hcl. lia.
      * by apply (HD i j ti tj).
    + intros i x Hx Hox. apply Hlk in Hx as [[-> ->] | [Hni Hx]].
      * simpl. exists {| wg := 1; val := None; err := None |}. split; [| done].
        by apply list_lookup_middle.
      * destruct (HO i x Hx Hox) as (cl & Hcl & Hwg). eauto.
    + intros i x Hx Hwx. apply Hlk in Hx as [[-> ->] | [Hni Hx]]; [done |].
      destruct (HC i x Hx Hwx) as (cl & Hcl & Hwg). eauto.
    + intros i x Hx. apply Hlk in Hx as [[-> ->] | [Hni Hx]].
      * simpl. rewrite <- (HS tid _ Ht). done.
      * by apply (HS i x).
    + intros i x r Hx Hres. apply Hlk in Hx as [[-> ->] | [Hni Hx]].
      * simpl in Hres. assert (is_Some (Some r)) as Hs by eauto.
        rewrite <- Hres in Hs. apply (HS tid _ Ht) in Hs. done.
      * destruct (HR i x r Hx Hres) as (cl & Hcl & Hr). eauto.
  - (* vLoadOrStore *)
    assert (calls s' = calls s ∧ pc t' ≠ vNew
            ∧ ((pc t' = wWait ∧ result t' = res) ∨ (t' = {| key := k; fn := f; pc := vFn; c := a; result := res |})))
      as (Hcalls & _ & Ht').
    { destruct (table s !! k); simplify_eq/=; split_and!; auto. }
    clear Hstep. constructor; simpl; rewrite ?Hcalls.
    + intros i j ti tj Hi Hj Hoi Hoj Hc.
      apply Hlk in Hi as [[-> ->] | [Hni Hi]]; apply Hlk in Hj as [[-> ->] | [Hnj Hj]];
        try done.
      * destruct Ht' as [[Hpc _] | ->]; [unfold owns in Hoi; by rewrite Hpc in Hoi |].
        by apply (HD tid j _ tj Ht Hj).
      * destruct Ht' as [[Hpc _] | ->]; [unfold owns in Hoj; by rewrite Hpc in Hoj |].
        by apply (HD i tid ti _ Hi Ht).
      * by apply (HD i j ti tj).
    + intros i x Hx Hox. apply Hlk in Hx as [[-> ->] | [Hni Hx]].
      * destruct Ht' as [[Hpc _] | ->]; [unfold owns in Hox; by rewrite Hpc in Hox |].
        by apply (HO tid _ Ht).
      * by apply (HO i x).
    + intros i x Hx Hwx. apply Hlk in Hx as [[-> ->] | [Hni Hx]].
      * destruct Ht' as [[Hpc _] | ->]; [unfold past_wait in Hwx; by rewrite Hpc in Hwx | done].
      * by apply (HC i x).
    + intros i x Hx. apply Hlk in Hx as [[-> ->] | [Hni Hx]]; [| by apply (HS i x)].
      pose proof (HS tid _ Ht) as Hold. simpl in Hold.
      destruct Ht' as [[Hpc Hres] | ->]; [| done].
      unfold returned. rewrite Hpc, Hres. rewrite <- Hold. done.
    + intros i x r Hx Hres. apply Hlk in Hx as [[-> ->] | [Hni Hx]];
        [| by apply (HR i x)].
      pose proof (HS tid _ Ht) as Hold. simpl in Hold.
      destruct Ht' as [[Hpc Hres'] | ->].
      * rewrite Hres' in Hres. assert (is_Some res) as Hs by (rewrite Hres; eauto).
        apply Hold in Hs. done.
      * simpl in Hres. assert (is_Some res) as Hs by (rewrite Hres; eauto).
        apply Hold in Hs. done.
  - (* vFn *)
    unfold run_fn in Hstep. simpl in Hstep.
    destruct (calls s !! a) as [cl |] eqn:Hcl; [| done]. simpl in Hstep.
    destruct (f (world s)) as [w' [r e]]. simplify_eq/=.
    specialize (Hother eq_refl). simpl in Hother.
    destruct (HO tid _ Ht eq_refl) as (cl0 & Hcl0 & Hwg). simpl in Hcl0.
    assert (cl0 = cl) as -> by congruence.
    constructor; simpl.
    + intros i j ti tj Hi Hj Hoi Hoj Hc.
      apply Hlk in Hi as [[-> ->] | [Hni Hi]]; apply Hlk in Hj as [[-> ->] | [Hnj Hj]];
        try done.
      * by apply (HD tid j _ tj Ht Hj).
      * by apply (HD i tid ti _ Hi Ht).
      * by apply (HD i j ti tj).
    + intros i x Hx Hox. apply Hlk in Hx as [[-> ->] | [Hni Hx]].
      * simpl. rewrite list_lookup_insert_eq by (by eapply lookup_lt_Some). eauto.
      * rewrite list_lookup_insert_ne by (symmetry; eapply Hother; eauto).
        by apply (HO i x).
    + intros i x Hx Hwx. apply Hlk in Hx as [[-> ->] | [Hni Hx]]; [done |].
      rewrite list_lookup_insert_ne by (symmetry; eapply Hother; eauto).
      by apply (HC i x).
    + intros i x Hx. apply Hlk in Hx as [[-> ->] | [Hni Hx]]; [| by apply (HS i x)].
      pose proof (HS tid _ Ht) as Hold. simpl in *. rewrite <- Hold. done.
    + intros i x r0 Hx Hres. apply Hlk in Hx as [[-> ->] | [Hni Hx]].
      * simpl in Hres. assert (is_Some res) as Hs by (rewrite Hres; eauto).
        apply (HS tid _ Ht) in Hs. done.
      * rewrite list_lookup_insert_ne.
        -- by apply (HR i x).
        -- symmetry. apply (Hother i x Hni Hx). right. right. rewrite Hres. eauto.
  - (* vRet *)
    destruct (calls s !! a) as [cl |] eqn:Hcl; [| done]. simplify_eq/=.
    constructor; simpl.
    + intros i j ti tj Hi Hj Hoi Hoj Hc.
      apply Hlk in Hi as [[-> ->] | [Hni Hi]]; apply Hlk in Hj as [[-> ->] | [Hnj Hj]];
        try done.
      * by apply (HD tid j _ tj Ht Hj).
      * by apply (HD i tid ti _ Hi Ht).
      * by apply (HD i j ti tj).
    + intros i x Hx Hox. apply Hlk in Hx as [[-> ->] | [Hni Hx]].
      * by apply (HO tid _ Ht).
      * by apply (HO i x).
    + intros i x Hx Hwx. apply Hlk in Hx as [[-> ->] | [Hni Hx]]; [done |].
      by apply (HC i x).
    + intros i x Hx. apply Hlk in Hx as [[-> ->] | [Hni Hx]]; [| by apply (HS i x)].
      simpl. split; eauto.
    + intros i x r0 Hx Hres. apply Hlk in Hx as [[-> ->] | [Hni Hx]];
        [| by apply (HR i x)].
      simpl in *. simplify_eq. eauto.
  - (* vDeferDelete *)
    simplify_eq/=. constructor; simpl.
    + intros i j ti tj Hi Hj Hoi Hoj Hc.
      apply Hlk in Hi as [[-> ->] | [Hni Hi]]; apply Hlk in Hj as [[-> ->] | [Hnj Hj]];
        try done.
      * by apply (HD tid j _ tj Ht Hj).
      * by apply (HD i tid ti _ Hi Ht).
      * by apply (HD i j ti tj).
    + intros i x Hx Hox. apply Hlk in Hx as [[-> ->] | [Hni Hx]].
      * by apply (HO tid _ Ht).
      * by apply (HO i x).
    + intros i x Hx Hwx. apply Hlk in Hx as [[-> ->] | [Hni Hx]]; [done |].
      by apply (HC i x).
    + intros i x Hx. apply Hlk in Hx as [[-> ->] | [Hni Hx]]; [| by apply (HS i x)].
      pose proof (HS tid _ Ht) as Hold. simpl in *. rewrite <- Hold. done.
    + intros i x r0 Hx Hres. apply Hlk in Hx as [[-> ->] | [Hni Hx]];
        [| by apply (HR i x)].
      by apply (HR tid _ r0 Ht).
  - (* vDeferDone *)
    unfold wg_done in Hstep. simpl in Hstep.
    destruct (calls s !! a) as [cl |] eqn:Hcl; [| done]. simpl in Hstep.
    case_decide; [done |]. simplify_eq/=.
    specialize (Hother eq_refl). simpl in Hother.
    destruct (HO tid _ Ht eq_refl) as (cl0 & Hcl0 & Hwg). simpl in Hcl0.
    assert (cl0 = cl) as -> by congruence.
    constructor; simpl.
    + intros i j ti tj Hi Hj Hoi Hoj Hc.
      apply Hlk in Hi as [[-> ->] | [Hni Hi]]; apply Hlk in Hj as [[-> ->] | [Hnj Hj]];
        try done.
      by apply (HD i j ti tj).
    + intros i x Hx Hox. apply Hlk in Hx as [[-> ->] | [Hni Hx]]; [done |].
      rewrite list_lookup_insert_ne by (symmetry; eapply Hother; eauto).
      by apply (HO i x).
    + intros i x Hx Hwx. apply Hlk in Hx as [[-> ->] | [Hni Hx]].
      * simpl. rewrite list_lookup_insert_eq by (by eapply lookup_lt_Some).
        eexists. split; [done |]. simpl. lia.
      * rewrite list_lookup_insert_ne by (symmetry; eapply Hother; eauto).
        by apply (HC i x).
    + intros i x Hx. apply Hlk in Hx as [[-> ->] | [Hni Hx]]; [| by apply (HS i x)].
      pose proof (HS tid _ Ht) as Hold. simpl in *. rewrite <- Hold. done.
    + intros i x r0 Hx Hres. apply Hlk in Hx as [[-> ->] | [Hni Hx]].
      * simpl in *. rewrite list_lookup_insert_eq by (by eapply lookup_lt_Some).
        destruct (HR tid _ r0 Ht Hres) as (cl1 & Hcl1 & Hr). simpl in Hcl1.
        assert (cl1 = cl) as -> by congruence. eauto.
      * rewrite list_lookup_insert_ne.
        -- by apply (HR i x).
        -- symmetry. apply (Hother i x Hni Hx). right. right. rewrite Hres. eauto.
  - (* wWait *)
    destruct (calls s !! a) as [cl |] eqn:Hcl; [| done]. simpl in Hstep.
    case_decide as Hwg; [| done]. simplify_eq/=.
    constructor; simpl.
    + intros i j ti tj Hi Hj Hoi Hoj Hc.
      apply Hlk in Hi as [[-> ->] | [Hni Hi]]; apply Hlk in Hj as [[-> ->] | [Hnj Hj]];
        try done.
      by apply (HD i j ti tj).
    + intros i x Hx Hox. apply Hlk in Hx as [[-> ->] | [Hni Hx]]; [done |].
      by apply (HO i x).
    + intros i x Hx Hwx. apply Hlk in Hx as [[-> ->] | [Hni Hx]]; [by eauto |].
      by apply (HC i x).
    + intros i x Hx. apply Hlk in Hx as [[-> ->] | [Hni Hx]]; [| by apply (HS i x)].
      pose proof (HS tid _ Ht) as Hold. simpl in *. rewrite <- Hold. done.
    + intros i x r0 Hx Hres. apply Hlk in Hx as [[-> ->] | [Hni Hx]];
        [| by apply (HR i x)].
      by apply (HR tid _ r0 Ht).
  - (* wRet *)
    destruct (calls s !! a) as [cl |] eqn:Hcl; [| done]. simplify_eq/=.
    constructor; simpl.
    + intros i j ti tj Hi Hj Hoi Hoj Hc.
      apply Hlk in Hi as [[-> ->] | [Hni Hi]]; apply Hlk in Hj as [[-> ->] | [Hnj Hj]];
        try done.
      by apply (HD i j ti tj).
    + intros i x Hx Hox. apply Hlk in Hx as [[-> ->] | [Hni Hx]]; [done |].
      by apply (HO i x).
    + intros i x Hx Hwx. apply Hlk in Hx as [[-> ->] | [Hni Hx]].
      * by apply (HC tid _ Ht).
      * by apply (HC i x).
    + intros i x Hx. apply Hlk in Hx as [[-> ->] | [Hni Hx]]; [| by apply (HS i x)].
      simpl. split; eauto.
    + intros i x r0 Hx Hres. apply Hlk in Hx as [[-> ->] | [Hni Hx]];
        [| by apply (HR i x)].
      simpl in *. simplify_eq. eauto.
Qed.

Lemma flights_ok_run schedule (st : sys R W) :
  flights_ok st → flights_ok (run_sched step_DoV2 schedule st).
Proof.
  revert st. induction schedule as [| tid schedule IH]; intros st Hst; [done |].
  simpl. apply IH. by apply flights_ok_step.
Qed.

Lemma flights_ok_at_start (callers : list (string * compute R W)) s :
  flights_ok (map (λ kf, enter_DoV2 kf.1 kf.2) callers, s).
Proof.
  assert (∀ i t, map (λ kf, enter_DoV2 kf.1 kf.2) callers !! i = Some t →
            pc t = vNew ∧ result t = None) as Hnew.
  { intros i t Ht. apply list_elem_of_lookup_2 in Ht.
    apply list_elem_of_fmap in Ht as (kf & -> & _). done. }
  constructor; simpl.
  - intros i j ti tj Hi _ Hoi. apply Hnew in Hi as [Hpc _].
    unfold owns in Hoi. by rewrite Hpc in Hoi.
  - intros i t Hi Ho. apply Hnew in Hi as [Hpc _].
    unfold owns in Ho. by rewrite Hpc in Ho.
  - intros i t Hi Hw. apply Hnew in Hi as [Hpc _].
    unfold past_wait in Hw. by rewrite Hpc in Hw.
  - intros i t Hi. apply Hnew in Hi as [Hpc Hres].
    unfold returned. rewrite Hpc, Hres. split; [done | by intros [? ?]].
  - intros i t r Hi Hres. apply Hnew in Hi as [_ Hnone]. congruence.
Qed.

End Flights.

(** X26. Callers of [DoV2] under any schedule: a goroutine that has
    returned got the pair stored in the [call] it ended up with, its own
    or the registered one it waited for, and the [WaitGroup] of that
    [call] is at zero; so all goroutines that returned from one [call],
    the one that ran [fn] and those that waited for it, return the same
    pair. *)
Theorem DoV2_callers_of_one_call_return_the_same {R W : Type}
    (callers : list (string * compute R W)) (s : shared R W) (schedule : list nat) :
  let st := run_sched step_DoV2 schedule
              (map (λ kf, enter_DoV2 kf.1 kf.2) callers, s) in
  (∀ i t, st.1 !! i = Some t → finished t = true →
     ∃ cl, calls st.2 !! c t = Some cl ∧ wg cl = 0
       ∧ result t = Some (val cl, err cl))
  ∧ (∀ i j ti tj,
       st.1 !! i = Some ti → st.1 !! j = Some tj →
       finished ti = true → finished tj = true → c ti = c tj →
       result ti = result tj ∧ is_Some (result ti)).
Proof.
  intros st.
  assert (flights_ok st) as [HD HO HC HS HR].
  { apply flights_ok_run, flights_ok_at_start. }
  assert (∀ i t, st.1 !! i = Some t → finished t = true →
     ∃ cl, calls st.2 !! c t = Some cl ∧ wg cl = 0
       ∧ result t = Some (val cl, err cl)) as Hfin.
  { intros i t Ht Hf.
    assert (pc t = Finished) as Hpc by (unfold finished in Hf; by destruct (pc t)).
    destruct (HC i t Ht) as (cl & Hcl & Hwg); [unfold past_wait; by rewrite Hpc |].
    destruct (proj1 (HS i t Ht)) as [r Hr]; [unfold returned; by rewrite Hpc |].
    destruct (HR i t r Ht Hr) as (cl' & Hcl' & ->).
    assert (cl' = cl) as -> by congruence. eauto. }
  split; [exact Hfin |].
  intros i j ti tj Hi Hj Hfi Hfj Hc.
  destruct (Hfin i ti Hi Hfi) as (cl & Hcl & _ & Hri).
  destruct (Hfin j tj Hj Hfj) as (cl' & Hcl' & _ & Hrj).
  rewrite Hc in Hcl. assert (cl' = cl) as -> by congruence.
  rewrite Hri, Hrj. eauto.
Qed.

(** ** The result of a call in flight: [Do] *)

Section FlightsOfDo.
Context {R W : Type}.
Implicit Types (s : shared R W) (t : thread R W).

Lemma flights_ok_Do_step tid (st : sys R W) :
  flights_ok_Do st → flights_ok_Do (sched_step step_Do tid st).
Proof.
  intros [HD HO HC HS HR]. destruct st as [ts s]. unfold sched_step. simpl in *.
  destruct (ts !! tid) as [t |] eqn:Ht; [| by constructor].
  destruct (step_Do t s) as [[t' s'] |] eqn:Hstep; [| by constructor].
  assert (∀ i x, <[tid := t']> ts !! i = Some x →
          (i = tid ∧ x = t') ∨ (i ≠ tid ∧ ts !! i = Some x)) as Hlk.
  { intros i x Hx. destruct (decide (i = tid)) as [-> | Hne].
    - rewrite list_lookup_insert_eq in Hx by (by eapply lookup_lt_Some).
      left. by simplify_eq.
    - rewrite list_lookup_insert_ne in Hx by done. by right. }
  assert (before_Done t = true → ∀ i x, i ≠ tid → ts !! i = Some x →
          before_Done x = true ∨ after_Done x = true ∨ is_Some (result x) →
          c x ≠ c t) as Hother.
  { intros Hot i x Hne Hx Hcase Hc.
    destruct (HO tid t Ht Hot) as (cl & Hcl & Hwg).
    assert (owns_Do t = true) as Hown.
    { unfold before_Done, owns_Do in *. by destruct (pc t). }
    assert (owns_Do x = true ∨ after_Done x = true) as [Hox | Hwx].
    { destruct Hcase as [Hb | [? | Hres]]; [left | by right |].
      - unfold before_Done, owns_Do in *. by destruct (pc x).
      - apply (HS i x Hx) in Hres. right. unfold finished, after_Done in *.
        by destruct (pc x). }
    - apply Hne. by apply (HD i tid x t).
    - destruct (HC i x Hx Hwx) as (cl' & Hcl' & Hwg'). rewrite Hc in Hcl'.
      simplify_eq. lia. }
  unfold step_Do, step_wait in Hstep.
  destruct t as [k f l a res]. simpl in *.
  destruct l; simpl in Hstep; try done.
  - (* dLoad *)
    assert (s' = s ∧ result t' = res
            ∧ (pc t' = wWait ∨ pc t' = dNew)) as (-> & Hres' & Hpc').
    { destruct (table s !! k); simplify_eq/=; auto. }
    clear Hstep.
    assert (owns_Do t' = false ∧ before_Done t' = false ∧ after_Done t' = false
            ∧ finished t' = false) as (Hn1 & Hn2 & Hn3 & Hn4).
    { unfold owns_Do, before_Done, after_Done, finished.
      destruct Hpc' as [-> | ->]; done. }
    constructor; simpl.
    + intros i j ti tj Hi Hj Hoi Hoj Hc.
      apply Hlk in Hi as [[-> ->] | [Hni Hi]]; apply Hlk in Hj as [[-> ->] | [Hnj Hj]];
        try congruence.
      by apply (HD i j ti tj).
    + intros i x Hx Hox. apply Hlk in Hx as [[-> ->] | [Hni Hx]]; [congruence |].
      by apply (HO i x).
    + intros i x Hx Hwx. apply Hlk in Hx as [[-> ->] | [Hni Hx]]; [congruence |].
      by apply (HC i x).
    + intros i x Hx. apply Hlk in Hx as [[-> ->] | [Hni Hx]]; [| by apply (HS i x)].
      pose proof (HS tid _ Ht) as Hold. simpl in Hold.
      rewrite Hn4, Hres'. rewrite <- Hold. done.
    + intros i x r Hx Hres. apply Hlk in Hx as [[-> ->] | [Hni Hx]];
        [| by apply (HR i x)].
      rewrite Hres' in Hres. assert (is_Some res) as Hs by (rewrite Hres; eauto).
      apply (HS tid _ Ht) in Hs. done.
  - (* dNew *)
    unfold new_call in Hstep. simplify_eq/=.
    constructor; simpl.
    + intros i j ti tj Hi Hj Hoi Hoj Hc.
      assert (∀ n x, ts !! n = Some x → owns_Do x = true →
              (c x < length (calls s))%nat) as Hlt.
      { intros n x Hx Hox.
        assert (before_Done x = true ∨ after_Done x = true) as [Hb | Ha].
        { unfold owns_Do, before_Done, after_Done in *. destruct (pc x); auto; done. }
        - destruct (HO n x Hx Hb) as (cl & Hcl & _). by eapply lookup_lt_Some.
        - destruct (HC n x Hx Ha) as (cl & Hcl & _). by eapply lookup_lt_Some. }
      apply Hlk in Hi as [[-> ->] | [Hni Hi]]; apply Hlk in Hj as [[-> ->] | [Hnj Hj]];
        try done.
      * simpl in Hc. pose proof (Hlt j tj Hj Hoj). lia.
      * simpl in Hc. pose proof (Hlt i ti Hi Hoi). lia.
      * by apply (HD i j ti tj).
    + intros i x Hx Hox. apply Hlk in Hx as [[-> ->] | [Hni Hx]].
      * simpl. exists {| wg := 1; val := None; err := None |}. split; [| done].
        by apply list_lookup_middle.
      * destruct (HO i x Hx Hox) as (cl & Hcl & Hwg).
        exists cl. split; [by apply lookup_app_l_Some | done].
    + intros i x Hx Hwx. apply Hlk in Hx as [[-> ->] | [Hni Hx]]; [done |].
      destruct (HC i x Hx Hwx) as (cl & Hcl & Hwg).
      exists cl. split; [by apply lookup_app_l_Some | done].
    + intros i x Hx. apply Hlk in Hx as [[-> ->] | [Hni Hx]].
      * simpl. rewrite <- (HS tid _ Ht). done.
      * by apply (HS i x).
    + intros i x r Hx Hres. apply Hlk in Hx as [[-> ->] | [Hni Hx]].
      * simpl in Hres. assert (is_Some (Some r)) as Hs by eauto.
        rewrite <- Hres in Hs. apply (HS tid _ Ht) in Hs. done.
      * destruct (HR i x r Hx Hres) as (cl & Hcl & Hr).
        exists cl. split; [by apply lookup_app_l_Some | done].
  - (* dStore *)
    simplify_eq/=. constructor; simpl.
    + intros i j ti tj Hi Hj Hoi Hoj Hc.
      apply Hlk in Hi as [[-> ->] | [Hni Hi]]; apply Hlk in Hj as [[-> ->] | [Hnj Hj]];
        try done.
      * by apply (HD tid j _ tj Ht Hj).
      * by apply (HD i tid ti _ Hi Ht).
      * by apply (HD i j ti tj).
    + intros i x Hx Hox. apply Hlk in Hx as [[-> ->] | [Hni Hx]].
      * by apply (HO tid _ Ht).
      * by apply (HO i x).
    + intros i x Hx Hwx. apply Hlk in Hx as [[-> ->] | [Hni Hx]]; [done |].
      by apply (HC i x).
    + intros i x Hx. apply Hlk in Hx as [[-> ->] | [Hni Hx]]; [| by apply (HS i x)].
      pose proof (HS tid _ Ht) as Hold. simpl in *. rewrite <- Hold. done.
    + intros i x r0 Hx Hres. apply Hlk in Hx as [[-> ->] | [Hni Hx]];
        [| by apply (HR i x)].
      by apply (HR tid _ r0 Ht).
  - (* dFn *)
    unfold run_fn in Hstep. simpl in Hstep.
    destruct (calls s !! a) as [cl |] eqn:Hcl; [| done]. simpl in Hstep.
    destruct (f (world s)) as [w' [r e]]. simplify_eq/=.
    specialize (Hother eq_refl). simpl in Hother.
    destruct (HO tid _ Ht eq_refl) as (cl0 & Hcl0 & Hwg). simpl in Hcl0.
    assert (cl0 = cl) as -> by congruence.
    constructor; simpl.
    + intros i j ti tj Hi Hj Hoi Hoj Hc.
      apply Hlk in Hi as [[-> ->] | [Hni Hi]]; apply Hlk in Hj as [[-> ->] | [Hnj Hj]];
        try done.
      * by apply (HD tid j _ tj Ht Hj).
      * by apply (HD i tid ti _ Hi Ht).
      * by apply (HD i j ti tj).
    + intros i x Hx Hox. apply Hlk in Hx as [[-> ->] | [Hni Hx]].
      * simpl. rewrite list_lookup_insert_eq by (by eapply lookup_lt_Some). eauto.
      * rewrite list_lookup_insert_ne by (symmetry; apply (Hother i x Hni Hx); auto).
        by apply (HO i x).
    + intros i x Hx Hwx. apply Hlk in Hx as [[-> ->] | [Hni Hx]]; [done |].
      rewrite list_lookup_insert_ne by (symmetry; apply (Hother i x Hni Hx); auto).
      by apply (HC i x).
    + intros i x Hx. apply Hlk in Hx as [[-> ->] | [Hni Hx]]; [| by apply (HS i x)].
      pose proof (HS tid _ Ht) as Hold. simpl in *. rewrite <- Hold. done.
    + intros i x r0 Hx Hres. apply Hlk in Hx as [[-> ->] | [Hni Hx]].
      * simpl in Hres. assert (is_Some res) as Hs by (rewrite Hres; eauto).
        apply (HS tid _ Ht) in Hs. done.
      * rewrite list_lookup_insert_ne.
        -- by apply (HR i x).
        -- symmetry. apply (Hother i x Hni Hx). right. right. rewrite Hres. eauto.
  - (* dDone *)
    unfold wg_done in Hstep. simpl in Hstep.
    destruct (calls s !! a) as [cl |] eqn:Hcl; [| done]. simpl in Hstep.
    case_decide; [done |]. simplify_eq/=.
    specialize (Hother eq_refl). simpl in Hother.
    destruct (HO tid _ Ht eq_refl) as (cl0 & Hcl0 & Hwg). simpl in Hcl0.
    assert (cl0 = cl) as -> by congruence.
    constructor; simpl.
    + intros i j ti tj Hi Hj Hoi Hoj Hc.
      apply Hlk in Hi as [[-> ->] | [Hni Hi]]; apply Hlk in Hj as [[-> ->] | [Hnj Hj]];
        try done.
      * by apply (HD tid j _ tj Ht Hj).
      * by apply (HD i tid ti _ Hi Ht).
      * by apply (HD i j ti tj).
    + intros i x Hx Hox. apply Hlk in Hx as [[-> ->] | [Hni Hx]]; [done |].
      rewrite list_lookup_insert_ne by (symmetry; apply (Hother i x Hni Hx); auto).
      by apply (HO i x).
    + intros i x Hx Hwx. apply Hlk in Hx as [[-> ->] | [Hni Hx]].
      * simpl. rewrite list_lookup_insert_eq by (by eapply lookup_lt_Some).
        eexists. split; [done |]. simpl. lia.
      * rewrite list_lookup_insert_ne by (symmetry; apply (Hother i x Hni Hx); auto).
        by apply (HC i x).
    + intros i x Hx. apply Hlk in Hx as [[-> ->] | [Hni Hx]]; [| by apply (HS i x)].
      pose proof (HS tid _ Ht) as Hold. simpl in *. rewrite <- Hold. done.
    + intros i x r0 Hx Hres. apply Hlk in Hx as [[-> ->] | [Hni Hx]].
      * simpl in Hres. assert (is_Some res) as Hs by (rewrite Hres; eauto).
        apply (HS tid _ Ht) in Hs. done.
      * rewrite list_lookup_insert_ne.
        -- by apply (HR i x).
        -- symmetry. apply (Hother i x Hni Hx). right. right. rewrite Hres. eauto.
  - (* dDelete *)
    simplify_eq/=. constructor; simpl.
    + intros i j ti tj Hi Hj Hoi Hoj Hc.
      apply Hlk in Hi as [[-> ->] | [Hni Hi]]; apply Hlk in Hj as [[-> ->] | [Hnj Hj]];
        try done.
      * by apply (HD tid j _ tj Ht Hj).
      * by apply (HD i tid ti _ Hi Ht).
      * by apply (HD i j ti tj).
    + intros i x Hx Hox. apply Hlk in Hx as [[-> ->] | [Hni Hx]]; [done |].
      by apply (HO i x).
    + intros i x Hx Hwx. apply Hlk in Hx as [[-> ->] | [Hni Hx]].
      * by apply (HC tid _ Ht).
      * by apply (HC i x).
    + intros i x Hx. apply Hlk in Hx as [[-> ->] | [Hni Hx]]; [| by apply (HS i x)].
      pose proof (HS tid _ Ht) as Hold. simpl in *. rewrite <- Hold. done.
    + intros i x r0 Hx Hres. apply Hlk in Hx as [[-> ->] | [Hni Hx]];
        [| by apply (HR i x)].
      by apply (HR tid _ r0 Ht).
  - (* dRet *)
    destruct (calls s !! a) as [cl |] eqn:Hcl; [| done]. simplify_eq/=.
    constructor; simpl.
    + intros i j ti tj Hi Hj Hoi Hoj Hc.
      apply Hlk in Hi as [[-> ->] | [Hni Hi]]; apply Hlk in Hj as [[-> ->] | [Hnj Hj]];
        try done.
      by apply (HD i j ti tj).
    + intros i x Hx Hox. apply Hlk in Hx as [[-> ->] | [Hni Hx]]; [done |].
      by apply (HO i x).
    + intros i x Hx Hwx. apply Hlk in Hx as [[-> ->] | [Hni Hx]].
      * by apply (HC tid _ Ht).
      * by apply (HC i x).
    + intros i x Hx. apply Hlk in Hx as [[-> ->] | [Hni Hx]]; [| by apply (HS i x)].
      simpl. split; eauto.
    + intros i x r0 Hx Hres. apply Hlk in Hx as [[-> ->] | [Hni Hx]];
        [| by apply (HR i x)].
      simpl in *. simplify_eq. eauto.
  - (* wWait *)
    destruct (calls s !! a) as [cl |] eqn:Hcl; [| done]. simpl in Hstep.
    case_decide as Hwg; [| done]. simplify_eq/=.
    constructor; simpl.
    + intros i j ti tj Hi Hj Hoi Hoj Hc.
      apply Hlk in Hi as [[-> ->] | [Hni Hi]]; apply Hlk in Hj as [[-> ->] | [Hnj Hj]];
        try done.
      by apply (HD i j ti tj).
    + intros i x Hx Hox. apply Hlk in Hx as [[-> ->] | [Hni Hx]]; [done |].
      by apply (HO i x).
    + intros i x Hx Hwx. apply Hlk in Hx as [[-> ->] | [Hni Hx]]; [by eauto |].
      by apply (HC i x).
    + intros i x Hx. apply Hlk in Hx as [[-> ->] | [Hni Hx]]; [| by apply (HS i x)].
      pose proof (HS tid _ Ht) as Hold. simpl in *. rewrite <- Hold. done.
    + intros i x r0 Hx Hres. apply Hlk in Hx as [[-> ->] | [Hni Hx]];
        [| by apply (HR i x)].
      by apply (HR tid _ r0 Ht).
  - (* wRet *)
    destruct (calls s !! a) as [cl |] eqn:Hcl; [| done]. simplify_eq/=.
    constructor; simpl.
    + intros i j ti tj Hi Hj Hoi Hoj Hc.
      apply Hlk in Hi as [[-> ->] | [Hni Hi]]; apply Hlk in Hj as [[-> ->] | [Hnj Hj]];
        try done.
      by apply (HD i j ti tj).
    + intros i x Hx Hox. apply Hlk in Hx as [[-> ->] | [Hni Hx]]; [done |].
      by apply (HO i x).
    + intros i x Hx Hwx. apply Hlk in Hx as [[-> ->] | [Hni Hx]].
      * by apply (HC tid _ Ht).
      * by apply (HC i x).
    + intros i x Hx. apply Hlk in Hx as [[-> ->] | [Hni Hx]]; [| by apply (HS i x)].
      simpl. split; eauto.
    + intros i x r0 Hx Hres. apply Hlk in Hx as [[-> ->] | [Hni Hx]];
        [| by apply (HR i x)].
      simpl in *. simplify_eq. eauto.
Qed.

Lemma flights_ok_Do_run schedule (st : sys R W) :
  flights_ok_Do st → flights_ok_Do (run_sched step_Do schedule st).
Proof.
  revert st. induction schedule as [| tid schedule IH]; intros st Hst; [done |].
  simpl. apply IH. by apply flights_ok_Do_step.
Qed.

Lemma flights_ok_Do_at_start (callers : list (string * compute R W)) s :
  flights_ok_Do (map (λ kf, enter_Do kf.1 kf.2) callers, s).
Proof.
  assert (∀ i t, map (λ kf, enter_Do kf.1 kf.2) callers !! i = Some t →
            pc t = dLoad ∧ result t = None) as Hnew.
  { intros i t Ht. apply list_elem_of_lookup_2 in Ht.
    apply list_elem_of_fmap in Ht as (kf & -> & _). done. }
  constructor; simpl.
  - intros i j ti tj Hi _ Hoi. apply Hnew in Hi as [Hpc _].
    unfold owns_Do in Hoi. by rewrite Hpc in Hoi.
  - intros i t Hi Ho. apply Hnew in Hi as [Hpc _].
    unfold before_Done in Ho. by rewrite Hpc in Ho.
  - intros i t Hi Hw. apply Hnew in Hi as [Hpc _].
    unfold after_Done in Hw. by rewrite Hpc in Hw.
  - intros i t Hi. apply Hnew in Hi as [Hpc Hres].
    unfold finished. rewrite Hpc, Hres. split; [done | by intros [? ?]].
  - intros i t r Hi Hres. apply Hnew in Hi as [_ Hnone]. congruence.
Qed.

End FlightsOfDo.

(** X27. What [Do] keeps in spite of its race. Under any schedule a
    goroutine that has returned from [Do] got the pair stored in the
    [call] it ended up with, its own or the registered one it waited for,
    and the [WaitGroup] of that [call] is at zero: goroutines that
    returned from one [call] return the same pair. Several [call]s of one
    key can be in flight, each with a result of its own. *)
Theorem Do_callers_of_one_call_return_the_same {R W : Type}
    (callers : list (string * compute R W)) (s : shared R W) (schedule : list nat) :
  let st := run_sched step_Do schedule
              (map (λ kf, enter_Do kf.1 kf.2) callers, s) in
  (∀ i t, st.1 !! i = Some t → finished t = true →
     ∃ cl, calls st.2 !! c t = Some cl ∧ wg cl = 0
       ∧ result t = Some (val cl, err cl))
  ∧ (∀ i j ti tj,
       st.1 !! i = Some ti → st.1 !! j = Some tj →
       finished ti = true → finished tj = true → c ti = c tj →
       result ti = result tj ∧ is_Some (result ti)).
Proof.
  intros st.
  assert (flights_ok_Do st) as [HD HO HC HS HR].
  { apply flights_ok_Do_run, flights_ok_Do_at_start. }
  assert (∀ i t, st.1 !! i = Some t → finished t = true →
     ∃ cl, calls st.2 !! c t = Some cl ∧ wg cl = 0
       ∧ result t = Some (val cl, err cl)) as Hfin.
  { intros i t Ht Hf.
    assert (pc t = Finished) as Hpc by (unfold finished in Hf; by destruct (pc t)).
    destruct (HC i t Ht) as (cl & Hcl & Hwg); [unfold after_Done; by rewrite Hpc |].
    destruct (proj1 (HS i t Ht) Hf) as [r Hr].
    destruct (HR i t r Ht Hr) as (cl' & Hcl' & ->).
    assert (cl' = cl) as -> by congruence. eauto. }
  split; [exact Hfin |].
  intros i j ti tj Hi Hj Hfi Hfj Hc.
  destruct (Hfin i ti Hi Hfi) as (cl & Hcl & _ & Hri).
  destruct (Hfin j tj Hj Hfj) as (cl' & Hcl' & _ & Hrj).
  rewrite Hc in Hcl. assert (cl' = cl) as -> by congruence.
  rewrite Hri, Hrj. eauto.
Qed.

End SingleflightSpec.

(** * Further properties of the store *)

Module StoreLaws.
Import Store StoreSpec.

(** ** The shard mask *)

(** One step of the smearing [cap |= cap >> w]: a bit of the result is
    set when one of the next [2 * w] bits of the input is. *)
Lemma smear_step (cap x w : Z) :
  0 ≤ w →
  (∀ i, 0 ≤ i →
     Z.testbit x i = true ↔ ∃ j, 0 ≤ j < w ∧ Z.testbit cap (i + j) = true) →
  ∀ i, 0 ≤ i →
    Z.testbit (Z.lor x (Z.shiftr x w)) i = true
    ↔ ∃ j, 0 ≤ j < 2 * w ∧ Z.testbit cap (i + j) = true.
Proof.
  intros Hw Hx i Hi.
  rewrite Z.lor_spec, orb_true_iff, Z.shiftr_spec by done.
  rewrite (Hx i) by done. rewrite (Hx (i + w)) by lia. split.
  - intros [(j & Hj & Hb) | (j & Hj & Hb)].
    + exists j. split; [lia | done].
    + exists (w + j). split; [lia |]. by rewrite Z.add_assoc.
  - intros (j & Hj & Hb). destruct (decide (j < w)) as [Hlt | Hge].
    + left. exists j. split; [lia | done].
    + right. exists (j - w). split; [lia |].
      by replace (i + w + (j - w)) with (i + j) by lia.
Qed.

(** The four smearing steps set every bit up to the highest one of a
    16-bit number. *)
Lemma smear_all (cap : Z) :
  0 < cap < 65536 →
  Z.lor (Z.lor (Z.lor (Z.lor cap (Z.shiftr cap 1))
                  (Z.shiftr (Z.lor cap (Z.shiftr cap 1)) 2))
           (Z.shiftr (Z.lor (Z.lor cap (Z.shiftr cap 1))
                        (Z.shiftr (Z.lor cap (Z.shiftr cap 1)) 2)) 4))
    (Z.shiftr (Z.lor (Z.lor (Z.lor cap (Z.shiftr cap 1))
                        (Z.shiftr (Z.lor cap (Z.shiftr cap 1)) 2))
                 (Z.shiftr (Z.lor (Z.lor cap (Z.shiftr cap 1))
                              (Z.shiftr (Z.lor cap (Z.shiftr cap 1)) 2)) 4)) 8)
  = 2 ^ (Z.log2 cap + 1) - 1.
Proof.
  intros Hcap.
  assert (∀ i, 0 ≤ i →
          Z.testbit cap i = true ↔ ∃ j, 0 ≤ j < 1 ∧ Z.testbit cap (i + j) = true)
    as H1.
  { intros i Hi. split.
    - intros Hb. exists 0. split; [lia |]. by rewrite Z.add_0_r.
    - intros (j & Hj & Hb). by replace (i + j) with i in Hb by lia. }
  pose proof (smear_step cap _ 1 ltac:(lia) H1) as H2.
  pose proof (smear_step cap _ 2 ltac:(lia) H2) as H4.
  pose proof (smear_step cap _ 4 ltac:(lia) H4) as H8.
  pose proof (smear_step cap _ 8 ltac:(lia) H8) as H16.
  assert (0 ≤ Z.log2 cap < 16) as Hlog.
  { split; [apply Z.log2_nonneg |]. apply Z.log2_lt_pow2; lia. }
  replace (2 ^ (Z.log2 cap + 1) - 1) with (Z.ones (Z.succ (Z.log2 cap)))
    by (rewrite Z.ones_equiv; unfold Z.succ, Z.pred; lia).
  apply Z.bits_inj'. intros i Hi.
  apply eq_iff_eq_true. rewrite (H16 i Hi).
  rewrite Z.testbit_ones_nonneg by lia.
  rewrite Z.ltb_lt. split.
  - intros (j & Hj & Hb).
    destruct (decide (i < Z.succ (Z.log2 cap))) as [| Hge]; [done |].
    rewrite Z.bits_above_log2 in Hb by lia. done.
  - intros Hlt. exists (Z.log2 cap - i). split; [lia |].
    replace (i + (Z.log2 cap - i)) with (Z.log2 cap) by lia.
    apply Z.bit_log2. lia.
Qed.

(** A positive number with no bit in common with its predecessor is a
    power of two. *)
Lemma land_pred_0_pow2 (cap : Z) :
  0 < cap → Z.land cap (cap - 1) = 0 → cap = 2 ^ Z.log2 cap.
Proof.
  intros Hpos Hland.
  pose proof (Z.log2_spec cap Hpos) as [Hlo Hhi].
  destruct (decide (cap = 2 ^ Z.log2 cap)) as [| Hne]; [done |]. exfalso.
  assert (Z.log2 (cap - 1) = Z.log2 cap) as Hl.
  { apply Z.log2_unique; [apply Z.log2_nonneg | lia]. }
  assert (Z.testbit (Z.land cap (cap - 1)) (Z.log2 cap) = true) as Hb.
  { rewrite Z.land_spec, andb_true_iff. split.
    - by apply Z.bit_log2.
    - rewrite <- Hl. apply Z.bit_log2.
      pose proof (Z.pow_pos_nonneg 2 (Z.log2 cap) ltac:(lia) (Z.log2_nonneg cap)). lia. }
  rewrite Hland, Z.bits_0 in Hb. done.
Qed.

Lemma maskOfNextPowOf2_eq (cap : Z) :
  1 ≤ cap ≤ 65535 → maskOfNextPowOf2 cap = 2 ^ Z.log2_up cap - 1.
Proof.
  intros Hcap. unfold maskOfNextPowOf2.
  pose proof (Z.log2_spec cap ltac:(lia)) as [Hlo Hhi].
  rewrite (wrap16_small (cap - 1)) by lia. case_decide as Hpow.
  - destruct Hpow as [_ Hland].
    pose proof (land_pred_0_pow2 cap ltac:(lia) Hland) as E.
    rewrite E at 2. rewrite Z.log2_up_pow2 by apply Z.log2_nonneg. lia.
  - rewrite smear_all by lia.
    assert (cap ≠ 2 ^ Z.log2 cap) as Hne.
    { intros E. apply Hpow. split; [lia |].
      replace (cap - 1) with (Z.ones (Z.log2 cap))
        by (rewrite Z.ones_equiv; unfold Z.pred; lia).
      rewrite Z.land_ones by apply Z.log2_nonneg. rewrite E at 1.
      apply Z.mod_same. pose proof (Z.pow_pos_nonneg 2 (Z.log2 cap) ltac:(lia)
                                      (Z.log2_nonneg cap)). lia. }
    assert (Z.log2_up cap = Z.log2 cap + 1) as ->; [| done].
    apply Z.log2_up_unique; [pose proof (Z.log2_nonneg cap); lia |].
    replace (Z.pred (Z.log2 cap + 1)) with (Z.log2 cap) by lia.
    replace (Z.log2 cap + 1) with (Z.succ (Z.log2 cap)) by lia. lia.
Qed.

(** X1. For every capacity from 1 to 65535 [maskOfNextPowOf2] is the smallest
    power of two that is at least the capacity, minus one; for capacity 0
    it is 0. *)
Theorem maskOfNextPowOf2_is_next_power_minus_one (cap : Z) :
  1 ≤ cap ≤ 65535 →
  maskOfNextPowOf2 cap = 2 ^ Z.log2_up cap - 1
  ∧ cap ≤ maskOfNextPowOf2 cap + 1 < 2 * cap
  ∧ maskOfNextPowOf2 0 = 0.
Proof.
  intros Hcap. pose proof (maskOfNextPowOf2_eq cap Hcap) as E.
  split; [done |]. split; [| done]. rewrite E.
  destruct (decide (cap = 1)) as [-> | Hne]; [by vm_compute |].
  pose proof (Z.log2_up_spec cap ltac:(lia)) as [Hlo Hhi].
  replace (2 ^ Z.log2_up cap) with (2 * 2 ^ Z.pred (Z.log2_up cap)) in *.
  - lia.
  - rewrite <- Z.pow_succ_r.
    + f_equal. lia.
    + assert (0 < Z.log2_up cap) by (apply Z.log2_up_pos; lia). lia.
Qed.

Lemma maskOfNextPowOf2_is_next_power_minus_one_witness :
  maskOfNextPowOf2 5 = 7 ∧ maskOfNextPowOf2 16 = 15 ∧ maskOfNextPowOf2 40000 = 65535.
Proof.
  destruct (maskOfNextPowOf2_is_next_power_minus_one 5) as [H5 _]; [lia |].
  destruct (maskOfNextPowOf2_is_next_power_minus_one 16) as [H16 _]; [lia |].
  destruct (maskOfNextPowOf2_is_next_power_minus_one 40000) as [H4 _]; [lia |].
  rewrite H5, H16, H4. by vm_compute.
Defined.

Section WithValue.
Context {V : Type}.
Implicit Types (c : cache V) (n : node V) (s : lru2Store V) (p : cache V * cache V).

(** ** More about [Get] on one shard *)

(** The promotion of [Get_promote], with the node L2 holds afterwards. *)
Lemma Get_promote_node s now now' key p n :
  store_ok s → shard s (shard_index s key) = Some p →
  find p.1 key = Some n → 0 < expireAt n → now < expireAt n → now' < expireAt n →
  ∃ c0 c1 evs n',
    Get s now now' key =
      Some (with_shard s (shard_index s key) (c0, c1), (v n, true), evs)
    ∧ cache_ok c0 ∧ cache_ok c1
    ∧ find c0 key = Some {| k := k n; v := v n; expireAt := 0 |}
    ∧ find c1 key = Some n' ∧ v n' = v n ∧ expireAt n' = expireAt n.
Proof.
  intros Hs Hp Hf He Hn Hn'. destruct (shard_cache_ok _ _ _ Hs Hp) as [H1 H2].
  unfold Get. rewrite Hp. simpl.
  destruct (del_live _ _ _ H1 Hf He) as (c0 & -> & Hc0 & Hf0 & _).
  simpl. case_decide; [lia |]. simpl.
  destruct (put_ok p.2 key (v n) (expireAt n) (onEvicted s) H2)
    as (c1 & r & evs & -> & Hc1 & n' & Hf1 & Hv & He').
  simpl.
  destruct (Get_L2_hit (with_shard s (shard_index s key) (c0, c1)) now now' key
              (shard_index s key) evs (c0, c1) n') as (c1' & -> & Hc1' & Hm & Hh);
    [by apply with_shard_ok | by eapply shard_with_shard | done | lia | lia | lia |].
  rewrite with_shard_twice, Hv. simpl. exists c0, c1', evs, n'.
  split_and!; try done. by rewrite (find_ext c1 c1').
Qed.

(** A key that is not live in L1 and live and unexpired in L2 is returned
    from L2: no callback, L1 untouched, the nodes and the map of L2
    unchanged (only its order of recency changes). *)
Lemma Get_from_L2 s now now' key p n :
  store_ok s → shard s (shard_index s key) = Some p →
  live p.1 key = false →
  find p.2 key = Some n → 0 < expireAt n → now < expireAt n → now' < expireAt n →
  ∃ c1,
    Get s now now' key =
      Some (with_shard s (shard_index s key) (p.1, c1), (v n, true), [])
    ∧ cache_ok c1 ∧ m c1 = m p.2 ∧ hmap c1 = hmap p.2.
Proof.
  intros Hs Hp Hd Hf He Hn Hn'. destruct (shard_cache_ok _ _ _ Hs Hp) as [H1 H2].
  unfold Get. rewrite Hp. simpl. rewrite (del_dead _ _ H1 Hd). simpl.
  replace (p.1, p.2) with p by (by destruct p).
  rewrite (with_shard_same _ _ _ Hp).
  by apply Get_L2_hit.
Qed.

(** An entry of L1 whose expiry the clock has reached is answered
    not-found and the key is dead in both lists afterwards. The callback
    is invoked for the L2 copy only (if L2 held a live one with a value
    that is not nil): the expired L1 value is never passed to it. *)
Lemma Get_expired_in_L1 s now now' key p n :
  store_ok s → shard s (shard_index s key) = Some p →
  find p.1 key = Some n → 0 < expireAt n → expireAt n ≤ now →
  ∃ c0 c1,
    Get s now now' key =
      Some (with_shard s (shard_index s key) (c0, c1), (None, false),
            if onEvicted s then
              match live_payload p.2 key with
              | Some x => [(key, Some x)]
              | None => []
              end
            else [])
    ∧ cache_ok c0 ∧ cache_ok c1
    ∧ live c0 key = false ∧ live c1 key = false.
Proof.
  intros Hs Hp Hf He Hn. destruct (shard_cache_ok _ _ _ Hs Hp) as [H1 H2].
  unfold Get. rewrite Hp. simpl.
  destruct (del_live _ _ _ H1 Hf He) as (c0 & -> & Hc0 & Hf0 & _).
  simpl. case_decide; [| lia].
  destruct (delete_spec (with_shard s (shard_index s key) (c0, p.2)) key
              (shard_index s key) (c0, p.2))
    as (c0' & c1' & -> & Hc0' & Hc1' & Hd0 & Hd1);
    [by apply with_shard_ok | by eapply shard_with_shard |].
  simpl. rewrite with_shard_twice. exists c0', c1'. split_and!; try done.
  unfold delete_events, live_payload. simpl. rewrite Hf0. simpl.
  by destruct (onEvicted s).
Qed.

(** ** Laws of the public operations *)

(** X7. After [Delete] the key is gone for every reader: a [Get] at any clock
    reading answers not-found without a callback, and a second [Delete]
    returns false without a callback. *)
Theorem Delete_then_Get_and_Delete_miss s key now now' :
  store_ok s →
  ∃ s1 b evs s2 s3,
    Delete s key = Some (s1, b, evs)
    ∧ Get s1 now now' key = Some (s2, (None, false), [])
    ∧ Delete s1 key = Some (s3, false, []).
Proof.
  intros Hs. destruct (shard_of_key s key Hs) as (p & Hp & _). unfold Delete.
  destruct (delete_spec s key (shard_index s key) p Hs Hp)
    as (c0 & c1 & -> & Hc0 & Hc1 & Hd0 & Hd1).
  set (s1 := with_shard s (shard_index s key) (c0, c1)).
  assert (store_ok s1) as Hs1 by (by apply with_shard_ok).
  assert (shard s1 (shard_index s1 key) = Some (c0, c1)) as Hp1
    by (by eapply shard_with_shard).
  destruct (Get_filtered s1 now now' key (c0, c1) Hs1 Hp1 Hd0) as (c1' & Hget & _).
  { by apply dead_filtered. }
  destruct (delete_spec s1 key (shard_index s1 key) (c0, c1) Hs1 Hp1)
    as (c0'' & c1'' & Hdel & _).
  simpl in Hdel. rewrite Hd0, Hd1 in Hdel.
  assert (delete_events (onEvicted s) (c0, c1) key = []) as Hev.
  { unfold delete_events, live_payload, live in *. simpl.
    destruct (find c0 key), (find c1 key); rewrite ?Hd0, ?Hd1;
      by destruct (onEvicted s). }
  rewrite Hev in Hdel. eauto 10.
Qed.

(** X8. On a well-formed store the later of two [Set]s of one key wins:
    the [Get] after them, before the expiry of the second, returns the
    second value. *)
Theorem Set_twice_Get_returns_second s now now2 now3 now3' key value value' :
  store_ok s →
  0 < wrap_i64 (now2 + 9999999999999999) →
  now3 < wrap_i64 (now2 + 9999999999999999) →
  now3' < wrap_i64 (now2 + 9999999999999999) →
  ∃ s1 evs1 s2 evs2 s3 evs3,
    Set_ s now key value = Some (s1, evs1)
    ∧ Set_ s1 now2 key value' = Some (s2, evs2)
    ∧ Get s2 now3 now3' key = Some (s3, (value', true), evs3).
Proof.
  intros Hs He Hn Hn'. destruct (shard_of_key s key Hs) as (p & Hp & _). unfold Set_.
  destruct (SetWithExpiration_spec s now key value 9999999999999999 p Hs Hp)
    as (c0 & evs1 & n1 & -> & Hc0 & _).
  destruct (shard_cache_ok _ _ _ Hs Hp) as [_ H2].
  set (s1 := with_shard s (shard_index s key) (c0, p.2)).
  assert (store_ok s1) as Hs1 by (by apply with_shard_ok).
  destruct (SetWithExpiration_Get_roundtrip s1 now2 now3 now3' key value'
              9999999999999999 [] Hs1) as (s2 & evs2 & s2' & ? & s3 & evs3 & H1 & H2' & H3);
    [lia | done | done | done | done |].
  simpl in H2'. injection H2' as <- <-. eauto 10.
Qed.

(** X9. On a well-formed store reading does not consume: after [Set] and
    a first [Get], a second [Get] before the expiry returns the same
    value again, this time from L2 and without any callback. *)
Theorem Get_twice_returns_same s now now1 now1' now2 now2' key value :
  store_ok s →
  0 < wrap_i64 (now + 9999999999999999) →
  now1 < wrap_i64 (now + 9999999999999999) →
  now1' < wrap_i64 (now + 9999999999999999) →
  now2 < wrap_i64 (now + 9999999999999999) →
  now2' < wrap_i64 (now + 9999999999999999) →
  ∃ s1 evs1 s2 evs2 s3,
    Set_ s now key value = Some (s1, evs1)
    ∧ Get s1 now1 now1' key = Some (s2, (value, true), evs2)
    ∧ Get s2 now2 now2' key = Some (s3, (value, true), []).
Proof.
  intros Hs He H1 H1' H2 H2'. destruct (shard_of_key s key Hs) as (p & Hp & _).
  unfold Set_.
  destruct (SetWithExpiration_spec s now key value 9999999999999999 p Hs Hp)
    as (c0 & evs1 & n & -> & Hc0 & Hf & Hv & Hen).
  rewrite decide_True in Hen by lia.
  destruct (shard_cache_ok _ _ _ Hs Hp) as [_ Hp2].
  set (s1 := with_shard s (shard_index s key) (c0, p.2)).
  assert (store_ok s1) as Hs1 by (by apply with_shard_ok).
  assert (shard s1 (shard_index s1 key) = Some (c0, p.2)) as Hp1
    by (by eapply shard_with_shard).
  destruct (Get_promote_node s1 now1 now1' key (c0, p.2) n Hs1 Hp1 Hf)
    as (c0' & c1' & evs2 & n' & Hget1 & Hc0' & Hc1' & Hf0 & Hf1 & Hv' & He');
    [lia | lia | lia |].
  set (s2 := with_shard s1 (shard_index s1 key) (c0', c1')).
  assert (store_ok s2) as Hs2 by (by apply with_shard_ok).
  assert (shard s2 (shard_index s2 key) = Some (c0', c1')) as Hp2'
    by (by eapply shard_with_shard).
  destruct (Get_from_L2 s2 now2 now2' key (c0', c1') n' Hs2 Hp2')
    as (c1'' & Hget2 & _); simpl; try lia.
  { by eapply live_tombstone. }
  { done. }
  rewrite Hv', Hv in Hget2. rewrite Hv in Hget1. eauto 10.
Qed.

(** X10. An entry written with a time to live is gone once the clock has
    reached its expiry: the [Get] answers not-found, the key is live in
    neither list afterwards, and, if L2 held no live copy of the key,
    the callback is not invoked for the entry that expired. *)
Theorem SetWithExpiration_then_Get_after_expiry
    s now now1 now1' key value expiration p :
  store_ok s →
  shard s (shard_index s key) = Some p →
  0 < expiration →
  0 < wrap_i64 (now + expiration) →
  wrap_i64 (now + expiration) ≤ now1 →
  ∃ s1 evs1 s2 evs2 p2,
    SetWithExpiration s now key value expiration = Some (s1, evs1)
    ∧ Get s1 now1 now1' key = Some (s2, (None, false), evs2)
    ∧ shard s2 (shard_index s key) = Some p2
    ∧ live p2.1 key = false ∧ live p2.2 key = false
    ∧ (live p.2 key = false → evs2 = []).
Proof.
  intros Hs Hp Hexp He Hn.
  destruct (SetWithExpiration_spec s now key value expiration p Hs Hp)
    as (c0 & evs1 & n & -> & Hc0 & Hf & Hv & Hen).
  rewrite decide_True in Hen by lia.
  destruct (shard_cache_ok _ _ _ Hs Hp) as [_ Hp2].
  set (s1 := with_shard s (shard_index s key) (c0, p.2)).
  assert (store_ok s1) as Hs1 by (by apply with_shard_ok).
  assert (shard s1 (shard_index s1 key) = Some (c0, p.2)) as Hp1
    by (by eapply shard_with_shard).
  destruct (Get_expired_in_L1 s1 now1 now1' key (c0, p.2) n Hs1 Hp1 Hf)
    as (c0' & c1' & Hget & Hc0' & Hc1' & Hd0 & Hd1); [lia | lia |].
  do 4 eexists. exists (c0', c1'). split_and!; try done.
  - by eapply shard_with_shard.
  - simpl. intros Hd. unfold live_payload, live in *.
    destruct (find p.2 key); [rewrite Hd |]; by destruct (onEvicted s).
Qed.

Lemma unmapped_key_noop s now now' key p :
  store_ok s →
  shard s (shard_index s key) = Some p →
  hmap p.1 !! key = None → hmap p.2 !! key = None →
  Get s now now' key = Some (s, (None, false), [])
  ∧ Delete s key = Some (s, false, []).
Proof.
  intros Hs Hp Hk1 Hk2. destruct (shard_cache_ok _ _ _ Hs Hp) as [H1 H2].
  assert (p = (p.1, p.2)) as Epair by (by destruct p).
  split.
  - unfold Get. rewrite Hp. simpl. unfold del. rewrite Hk1. simpl.
    rewrite <- Epair, (with_shard_same _ _ _ Hp).
    unfold Get_L2, _get. rewrite Hp. simpl. unfold get. rewrite Hk2. simpl.
    unfold with_tier. simpl. by rewrite <- Epair, (with_shard_same _ _ _ Hp).
  - unfold Delete, delete. rewrite Hp. simpl. unfold del. rewrite Hk1, Hk2. simpl.
    by rewrite <- Epair, (with_shard_same _ _ _ Hp).
Qed.

(** X11. A key that neither list of its shard maps is not found, and looking
    for it or deleting it leaves the store exactly as it was: no list is
    reordered and no callback is invoked. *)
Theorem Get_and_Delete_of_unmapped_key_change_nothing s now now' key p :
  store_ok s →
  shard s (shard_index s key) = Some p →
  hmap p.1 !! key = None → hmap p.2 !! key = None →
  Get s now now' key = Some (s, (None, false), [])
  ∧ Delete s key = Some (s, false, []).
Proof. apply unmapped_key_noop. Qed.

(** ** Freshly constructed stores *)

Lemma walk_Create {A : Type} fuel (cap : Z)
    (w : string → Value V → Z → A → A * bool) acc :
  0 ≤ cap < 65535 → walk fuel (Create cap) w acc = Some acc.
Proof.
  intros Hcap. unfold walk, rd, Create. simpl.
  rewrite wrap16_small by lia.
  destruct (Z.to_nat (cap + 1)) as [| j] eqn:E; [lia |]. simpl.
  by destruct fuel.
Qed.

Lemma Len_from_fresh fuel (c1 c2 : Z) j count :
  0 ≤ c1 < 65535 → 0 ≤ c2 < 65535 →
  Len_from fuel (replicate j (Create (V := V) c1, Create c2)) count = Some count.
Proof.
  intros H1 H2. induction j as [| j IH]; [done |]. simpl.
  rewrite walk_Create by done. simpl. rewrite walk_Create by done. simpl.
  exact IH.
Qed.

(** X4. The store [newLRU2Cache] builds from options in range has as many
    shards as the smallest power of two that is at least the bucket count
    (16 when the count is 0), and it is empty: every key is not found,
    looking for a key or deleting it leaves the store as it is, and [Len]
    is 0. *)
Theorem newLRU2Cache_is_empty (opts : Options) fuel now now' key :
  0 ≤ BucketCount opts ≤ 32768 →
  0 ≤ CapPerBucket opts < 65535 →
  0 ≤ Level2Cap opts < 65535 →
  let s := newLRU2Cache (V := V) opts in
  Z.of_nat (length (caches s))
    = 2 ^ Z.log2_up (if decide (BucketCount opts = 0) then 16 else BucketCount opts)
  ∧ Get s now now' key = Some (s, (None, false), [])
  ∧ Delete s key = Some (s, false, [])
  ∧ Len fuel s = Some 0.
Proof.
  intros Hb Hc1 Hc2 s.
  pose proof (newLRU2Cache_ok (V := V) opts Hb Hc1 Hc2) as Hs. fold s in Hs.
  set (b := if decide (BucketCount opts = 0) then 16 else BucketCount opts).
  assert (1 ≤ b ≤ 32768) as Hb' by (subst b; case_decide; lia).
  assert (mask s = 2 ^ Z.log2_up b - 1) as Hmask.
  { subst s. unfold newLRU2Cache. simpl. fold b. apply maskOfNextPowOf2_eq. lia. }
  destruct (shard_of_key s key Hs) as (p & Hp & _).
  assert (hmap p.1 !! key = None ∧ hmap p.2 !! key = None) as [Hk1 Hk2].
  { apply shard_Some in Hp as [_ Hp]. subst s. unfold newLRU2Cache in Hp.
    simpl in Hp. apply lookup_replicate in Hp as [-> _]. simpl.
    by rewrite lookup_empty. }
  split_and!.
  - destruct Hs as [_ Hlen _]. rewrite Hlen, Hmask. lia.
  - by eapply unmapped_key_noop.
  - by eapply unmapped_key_noop.
  - subst s. unfold Len, newLRU2Cache. simpl.
    apply Len_from_fresh; case_decide; lia.
Qed.

(** X5. With a bucket count above 32768 the mask is 65535 and the number of
    shards, computed in [uint16], wraps to 0: the store has no shard, and
    every [Get], [Set], [SetWithExpiration] and [Delete] panics with an
    index out of range. *)
Theorem newLRU2Cache_too_many_buckets_has_no_shard
    (opts : Options) now now' key value expiration :
  32768 < BucketCount opts ≤ 65535 →
  let s := newLRU2Cache (V := V) opts in
  mask s = 65535
  ∧ caches s = []
  ∧ Get s now now' key = None
  ∧ Set_ s now key value = None
  ∧ SetWithExpiration s now key value expiration = None
  ∧ Delete s key = None.
Proof.
  intros Hb s.
  assert (maskOfNextPowOf2 (BucketCount opts) = 65535) as Hm.
  { rewrite maskOfNextPowOf2_eq by lia.
    assert (Z.log2_up (BucketCount opts) = 16) as ->; [| done].
    apply Z.log2_up_unique; simpl; lia. }
  assert (mask s = 65535 ∧ caches s = []) as [Hmask Hcaches].
  { subst s. unfold newLRU2Cache. simpl.
    rewrite decide_False by lia. rewrite Hm. by vm_compute. }
  assert (∀ idx, shard s idx = None) as Hnone.
  { intros idx. unfold shard. rewrite Hcaches. by case_decide. }
  split_and!; try done.
  - unfold Get. by rewrite Hnone.
  - unfold Set_, SetWithExpiration. by rewrite Hnone.
  - unfold SetWithExpiration. by rewrite Hnone.
  - unfold Delete, delete. by rewrite Hnone.
Qed.

End WithValue.



(** ** The hash *)

Lemma wrap_i32_range z : -2147483648 ≤ wrap_i32 z < 2147483648.
Proof.
  unfold wrap_i32.
  pose proof (Z.mod_pos_bound (z + 2147483648) 4294967296 ltac:(lia)). lia.
Qed.

Lemma wrap_i32_congr x y :
  x mod 4294967296 = y mod 4294967296 → wrap_i32 x = wrap_i32 y.
Proof.
  intros E. unfold wrap_i32. f_equal.
  rewrite <- (Zplus_mod_idemp_l x), <- (Zplus_mod_idemp_l y). by rewrite E.
Qed.

Lemma wrap_i32_mod z : wrap_i32 z mod 4294967296 = z mod 4294967296.
Proof.
  unfold wrap_i32.
  replace ((z + 2147483648) mod 4294967296 - 2147483648)
    with ((z + 2147483648) mod 4294967296 + (-2147483648)) by lia.
  rewrite Zplus_mod_idemp_l. f_equal. lia.
Qed.

Lemma hashBKRD_from_sum (s : string) (h : Z) :
  wrap_i32 h = h →
  hashBKRD_from h s = wrap_i32 (h * 131 ^ Z.of_nat (String.length s) + bkdr_sum s).
Proof.
  revert h. induction s as [| c s IH]; intros h Hh; simpl hashBKRD_from.
  - cbn [String.length bkdr_sum]. change (Z.of_nat 0) with 0.
    rewrite Z.pow_0_r, Z.mul_1_r, Z.add_0_r. by rewrite Hh.
  - rewrite IH.
    2:{ apply wrap_i32_congr. by rewrite wrap_i32_mod. }
    apply wrap_i32_congr. cbn [String.length bkdr_sum].
    rewrite Nat2Z.inj_succ, Z.pow_succ_r by lia.
    set (b := Z.of_N (Ascii.N_of_ascii c)).
    set (q := 131 ^ Z.of_nat (String.length s)).
    rewrite <- (Zplus_mod_idemp_l (wrap_i32 (h * 131 + b) * q)).
    rewrite <- (Zmult_mod_idemp_l (wrap_i32 (h * 131 + b))).
    rewrite wrap_i32_mod. rewrite Zmult_mod_idemp_l, Zplus_mod_idemp_l.
    f_equal. lia.
Qed.

(** X2. [hashBKRD] is the polynomial in 131 over the bytes of the key,
    reduced to [int32]: the wrap-around of each step of the loop amounts
    to one wrap-around at the end. The hash is negative for some keys,
    and the shard index [hash & mask] of a non-negative mask is a valid
    index all the same. *)
Theorem hashBKRD_is_the_polynomial_wrapped_once (s : string) (mk : Z) :
  hashBKRD s = wrap_i32 (bkdr_sum s)
  ∧ -2147483648 ≤ hashBKRD s < 2147483648
  ∧ hashBKRD "aaaaa" = -1278536487
  ∧ (0 ≤ mk → 0 ≤ Z.land (hashBKRD s) mk ≤ mk).
Proof.
  assert (hashBKRD s = wrap_i32 (bkdr_sum s)) as E.
  { unfold hashBKRD. rewrite hashBKRD_from_sum; [by rewrite Z.mul_0_l | reflexivity]. }
  split; [exact E |]. split; [rewrite E; apply wrap_i32_range |].
  split; [vm_compute; reflexivity | apply land_range].
Qed.

(** ** The clock under a late scheduler *)

Lemma run_late_punctual deadline task t :
  run_late deadline task [] t = run_until deadline task t.
Proof.
  revert t. induction task as [| i task IH]; intros t; [done |].
  cbn [run_late run_until hd tl]. unfold exec_late.
  replace {| wall := wall t + 0; clock := clock t |} with t
    by (destruct t; simpl; f_equal; lia).
  case_decide; [apply IH | done].
Qed.

Lemma lateness_nonneg lates : Forall (λ l, 0 ≤ l) lates → 0 ≤ lateness lates.
Proof.
  induction 1 as [| l lates Hl _ IH]; unfold lateness in *; simpl; lia.
Qed.

Lemma lateness_split lates :
  lateness lates = hd 0 lates + lateness (tl lates).
Proof. by destruct lates. Qed.

Lemma Forall_tl (lates : list Z) :
  Forall (λ l, 0 ≤ l) lates → 0 ≤ hd 0 lates ∧ Forall (λ l, 0 ≤ l) (tl lates).
Proof. destruct 1; simpl; [split; [lia | constructor] | done]. Qed.

(** The loop of the goroutine and its last sleep, from a moment at which
    the clock is not ahead. *)
Lemma run_late_loop deadline n lates t :
  Forall (λ l, 0 ≤ l) lates →
  -9223372036854775808 ≤ clock t → clock t ≤ wall t → wall t ≤ deadline →
  deadline < 9223372036854775808 →
  let r := run_late deadline (loop_body n ++ [Sleep ms100]) lates t in
  wall r = deadline
  ∧ clock r ≤ deadline
  ∧ (deadline < wall t + (Z.of_nat n + 1) * ms100 + lateness lates →
     deadline - clock r < ms100 + (wall t - clock t) + lateness lates).
Proof.
  revert lates t.
  induction n as [| n IH]; intros lates t Hl Hmin Hcw Hwd Hmax; cbv zeta.
  - cbn [loop_body app run_late]. unfold exec_late, exec_instr.
    cbn [wall clock].
    pose proof (lateness_nonneg _ Hl) as Hs.
    rewrite (lateness_split lates) in *.
    destruct (Forall_tl _ Hl) as [Hh Ht]. pose proof (lateness_nonneg _ Ht).
    case_decide; cbn [wall clock]; unfold ms100 in *; split_and!; lia.
  - change (loop_body (S n) ++ [Sleep ms100])
      with (Sleep ms100 :: AddClock ms100 :: (loop_body n ++ [Sleep ms100])).
    destruct (Forall_tl _ Hl) as [Hh1 Ht1].
    destruct (Forall_tl _ Ht1) as [Hh2 Ht2].
    pose proof (lateness_nonneg _ Ht2) as Hs2.
    rewrite (lateness_split lates), (lateness_split (tl lates)).
    cbn [run_late]. unfold exec_late, exec_instr. cbn [wall clock].
    case_decide as H1; cbn [wall clock]; [| unfold ms100 in *; split_and!; lia].
    case_decide as H2; cbn [wall clock]; [| unfold ms100 in *; split_and!; lia].
    rewrite wrap_i64_small by (unfold ms100 in *; lia).
    specialize (IH (tl (tl lates))
                  {| wall := wall t + hd 0 lates + ms100 + hd 0 (tl lates);
                     clock := clock t + ms100 |} Ht2).
    cbn [wall clock] in IH.
    cbv zeta in IH. destruct IH as (Hw & Hc & Hlag); [unfold ms100 in *; lia .. |].
    split_and!; [done | done |].
    intros Hrun. unfold ms100 in *. lia.
Qed.

(** X3. The clock under any scheduler: [Now()] is never ahead of the real
    time, and as long as the goroutine of [init] has not returned, so
    during the whole first second, it is behind by less than 100ms plus
    the lateness of the goroutine's instructions. Without lateness that
    is less than 100ms; with a first sleep that is one nanosecond late
    [Now()] is a full 100ms behind after 100ms. *)
Theorem clock_is_behind_by_100ms_and_lateness t0 lates elapsed :
  0 ≤ t0 →
  t0 + elapsed < 9223372036854775808 →
  0 ≤ elapsed →
  Forall (λ l, 0 ≤ l) lates →
  wall (process_late t0 lates elapsed) = t0 + elapsed
  ∧ Now (process_late t0 lates elapsed) ≤ t0 + elapsed
  ∧ (elapsed < 1000000000 + lateness lates →
     t0 + elapsed < Now (process_late t0 lates elapsed) + 100000000 + lateness lates)
  ∧ process_late t0 [] elapsed = process_after t0 elapsed
  ∧ Now (process_late t0 [0; 1] 100000000) = t0.
Proof.
  intros H0 Hmax He Hl.
  assert (process_late t0 [] elapsed = process_after t0 elapsed) as Hp
    by apply run_late_punctual.
  assert (Now (process_late t0 [0; 1] 100000000) = t0) as Hone.
  { unfold process_late, init_task, Now.
    change ((StoreWall :: loop_body 9) ++ [Sleep ms100])
      with (StoreWall :: (loop_body 9 ++ [Sleep ms100])).
    cbn [run_late hd tl]. unfold exec_late, exec_instr. cbn [wall clock].
    rewrite decide_True by lia.
    change (loop_body 9 ++ [Sleep ms100])
      with (Sleep ms100 :: ((AddClock ms100 :: loop_body 8) ++ [Sleep ms100])).
    cbn [run_late hd tl]. unfold exec_late, exec_instr. cbn [wall clock].
    rewrite decide_False by (unfold ms100; lia). cbn [clock]. lia. }
  unfold process_late, init_task, Now.
  change ((StoreWall :: loop_body 9) ++ [Sleep ms100])
    with (StoreWall :: (loop_body 9 ++ [Sleep ms100])).
  cbn [run_late]. unfold exec_late, exec_instr. cbn [wall clock].
  destruct (Forall_tl _ Hl) as [Hh Ht]. pose proof (lateness_nonneg _ Ht) as Hs.
  rewrite (lateness_split lates).
  case_decide as H1; cbn [wall clock].
  - destruct (run_late_loop (t0 + elapsed) 9 (tl lates)
                {| wall := t0 + hd 0 lates; clock := t0 + hd 0 lates |} Ht)
      as (Hw & Hc & Hlag); cbn [wall clock]; try lia.
    cbn [wall clock] in *.
    split_and!; [done | done | | done | done].
    intros Hrun. unfold ms100 in *. lia.
  - split_and!; [lia | lia | lia | done | done].
Qed.

Lemma clock_is_behind_by_100ms_and_lateness_witness :
  wall (process_late 1793318400000000000 [20000; 0; 3000000; 0; 150000000] 420000000)
  = 1793318400000000000 + 420000000
  ∧ Now (process_late 1793318400000000000 [20000; 0; 3000000; 0; 150000000] 420000000)
    ≤ 1793318400000000000 + 420000000
  ∧ (420000000 < 1000000000 + lateness [20000; 0; 3000000; 0; 150000000] →
     1793318400000000000 + 420000000
     < Now (process_late 1793318400000000000 [20000; 0; 3000000; 0; 150000000]
              420000000)
       + 100000000 + lateness [20000; 0; 3000000; 0; 150000000])
  ∧ process_late 1793318400000000000 [] 420000000
    = process_after 1793318400000000000 420000000
  ∧ Now (process_late 1793318400000000000 [0; 1] 100000000) = 1793318400000000000.
Proof.
  apply (clock_is_behind_by_100ms_and_lateness 1793318400000000000
           [20000; 0; 3000000; 0; 150000000] 420000000); [lia | lia | lia |].
  repeat (apply Forall_cons; split; [lia |]). apply Forall_nil_2.
Defined.

(** ** The laws on the example stores *)

Lemma Delete_then_Get_and_Delete_miss_witness :
  store_ok promoted_store
  ∧ ∃ s1 b evs s2 s3,
      Delete promoted_store "a" = Some (s1, b, evs)
      ∧ Get s1 1 1 "a" = Some (s2, (None, false), [])
      ∧ Delete s1 "a" = Some (s3, false, []).
Proof.
  split; [apply promoted_store_ok |].
  apply (Delete_then_Get_and_Delete_miss promoted_store "a" 1 1).
  apply promoted_store_ok.
Defined.

Lemma Set_twice_Get_returns_second_witness :
  store_ok small_store
  ∧ ∃ s1 evs1 s2 evs2 s3 evs3,
      Set_ small_store 0 "a" (Some 1) = Some (s1, evs1)
      ∧ Set_ s1 1 "a" (Some 2) = Some (s2, evs2)
      ∧ Get s2 2 2 "a" = Some (s3, (Some 2, true), evs3).
Proof.
  split; [apply small_store_ok |].
  apply (Set_twice_Get_returns_second small_store 0 1 2 2 "a" (Some 1) (Some 2)).
  - apply small_store_ok.
  - vm_compute. reflexivity.
  - vm_compute. reflexivity.
  - vm_compute. reflexivity.
Defined.

Lemma Get_twice_returns_same_witness :
  store_ok small_store
  ∧ ∃ s1 evs1 s2 evs2 s3,
      Set_ small_store 0 "a" (Some 1) = Some (s1, evs1)
      ∧ Get s1 1 1 "a" = Some (s2, (Some 1, true), evs2)
      ∧ Get s2 2 2 "a" = Some (s3, (Some 1, true), []).
Proof.
  split; [apply small_store_ok |].
  apply (Get_twice_returns_same small_store 0 1 1 2 2 "a" (Some 1)).
  - apply small_store_ok.
  - vm_compute. reflexivity.
  - vm_compute. reflexivity.
  - vm_compute. reflexivity.
  - vm_compute. reflexivity.
  - vm_compute. reflexivity.
Defined.

Lemma SetWithExpiration_then_Get_after_expiry_witness :
  store_ok small_store
  ∧ ∃ s1 evs1 s2,
      SetWithExpiration small_store 0 "a" (Some 7) 5 = Some (s1, evs1)
      ∧ Get s1 5 5 "a" = Some (s2, (None, false), []).
Proof.
  split; [apply small_store_ok |].
  destruct (SetWithExpiration_then_Get_after_expiry small_store 0 5 5 "a" (Some 7) 5
              (Create 1, Create 1))
    as (s1 & evs1 & s2 & evs2 & p2 & Hset & Hget & _ & _ & _ & Hev).
  - apply small_store_ok.
  - reflexivity.
  - lia.
  - vm_compute. reflexivity.
  - vm_compute. discriminate.
  - exists s1, evs1, s2. split; [exact Hset |]. rewrite Hget, (Hev eq_refl).
    reflexivity.
Defined.

Lemma Get_and_Delete_of_unmapped_key_change_nothing_witness :
  store_ok promoted_store
  ∧ Get promoted_store 1 1 "k" = Some (promoted_store, (None, false), [])
  ∧ Delete promoted_store "k" = Some (promoted_store, false, []).
Proof.
  split; [apply promoted_store_ok |].
  apply (Get_and_Delete_of_unmapped_key_change_nothing promoted_store 1 1 "k"
           (one_slot "a" (Some 7) 0, one_slot "a" (Some 7) 5)).
  - apply promoted_store_ok.
  - reflexivity.
  - reflexivity.
  - reflexivity.
Defined.

Lemma newLRU2Cache_is_empty_witness :
  Z.of_nat (length (caches (newLRU2Cache (V := Z)
     {| BucketCount := 5; CapPerBucket := 0; Level2Cap := 3;
        CleanupInterval := 0; OnEvicted := false |}))) = 8
  ∧ Len 0 (newLRU2Cache (V := Z)
     {| BucketCount := 5; CapPerBucket := 0; Level2Cap := 3;
        CleanupInterval := 0; OnEvicted := false |}) = Some 0.
Proof.
  destruct (newLRU2Cache_is_empty (V := Z)
              {| BucketCount := 5; CapPerBucket := 0; Level2Cap := 3;
                 CleanupInterval := 0; OnEvicted := false |} 0 0 0 "a")
    as (Hlen & _ & _ & HLen).
  - simpl. lia.
  - simpl. lia.
  - simpl. lia.
  - split; [exact Hlen | exact HLen].
Defined.

Lemma newLRU2Cache_too_many_buckets_has_no_shard_witness :
  caches (newLRU2Cache (V := Z)
     {| BucketCount := 40000; CapPerBucket := 4; Level2Cap := 4;
        CleanupInterval := 0; OnEvicted := false |}) = []
  ∧ Set_ (newLRU2Cache (V := Z)
     {| BucketCount := 40000; CapPerBucket := 4; Level2Cap := 4;
        CleanupInterval := 0; OnEvicted := false |}) 0 "a" (Some 1) = None.
Proof.
  destruct (newLRU2Cache_too_many_buckets_has_no_shard (V := Z)
              {| BucketCount := 40000; CapPerBucket := 4; Level2Cap := 4;
                 CleanupInterval := 0; OnEvicted := false |} 0 0 "a" (Some 1) 0)
    as (_ & Hc & _ & Hset & _).
  - simpl. lia.
  - split; [exact Hc | exact Hset].
Defined.

End StoreLaws.

(** * The order of use, and the store as a whole *)

Module StoreOrder.
Import Store StoreSpec.

(** ** Successors in a list without repetition *)

Lemma succ_in_app A B a : a ∉ A → succ_in (A ++ a :: B) a = hd 0 B.
Proof.
  induction A as [| y A IH]; intros Hn; simpl.
  - by rewrite decide_True.
  - rewrite decide_False; [| set_solver]. apply IH. set_solver.
Qed.

Lemma succ_in_absent xs a : a ∉ xs → succ_in xs a = 0.
Proof.
  induction xs as [| y ys IH]; intros Hn; simpl; [done |].
  rewrite decide_False; [| set_solver]. apply IH. set_solver.
Qed.

Lemma hd_elem (ys : list Z) : hd 0 ys = 0 ∨ hd 0 ys ∈ ys.
Proof. destruct ys; simpl; [by left | right; set_solver]. Qed.

Lemma succ_in_elem xs a : succ_in xs a = 0 ∨ succ_in xs a ∈ xs.
Proof.
  induction xs as [| y ys IH]; simpl; [by left |].
  case_decide.
  - destruct (hd_elem ys); [by left | right; set_solver].
  - destruct IH; [by left | right; set_solver].
Qed.

(** Removing [x] from a list without repetition: the successor of an
    element skips [x]. *)
Lemma filter_absent (zs : list Z) x : x ∉ zs → filter (λ y, y ≠ x) zs = zs.
Proof.
  intros Hzs. induction zs as [| z zs IHz]; [done |].
  rewrite filter_cons_True by set_solver. f_equal. apply IHz. set_solver.
Qed.

Lemma succ_in_filter ys x a :
  NoDup ys → x ≠ 0 → a ≠ x →
  succ_in (filter (λ y, y ≠ x) ys) a
  = if decide (succ_in ys a = x) then succ_in ys x else succ_in ys a.
Proof.
  intros Hnd Hx Ha. induction ys as [| y ys IH].
  - simpl. by case_decide.
  - apply NoDup_cons in Hnd as [Hy Hnd]. specialize (IH Hnd).
    destruct (decide (y = x)) as [-> | Hyx].
    + rewrite filter_cons_False by tauto. rewrite filter_absent by done.
      simpl. rewrite (decide_False (P := a = x)) by done.
      rewrite decide_False; [done |].
      destruct (succ_in_elem ys a) as [E | E]; [lia | intros E'; congruence].
    + rewrite filter_cons_True by done. simpl.
      rewrite (decide_False (P := x = y)) by done.
      destruct (decide (a = y)) as [-> | Hay]; [| exact IH].
      destruct ys as [| z zs]; simpl.
      { by rewrite decide_False. }
      destruct (decide (z = x)) as [-> | Hzx].
      * rewrite filter_cons_False by tauto. rewrite decide_True by done.
        apply NoDup_cons in Hnd as [Hz Hnd]. by rewrite filter_absent.
      * by rewrite filter_cons_True by done.
Qed.

Section Order.
Variable xs : list Z.
Hypothesis ND : NoDup (0 :: xs).

Lemma zero_notin : 0 ∉ xs.
Proof. by apply NoDup_cons in ND as [? _]. Qed.

Lemma ND_xs : NoDup xs.
Proof. by apply NoDup_cons in ND as [_ ?]. Qed.

Lemma succ_closed a : succ_in (0 :: xs) a ∈ 0 :: xs.
Proof. destruct (succ_in_elem (0 :: xs) a) as [-> | ?]; set_solver. Qed.

End Order.

Lemma ND_reverse xs : NoDup (0 :: xs) → NoDup (0 :: reverse xs).
Proof.
  intros [H0 Hnd]%NoDup_cons. apply NoDup_cons. split.
  - by rewrite elem_of_reverse.
  - by rewrite reverse_Permutation.
Qed.

(** The successor along the reversed order undoes the successor. *)
Lemma succ_reverse xs a :
  NoDup (0 :: xs) → a ∈ 0 :: xs →
  succ_in (0 :: reverse xs) (succ_in (0 :: xs) a) = a.
Proof.
  intros Hnd Ha. pose proof (zero_notin xs Hnd) as H0.
  pose proof (ND_xs xs Hnd) as Hx.
  apply elem_of_cons in Ha as [-> | Ha].
  - simpl. destruct xs as [| h T]; simpl; [done |].
    rewrite decide_False by set_solver. rewrite reverse_cons.
    rewrite succ_in_app; [done |]. rewrite elem_of_reverse.
    by apply NoDup_cons in Hx as [? _].
  - apply list_elem_of_split in Ha as (A & B & ->).
    apply NoDup_app in Hx as (HA & HAB & HB).
    apply NoDup_cons in HB as [HaB HB].
    assert (a ≠ 0) as Ha0 by set_solver.
    assert (a ∉ A) as HaA by (intros Hin; apply (HAB a Hin); set_solver).
    assert (succ_in (0 :: A ++ a :: B) a = hd 0 B) as ->.
    { simpl. rewrite decide_False by done. by rewrite succ_in_app. }
    destruct B as [| b B']; simpl.
    + by rewrite reverse_app.
    + assert (b ≠ 0) as Hb0 by set_solver.
      rewrite decide_False by done.
      rewrite reverse_app, !reverse_cons.
      rewrite <- !(assoc_L (++)). simpl.
      rewrite succ_in_app; [done |]. rewrite elem_of_reverse.
      by apply NoDup_cons in HB as [? _].
Qed.

Lemma nbr_inverse d xs a :
  NoDup (0 :: xs) → a ∈ 0 :: xs → nbr (opp d) xs (nbr d xs a) = a.
Proof.
  intros Hnd Ha. destruct d; unfold nbr, opp.
  - pose proof (succ_reverse (reverse xs) a (ND_reverse _ Hnd)) as H.
    rewrite reverse_involutive in H. apply H.
    rewrite elem_of_cons, elem_of_reverse, <- elem_of_cons. done.
  - by apply succ_reverse.
Qed.

Lemma nbr_closed d xs a : nbr d xs a ∈ 0 :: xs.
Proof.
  destruct d; unfold nbr, opp.
  - pose proof (succ_in_elem (0 :: reverse xs) a) as [-> | H]; [set_solver |].
    rewrite elem_of_cons, elem_of_reverse in H. set_solver.
  - destruct (succ_in_elem (0 :: xs) a) as [-> | ?]; set_solver.
Qed.

Lemma succ_ne xs x : NoDup (0 :: xs) → x ∈ xs → succ_in (0 :: xs) x ≠ x.
Proof.
  intros Hnd Hx. pose proof (zero_notin xs Hnd) as H0.
  pose proof (ND_xs xs Hnd) as Hxs.
  assert (x ≠ 0) by set_solver.
  apply list_elem_of_split in Hx as (A & B & ->).
  apply NoDup_app in Hxs as (HA & HAB & HB).
  apply NoDup_cons in HB as [HxB HB].
  assert (x ∉ A) as HxA by (intros Hin; apply (HAB x Hin); set_solver).
  simpl. rewrite decide_False by done. rewrite succ_in_app by done.
  destruct (hd_elem B) as [-> | Hin]; [done |]. intros E. by rewrite E in Hin.
Qed.

Lemma nbr_ne d xs x : NoDup (0 :: xs) → x ∈ xs → nbr d xs x ≠ x.
Proof.
  intros Hnd Hx. destruct d; unfold nbr, opp.
  - apply succ_ne; [by apply ND_reverse | by rewrite elem_of_reverse].
  - by apply succ_ne.
Qed.

Lemma nbr_injective d xs a b :
  NoDup (0 :: xs) → a ∈ 0 :: xs → b ∈ 0 :: xs → nbr d xs a = nbr d xs b → a = b.
Proof.
  intros Hnd Ha Hb E.
  rewrite <- (nbr_inverse d xs a Hnd Ha), <- (nbr_inverse d xs b Hnd Hb).
  by rewrite E.
Qed.

Lemma nbr_inverse' d xs a :
  NoDup (0 :: xs) → a ∈ 0 :: xs → nbr d xs (nbr (opp d) xs a) = a.
Proof. intros. pose proof (nbr_inverse (opp d) xs a). by destruct d; auto. Qed.

Lemma nbr_reverse d xs a : nbr d (reverse xs) a = nbr (opp d) xs a.
Proof. destruct d; unfold nbr, opp; by rewrite ?reverse_involutive. Qed.

Lemma nbr_sentinel d xs : xs ≠ [] → nbr d xs 0 ∈ xs.
Proof.
  assert (∀ ys, ys ≠ [] → nbr next ys 0 ∈ ys) as Hn.
  { intros [| y ys] Hne; [done |]. unfold nbr. simpl. set_solver. }
  intros Hne. destruct d; [| by apply Hn].
  rewrite <- (nbr_reverse next), <- elem_of_reverse. apply Hn.
  intros E. apply Hne. by rewrite <- (reverse_involutive xs), E.
Qed.

(** ** Moving an element to an end *)

Lemma moved_reverse x xs : moved pre x xs = reverse (moved next x (reverse xs)).
Proof.
  unfold moved, to_back, to_front. rewrite reverse_cons.
  by rewrite filter_reverse, reverse_involutive.
Qed.

Lemma elem_of_moved tail x xs a : x ∈ xs → a ∈ moved tail x xs ↔ a ∈ xs.
Proof.
  intros Hx. destruct tail; unfold moved, to_back, to_front.
  - rewrite elem_of_app, list_elem_of_filter, list_elem_of_singleton.
    destruct (decide (a = x)) as [-> | ?]; naive_solver.
  - rewrite elem_of_cons, list_elem_of_filter.
    destruct (decide (a = x)) as [-> | ?]; naive_solver.
Qed.

Lemma NoDup_moved tail x xs : NoDup xs → NoDup (moved tail x xs).
Proof.
  intros Hnd. destruct tail; unfold moved, to_back, to_front.
  - apply NoDup_app. split_and!.
    + by apply NoDup_filter.
    + intros a [Ha _]%list_elem_of_filter ->%list_elem_of_singleton. done.
    + apply NoDup_singleton.
  - apply NoDup_cons. split; [| by apply NoDup_filter].
    by intros [? _]%list_elem_of_filter.
Qed.

Lemma to_front_split x A B :
  NoDup (A ++ x :: B) → to_front x (A ++ x :: B) = x :: A ++ B.
Proof.
  intros (HA & HAB & [HxB HB]%NoDup_cons)%NoDup_app. unfold to_front. f_equal.
  rewrite filter_app, filter_cons_False by tauto.
  rewrite !filter_absent; [done | done |].
  intros Hin. apply (HAB x Hin). set_solver.
Qed.

Lemma to_back_split x A B :
  NoDup (A ++ x :: B) → to_back x (A ++ x :: B) = A ++ B ++ [x].
Proof.
  intros (HA & HAB & [HxB HB]%NoDup_cons)%NoDup_app. unfold to_back.
  rewrite filter_app, filter_cons_False by tauto.
  rewrite !filter_absent; [by rewrite <- (assoc_L (++)) | done |].
  intros Hin. apply (HAB x Hin). set_solver.
Qed.

(** [x] is already at the end it would be moved to. *)
Lemma moved_noop tail x xs :
  NoDup (0 :: xs) → x ∈ xs → nbr (opp tail) xs x = 0 → moved tail x xs = xs.
Proof.
  assert (∀ ys, NoDup (0 :: ys) → x ∈ ys → nbr pre ys x = 0 → to_front x ys = ys)
    as Hfront.
  { intros ys Hnd Hx E. destruct ys as [| y ys']; [set_solver |].
    destruct (decide (y = x)) as [-> | Hyx].
    - change (x :: ys') with ([] ++ x :: ys'). rewrite to_front_split; [done |].
      by apply NoDup_cons in Hnd as [_ ?].
    - exfalso. assert (x ∈ ys') as Hx' by set_solver.
      pose proof (nbr_inverse pre _ x Hnd ltac:(set_solver)) as E'.
      rewrite E in E'. unfold nbr, opp in E'. simpl in E'. congruence. }
  intros Hnd Hx E. destruct tail; simpl in E.
  - rewrite moved_reverse. simpl moved. rewrite (Hfront (reverse xs)).
    + apply reverse_involutive.
    + by apply ND_reverse.
    + by rewrite elem_of_reverse.
    + by rewrite nbr_reverse.
  - by apply Hfront.
Qed.

(** The inverse of the successor is determined by the successor. *)
Lemma nbr_pre_unique ys (F' G' : Z → Z) :
  NoDup (0 :: ys) →
  (∀ a, a ∈ 0 :: ys → nbr next ys a = F' a) →
  (∀ a, a ∈ 0 :: ys → G' (F' a) = a) →
  ∀ b, b ∈ 0 :: ys → nbr pre ys b = G' b.
Proof.
  intros Hnd HF HG b Hb.
  pose proof (nbr_closed pre ys b) as Ha.
  pose proof (nbr_inverse pre ys b Hnd Hb) as E. change (opp pre) with next in E.
  rewrite HF in E by done. rewrite <- E at 2. by rewrite HG.
Qed.

Lemma to_front_next xs x a :
  NoDup (0 :: xs) → x ∈ xs → nbr pre xs x ≠ 0 → a ∈ 0 :: xs →
  nbr next (to_front x xs) a
  = if decide (a = 0) then x
    else if decide (a = x) then nbr next xs 0
    else if decide (a = nbr pre xs x) then nbr next xs x
    else nbr next xs a.
Proof.
  intros Hnd Hx Hp Ha. pose proof (zero_notin xs Hnd) as H0.
  pose proof (ND_xs xs Hnd) as Hxs.
  assert (x ≠ 0) as Hx0 by set_solver.
  unfold nbr at 1. unfold to_front.
  destruct (decide (a = 0)) as [-> | Ha0]; [done |].
  assert (succ_in (0 :: x :: filter (λ y, y ≠ x) xs) a
          = succ_in (x :: filter (λ y, y ≠ x) xs) a) as ->.
  { simpl. by rewrite decide_False. }
  destruct (decide (a = x)) as [-> | Hax].
  - simpl. rewrite decide_True by done.
    destruct xs as [| y ys]; [set_solver |].
    destruct (decide (y = x)) as [-> | Hyx].
    + exfalso. apply Hp. unfold nbr. rewrite reverse_cons.
      change (0 :: reverse ys ++ [x]) with ((0 :: reverse ys) ++ [x]).
      rewrite succ_in_app; [done |].
      rewrite elem_of_cons, elem_of_reverse.
      apply NoDup_cons in Hxs as [? _]. naive_solver.
    + by rewrite filter_cons_True by done.
  - assert (succ_in (x :: filter (λ y, y ≠ x) xs) a
            = succ_in (filter (λ y, y ≠ x) xs) a) as ->.
    { simpl. by rewrite decide_False. }
    rewrite succ_in_filter by done.
    assert (∀ b, b ≠ 0 → nbr next xs b = succ_in xs b) as Hn.
    { intros b Hb. unfold nbr. simpl. by rewrite decide_False. }
    rewrite <- !Hn by done.
    destruct (decide (nbr next xs a = x)) as [E | E].
    + rewrite decide_True; [done |].
      rewrite <- E. symmetry. by apply (nbr_inverse next).
    + rewrite decide_False; [done |]. intros ->. apply E.
      apply (nbr_inverse' next); [done | set_solver].
Qed.

(** The two neighbours of every element after [x] was moved to an end. *)
Lemma nbr_moved tail xs x a :
  NoDup (0 :: xs) → x ∈ xs → nbr (opp tail) xs x ≠ 0 → a ∈ 0 :: xs →
  nbr tail (moved tail x xs) a
  = (if decide (a = 0) then x
     else if decide (a = x) then nbr tail xs 0
     else if decide (a = nbr (opp tail) xs x) then nbr tail xs x
     else nbr tail xs a)
  ∧ nbr (opp tail) (moved tail x xs) a
    = (if decide (a = nbr tail xs 0) then x
       else if decide (a = x) then 0
       else if decide (a = nbr tail xs x) then nbr (opp tail) xs x
       else nbr (opp tail) xs a).
Proof.
  assert (∀ ys b, NoDup (0 :: ys) → x ∈ ys → nbr pre ys x ≠ 0 → b ∈ 0 :: ys →
    nbr pre (to_front x ys) b
    = if decide (b = nbr next ys 0) then x
      else if decide (b = x) then 0
      else if decide (b = nbr next ys x) then nbr pre ys x
      else nbr pre ys b) as Hpre.
  { intros ys b Hnd Hx Hp Hb.
    assert (x ≠ 0) as Hx0.
    { intros ->. by apply NoDup_cons in Hnd as [? _]. }
    assert (x ∈ 0 :: ys) as Hx' by set_solver.
    assert (0 ∈ 0 :: ys) as H0' by set_solver.
    assert (NoDup (0 :: to_front x ys)) as Hnd'.
    { apply NoDup_cons in Hnd as [H0 Hnd]. apply NoDup_cons. split.
      - rewrite (elem_of_moved next x ys 0 Hx). done.
      - apply (NoDup_moved next x ys Hnd). }
    assert (∀ a, a ∈ 0 :: to_front x ys ↔ a ∈ 0 :: ys) as Hel.
    { intros a'. rewrite !elem_of_cons. by rewrite (elem_of_moved next x ys a' Hx). }
    pose (F' := λ a : Z,
            if decide (a = 0) then x
            else if decide (a = x) then nbr next ys 0
            else if decide (a = nbr pre ys x) then nbr next ys x
            else nbr next ys a).
    pose (G' := λ b : Z,
            if decide (b = nbr next ys 0) then x
            else if decide (b = x) then 0
            else if decide (b = nbr next ys x) then nbr pre ys x
            else nbr pre ys b).
    apply (nbr_pre_unique (to_front x ys) F' G'); [done | | | by apply Hel].
    - intros a' Ha'. apply to_front_next; try done. by apply Hel.
    - intros a' Ha'%Hel. unfold F', G'.
      pose proof (nbr_ne next ys x Hnd Hx) as Hne.
      destruct (decide (a' = 0)) as [-> | Ha0].
      { rewrite decide_False.
        - by rewrite decide_True.
        - intros E. apply Hp. rewrite E. by apply (nbr_inverse next). }
      destruct (decide (a' = x)) as [-> | Hax].
      { by rewrite decide_True. }
      destruct (decide (a' = nbr pre ys x)) as [-> | Hap].
      { rewrite decide_False.
        - rewrite decide_False by done. by rewrite decide_True.
        - intros E. apply Hx0. by apply (nbr_injective next ys). }
      rewrite decide_False.
      2:{ intros E. apply Ha0. by apply (nbr_injective next ys). }
      rewrite decide_False.
      2:{ intros E. apply Hap. rewrite <- E. symmetry. by apply (nbr_inverse next). }
      rewrite decide_False.
      2:{ intros E. apply Hax. by apply (nbr_injective next ys). }
      by apply (nbr_inverse next). }
  intros Hnd Hx Hp Ha. destruct tail; simpl opp in *.
  - rewrite moved_reverse, !nbr_reverse. simpl opp.
    rewrite <- !(nbr_reverse next xs), <- !(nbr_reverse pre xs) in *.
    assert (NoDup (0 :: reverse xs)) as Hnd' by by apply ND_reverse.
    assert (x ∈ reverse xs) as Hx' by by rewrite elem_of_reverse.
    assert (a ∈ 0 :: reverse xs) as Ha'.
    { revert Ha. rewrite !elem_of_cons, elem_of_reverse. done. }
    split; [by apply to_front_next | by apply Hpre].
  - split; [by apply to_front_next | by apply Hpre].
Qed.

Lemma NoDup_sentinel_moved tail x xs :
  NoDup (0 :: xs) → x ∈ xs → NoDup (0 :: moved tail x xs).
Proof.
  intros [H0 Hnd]%NoDup_cons Hx. apply NoDup_cons. split.
  - by rewrite (elem_of_moved tail x xs 0 Hx).
  - by apply NoDup_moved.
Qed.

(** ** The link array as a function *)

Lemma rd_Some l i d : 0 ≤ i < Z.of_nat (length l) → is_Some (rd l i d).
Proof.
  intros Hi. unfold rd.
  destruct (lookup_lt_is_Some_2 l (Z.to_nat i)) as [p ->]; [lia | by eexists].
Qed.

Lemma rd_range l i d x : 0 ≤ i → rd l i d = Some x → 0 ≤ i < Z.of_nat (length l).
Proof.
  intros Hi E. unfold rd in E.
  destruct (l !! Z.to_nat i) as [p |] eqn:Hp; [| done].
  apply lookup_lt_Some in Hp. lia.
Qed.

Lemma wr_rd l i d x :
  0 ≤ i < Z.of_nat (length l) →
  ∃ l', wr l i d x = Some l' ∧ length l' = length l
    ∧ (∀ j, 0 ≤ j → rd l' j d = if decide (j = i) then Some x else rd l j d)
    ∧ (∀ j d', d' ≠ d → rd l' j d' = rd l j d').
Proof.
  intros Hi. unfold wr.
  destruct (lookup_lt_is_Some_2 l (Z.to_nat i)) as [p Hp]; [lia |].
  rewrite Hp. simpl. eexists. split; [done |].
  split; [by rewrite length_insert |]. split.
  - intros j Hj. unfold rd. case_decide as E.
    + subst j. rewrite list_lookup_insert_eq by lia. by destruct d.
    + rewrite list_lookup_insert_ne by lia. done.
  - intros j d' Hd. unfold rd.
    destruct (decide (Z.to_nat j = Z.to_nat i)) as [E | E].
    + rewrite E, list_lookup_insert_eq by lia. rewrite Hp.
      by destruct d, d', p.
    + by rewrite list_lookup_insert_ne by lia.
Qed.

Lemma rd_insert l i (p : Z * Z) j d :
  0 ≤ i < Z.of_nat (length l) → 0 ≤ j →
  rd (<[Z.to_nat i := p]> l) j d = if decide (j = i) then Some (col d p) else rd l j d.
Proof.
  intros Hi Hj. unfold rd. case_decide as E.
  - subst j. by rewrite list_lookup_insert_eq by lia.
  - by rewrite list_lookup_insert_ne by lia.
Qed.

(** The links [adjust] leaves behind when it moves [idx]: [p] and [q] are
    the neighbours of [idx] towards [front] and [tail], [h] the node the
    sentinel had towards [tail]. *)
Lemma adjust_spec l idx front tail p q h :
  front ≠ tail →
  0 < idx < Z.of_nat (length l) → 0 < p < Z.of_nat (length l) →
  0 ≤ q < Z.of_nat (length l) → 0 ≤ h < Z.of_nat (length l) →
  rd l idx front = Some p → rd l idx tail = Some q → rd l 0 tail = Some h →
  ∃ l', adjust l idx front tail = Some l' ∧ length l' = length l
    ∧ (∀ j, 0 ≤ j →
        rd l' j tail = if decide (j = 0) then Some idx
                       else if decide (j = idx) then Some h
                       else if decide (j = p) then Some q
                       else rd l j tail)
    ∧ (∀ j, 0 ≤ j →
        rd l' j front = if decide (j = h) then Some idx
                        else if decide (j = idx) then Some 0
                        else if decide (j = q) then Some p
                        else rd l j front).
Proof.
  intros Hft Hidx Hp Hq Hh Ep Eq Eh. unfold adjust.
  rewrite Ep. simpl. rewrite decide_True by lia. rewrite Eq. simpl.
  destruct (wr_rd l q front p Hq) as (l1 & -> & Hn1 & Hs1 & Ho1). simpl.
  rewrite (Ho1 idx tail) by done. rewrite Eq. simpl.
  destruct (wr_rd l1 p tail q ltac:(lia)) as (l2 & -> & Hn2 & Hs2 & Ho2). simpl.
  destruct (wr_rd l2 idx front 0 ltac:(lia)) as (l3 & -> & Hn3 & Hs3 & Ho3). simpl.
  assert (rd l3 0 tail = Some h) as ->.
  { rewrite (Ho3 0 tail) by done. rewrite Hs2 by lia.
    case_decide; [lia |]. rewrite (Ho1 0 tail) by done. done. }
  simpl.
  destruct (wr_rd l3 idx tail h ltac:(lia)) as (l4 & -> & Hn4 & Hs4 & Ho4). simpl.
  assert (rd l4 0 tail = Some h) as ->.
  { rewrite Hs4 by lia. case_decide; [lia |].
    rewrite (Ho3 0 tail) by done. rewrite Hs2 by lia.
    case_decide; [lia |]. rewrite (Ho1 0 tail) by done. done. }
  simpl.
  destruct (wr_rd l4 h front idx ltac:(lia)) as (l5 & -> & Hn5 & Hs5 & Ho5). simpl.
  destruct (wr_rd l5 0 tail idx ltac:(lia)) as (l6 & -> & Hn6 & Hs6 & Ho6).
  exists l6. split; [done |]. split; [lia |]. split.
  - intros j Hj. rewrite Hs6 by done. case_decide; [done |].
    rewrite (Ho5 j tail) by done. rewrite Hs4 by done. case_decide; [done |].
    rewrite (Ho3 j tail) by done. rewrite Hs2 by done. case_decide; [done |].
    by rewrite (Ho1 j tail) by done.
  - intros j Hj. rewrite (Ho6 j front) by done. rewrite Hs5 by done.
    case_decide; [done |].
    rewrite (Ho4 j front) by done. rewrite Hs3 by done. case_decide; [done |].
    rewrite (Ho2 j front) by done. rewrite Hs1 by done. done.
Qed.

Lemma adjust_noop l idx front tail :
  rd l idx front = Some 0 → adjust l idx front tail = Some l.
Proof. intros E. unfold adjust. by rewrite E. Qed.

(** ** A threaded link array *)

Lemma threaded_range l xs a :
  threaded l xs → a ∈ 0 :: xs → 0 ≤ a → 0 ≤ a < Z.of_nat (length l).
Proof. intros Hl Ha H0. apply (rd_range l a next (nbr next xs a) H0). by apply Hl. Qed.

(** [adjust] moves [idx] to an end of the order and leaves the rest of
    the order and every link outside of it alone. *)
Lemma adjust_threaded l xs idx tail :
  threaded l xs → NoDup (0 :: xs) → (∀ x, x ∈ xs → 0 < x) → idx ∈ xs →
  ∃ l', adjust l idx (opp tail) tail = Some l' ∧ length l' = length l
    ∧ threaded l' (moved tail idx xs).
Proof.
  intros Hl Hnd Hpos Hidx.
  assert (∀ a, a ∈ 0 :: xs → 0 ≤ a) as Hnn.
  { intros a [-> | Ha]%elem_of_cons; [done |]. specialize (Hpos _ Ha). lia. }
  assert (∀ a, a ∈ 0 :: xs → 0 ≤ a < Z.of_nat (length l)) as Hrg.
  { intros a Ha. apply (threaded_range l xs); auto. }
  assert (idx ∈ 0 :: xs) as Hidx' by set_solver.
  assert (0 ∈ 0 :: xs) as H0 by set_solver.
  destruct (decide (nbr (opp tail) xs idx = 0)) as [Ez | Enz].
  - exists l. rewrite (moved_noop tail idx xs) by done. split_and!; try done.
    apply adjust_noop. rewrite Hl by done. by rewrite Ez.
  - pose proof (nbr_closed (opp tail) xs idx) as Hp.
    pose proof (nbr_closed tail xs idx) as Hq.
    pose proof (nbr_closed tail xs 0) as Hh.
    destruct (adjust_spec l idx (opp tail) tail
                (nbr (opp tail) xs idx) (nbr tail xs idx) (nbr tail xs 0))
      as (l' & E & Hlen & Ht & Hf); auto.
    + by destruct tail.
    + specialize (Hpos _ Hidx). specialize (Hrg _ Hidx'). lia.
    + specialize (Hrg _ Hp). lia.
    + exists l'. split_and!; try done.
      intros a d Ha.
      assert (a ∈ 0 :: xs) as Ha'.
      { revert Ha. rewrite !elem_of_cons. by rewrite (elem_of_moved tail idx xs a Hidx). }
      destruct (nbr_moved tail xs idx a Hnd Hidx Enz Ha') as [Et Ef].
      assert (d = tail ∨ d = opp tail) as [-> | ->] by (destruct d, tail; auto).
      * rewrite Ht by auto. rewrite Et. repeat case_decide; try done; by apply Hl.
      * rewrite Hf by auto. rewrite Ef. repeat case_decide; try done; by apply Hl.
Qed.

(** The neighbours after a new element was put in front. *)
Lemma nbr_cons xs x a :
  NoDup (0 :: x :: xs) → a ∈ 0 :: x :: xs →
  nbr next (x :: xs) a
  = (if decide (a = 0) then x
     else if decide (a = x) then nbr next xs 0
     else nbr next xs a)
  ∧ nbr pre (x :: xs) a
    = (if decide (a = x) then 0
       else if decide (a = nbr next xs 0) then x
       else nbr pre xs a).
Proof.
  intros Hnd Ha.
  assert (NoDup (0 :: xs)) as Hnd0.
  { apply NoDup_cons in Hnd as [H0 [Hx Hnd]%NoDup_cons].
    apply NoDup_cons. split; [set_solver | done]. }
  assert (x ≠ 0) as Hx0.
  { apply NoDup_cons in Hnd as [H0 _]. set_solver. }
  assert (x ∉ 0 :: xs) as HxC.
  { apply NoDup_cons in Hnd as [H0 [Hx Hnd]%NoDup_cons]. set_solver. }
  pose (F' := λ a : Z,
          if decide (a = 0) then x
          else if decide (a = x) then nbr next xs 0
          else nbr next xs a).
  pose (G' := λ b : Z,
          if decide (b = x) then 0
          else if decide (b = nbr next xs 0) then x
          else nbr pre xs b).
  assert (∀ b, b ∈ 0 :: x :: xs → nbr next (x :: xs) b = F' b) as HF.
  { intros b Hb. unfold F', nbr. simpl.
    destruct (decide (b = 0)) as [-> | Hb0]; [done |].
    destruct (decide (b = x)) as [-> | Hbx]; [by destruct xs |].
    done. }
  split; [by apply HF |].
  apply (nbr_pre_unique (x :: xs) F' G'); [done | done | | done].
  intros b Hb. unfold F', G'.
  destruct (decide (b = 0)) as [-> | Hb0].
  { by rewrite decide_True. }
  destruct (decide (b = x)) as [-> | Hbx].
  { rewrite decide_False.
    - by rewrite decide_True.
    - intros E. apply HxC. rewrite <- E. apply nbr_closed. }
  assert (b ∈ 0 :: xs) as Hb' by set_solver.
  rewrite decide_False.
  2:{ intros E. apply HxC. rewrite <- E. apply nbr_closed. }
  rewrite decide_False.
  2:{ intros E. apply Hb0. apply (nbr_injective next xs); [done | done | set_solver | done]. }
  by apply (nbr_inverse next).
Qed.

Lemma slot_inj x y : 1 ≤ x ≤ 65535 → 1 ≤ y ≤ 65535 → slot x = slot y → x = y.
Proof. intros Hx Hy. rewrite !slot_eq by lia. lia. Qed.

Section WithValue.
Context {V : Type}.
Implicit Types (c : cache V) (n : node V) (xs : list Z).

(** ** The invariant of a list *)

Lemma repr_sentinel c xs : repr c xs → NoDup (0 :: xs).
Proof.
  intros H. apply NoDup_cons. split; [| apply H].
  rewrite (repr_dom c xs H). lia.
Qed.

Lemma repr_pos c xs x : repr c xs → x ∈ xs → 0 < x.
Proof. intros H Hx. apply (repr_dom c xs H) in Hx. lia. Qed.

Lemma repr_slot c xs x :
  repr c xs → 1 ≤ x ≤ last c →
  slot x = Z.to_nat (x - 1) ∧ is_Some (m c !! slot x).
Proof.
  intros H Hx. pose proof (repr_cap c xs H). pose proof (repr_last c xs H).
  assert (slot x = Z.to_nat (x - 1)) as E by (apply slot_eq; lia).
  split; [done |]. rewrite E. apply lookup_lt_is_Some_2. lia.
Qed.

Lemma repr_slot_ne c xs x y :
  repr c xs → 1 ≤ x ≤ last c → 1 ≤ y ≤ last c → x ≠ y → slot x ≠ slot y.
Proof.
  intros H Hx Hy Hne E. pose proof (repr_cap c xs H). pose proof (repr_last c xs H).
  apply Hne, slot_inj; [lia | lia | done].
Qed.

Lemma repr_cache_ok_hmap c xs key idx :
  repr c xs → hmap c !! key = Some idx →
  1 ≤ idx ≤ last c ∧ idx ∈ xs ∧ ∃ n, m c !! slot idx = Some n ∧ k n = key.
Proof.
  intros H Hk. apply (repr_hmap c xs H) in Hk as [Hi Hn].
  split; [done |]. split; [by apply (repr_dom c xs H) | done].
Qed.

Lemma Create_repr (cap : Z) : 1 ≤ cap < 65535 → repr (Create (V := V) cap) [].
Proof.
  intros Hcap. constructor; simpl.
  - rewrite length_replicate. lia.
  - rewrite !length_replicate, wrap16_small by lia. lia.
  - lia.
  - constructor.
  - intros x. split; [by intros ?%elem_of_nil | lia].
  - intros a d [-> | []%elem_of_nil]%elem_of_cons. unfold rd.
    rewrite lookup_replicate_2.
    + by destruct d.
    + rewrite wrap16_small by lia. lia.
  - intros key idx. rewrite lookup_empty. split; [done | lia].
Qed.

(** A node is overwritten with one of the same key while the order
    changes to another order of the same indices. *)
Lemma repr_update c xs xs' d' idx n n' :
  repr c xs → 1 ≤ idx ≤ last c → m c !! slot idx = Some n → k n' = k n →
  length d' = length (dlnk c) → threaded d' xs' → NoDup xs' →
  (∀ x, x ∈ xs' ↔ x ∈ xs) →
  repr {| dlnk := d'; m := <[slot idx := n']> (m c); hmap := hmap c;
          last := last c |} xs'.
Proof.
  intros H Hidx Hn Hk Hlen Hthr Hnd Hel. constructor; simpl.
  - rewrite length_insert. apply H.
  - rewrite length_insert, Hlen. apply H.
  - rewrite length_insert. apply H.
  - done.
  - intros x. rewrite Hel. apply H.
  - done.
  - intros key j. rewrite (repr_hmap c xs H).
    split; intros [Hj (n0 & Hn0 & Hk0)]; (split; [done |]).
    + destruct (decide (j = idx)) as [-> | Hne].
      * exists n'. rewrite list_lookup_insert_eq by (by eapply lookup_lt_Some).
        split; [done |]. congruence.
      * exists n0. rewrite list_lookup_insert_ne; [done |].
        by apply (repr_slot_ne c xs).
    + destruct (decide (j = idx)) as [-> | Hne].
      * rewrite list_lookup_insert_eq in Hn0 by (by eapply lookup_lt_Some).
        exists n. split; [done |]. congruence.
      * rewrite list_lookup_insert_ne in Hn0; [by exists n0 |].
        by apply (repr_slot_ne c xs).
Qed.

Lemma repr_moved c xs idx n n' tail :
  repr c xs → idx ∈ xs → m c !! slot idx = Some n → k n' = k n →
  ∃ d', adjust (dlnk c) idx (opp tail) tail = Some d'
    ∧ repr {| dlnk := d'; m := <[slot idx := n']> (m c); hmap := hmap c;
              last := last c |} (moved tail idx xs).
Proof.
  intros H Hidx Hn Hk.
  destruct (adjust_threaded (dlnk c) xs idx tail) as (d' & E & Hlen & Hthr);
    [apply H | by eapply repr_sentinel | intros x; by apply (repr_pos c xs) | done |].
  exists d'. split; [done |].
  apply (repr_update c xs _ d' idx n n'); try done.
  - by apply (repr_dom c xs H).
  - apply NoDup_moved, H.
  - intros x. by apply elem_of_moved.
Qed.

End WithValue.

Section Operations.
Context {V : Type}.
Implicit Types (c : cache V) (n : node V) (xs : list Z).

(** ** [get], [del] and [put] on the order *)

Lemma get_present_repr c xs key idx n :
  repr c xs → hmap c !! key = Some idx → m c !! slot idx = Some n →
  ∃ c', get c key = Some (c', Some n, 1)
    ∧ repr c' (to_front idx xs)
    ∧ m c' = m c ∧ hmap c' = hmap c ∧ last c' = last c.
Proof.
  intros H Hk Hn. destruct (repr_cache_ok_hmap c xs key idx H Hk) as (Hi & Hx & _).
  destruct (repr_moved c xs idx n n next H Hx Hn eq_refl) as (d' & E & H').
  unfold get. rewrite Hk. simpl in E. rewrite E. simpl. rewrite Hn. simpl.
  eexists. split; [done |]. rewrite list_insert_id in H' by done.
  split_and!; done.
Qed.

Lemma get_absent c key : hmap c !! key = None → get c key = Some (c, None, 0).
Proof. intros Hk. unfold get. by rewrite Hk. Qed.

Lemma del_live_repr c xs key idx n :
  repr c xs → hmap c !! key = Some idx → m c !! slot idx = Some n →
  0 < expireAt n →
  ∃ c', del c key
        = Some (c', Some {| k := k n; v := v n; expireAt := 0 |}, 1, expireAt n)
    ∧ repr c' (to_back idx xs)
    ∧ m c' = <[slot idx := {| k := k n; v := v n; expireAt := 0 |}]> (m c)
    ∧ hmap c' = hmap c ∧ last c' = last c.
Proof.
  intros H Hk Hn He.
  destruct (repr_cache_ok_hmap c xs key idx H Hk) as (Hi & Hx & _).
  destruct (repr_moved c xs idx n {| k := k n; v := v n; expireAt := 0 |} pre
              H Hx Hn eq_refl) as (d' & E & H').
  unfold del. rewrite Hk, Hn. simpl. rewrite decide_True by done.
  simpl in E. rewrite E. simpl. eexists. split; [done |]. split_and!; done.
Qed.

Lemma del_dead_same c key idx n :
  hmap c !! key = Some idx → m c !! slot idx = Some n → ¬ 0 < expireAt n →
  del c key = Some (c, None, 0, 0).
Proof. intros Hk Hn He. unfold del. rewrite Hk, Hn. simpl. by rewrite decide_False. Qed.

Lemma del_absent c key : hmap c !! key = None → del c key = Some (c, None, 0, 0).
Proof. intros Hk. unfold del. by rewrite Hk. Qed.

Lemma put_present_repr c xs key val e cb idx n :
  repr c xs → hmap c !! key = Some idx → m c !! slot idx = Some n →
  ∃ c', put c key val e cb = Some (c', 0, [])
    ∧ repr c' (to_front idx xs)
    ∧ m c' = <[slot idx := {| k := k n; v := val; expireAt := e |}]> (m c)
    ∧ hmap c' = hmap c ∧ last c' = last c.
Proof.
  intros H Hk Hn.
  destruct (repr_cache_ok_hmap c xs key idx H Hk) as (Hi & Hx & _).
  destruct (repr_moved c xs idx n {| k := k n; v := val; expireAt := e |} next
              H Hx Hn eq_refl) as (d' & E & H').
  unfold put. rewrite Hk, Hn. simpl. simpl in E. rewrite E. simpl.
  eexists. split; [done |]. split_and!; done.
Qed.

Lemma repr_nonempty c xs : repr c xs → 1 ≤ last c → xs ≠ [].
Proof.
  intros H Hl ->. assert (1 ∈ @nil Z) as Hin%elem_of_nil; [| done].
  apply (repr_dom c [] H). lia.
Qed.

Lemma repr_size c xs : repr c xs → (size (hmap c) ≤ 0)%nat ↔ last c = 0.
Proof.
  intros H. split.
  - intros Hsz. destruct (decide (last c = 0)) as [| Hne]; [done |].
    pose proof (repr_last c xs H) as Hl.
    destruct (repr_slot c xs 1 H ltac:(lia)) as [_ [n Hn]].
    assert (hmap c !! k n = Some 1) as Hk.
    { apply (repr_hmap c xs H). split; [lia | eauto]. }
    assert (hmap c = ∅) as E by (apply map_size_empty_inv; lia).
    rewrite E, lookup_empty in Hk. done.
  - intros E. assert (hmap c = ∅) as ->; [| by rewrite map_size_empty].
    apply map_empty. intros key. destruct (hmap c !! key) as [idx |] eqn:Hk; [| done].
    apply (repr_hmap c xs H) in Hk as [Hi _]. lia.
Qed.

(** A new key while the list is full: the node at the tail is given to
    the new key and moved to the front. *)
Lemma put_full_repr c xs key val e cb :
  repr c xs → hmap c !! key = None → last c = Z.of_nat (length (m c)) →
  ∃ c' t old,
    rd (dlnk c) 0 pre = Some t ∧ t = nbr pre xs 0 ∧ t ∈ xs
    ∧ m c !! slot t = Some old
    ∧ put c key val e cb
      = Some (c', 1, if cb && bool_decide (0 < expireAt old)
                     then [(k old, v old)] else [])
    ∧ repr c' (to_front t xs)
    ∧ m c' = <[slot t := {| k := key; v := val; expireAt := e |}]> (m c)
    ∧ hmap c' = <[key := t]> (base.delete (k old) (hmap c))
    ∧ last c' = last c.
Proof.
  intros H Hk Hfull. pose proof (repr_cap c xs H) as Hcap.
  assert (xs ≠ []) as Hne by (apply (repr_nonempty c xs H); lia).
  pose proof (nbr_sentinel pre xs Hne) as Ht.
  set (t := nbr pre xs 0) in *.
  assert (rd (dlnk c) 0 pre = Some t) as Et.
  { apply (repr_links c xs H). set_solver. }
  pose proof (proj1 (repr_dom c xs H t) Ht) as Hti.
  destruct (repr_slot c xs t H Hti) as [Es [old Hold]].
  destruct (adjust_threaded (dlnk c) xs t next) as (d' & E & Hlen & Hthr);
    [apply H | by eapply repr_sentinel | intros x; by apply (repr_pos c xs) | done |].
  exists {| dlnk := d';
            m := <[slot t := {| k := key; v := val; expireAt := e |}]> (m c);
            hmap := <[key := t]> (base.delete (k old) (hmap c));
            last := last c |}, t, old.
  split_and!; try done.
  - unfold put. rewrite Hk. rewrite decide_True.
    2:{ rewrite wrap16_small by lia. done. }
    rewrite Et. simpl. rewrite Hold. simpl. simpl in E. rewrite E. done.
  - constructor; simpl.
    + rewrite length_insert. apply H.
    + rewrite length_insert, Hlen. apply H.
    + rewrite length_insert. apply H.
    + apply (NoDup_moved next), H.
    + intros x. rewrite (elem_of_moved next t xs x Ht). apply H.
    + done.
    + intros key' j.
      assert (hmap c !! k old = Some t) as Hko.
      { apply (repr_hmap c xs H). eauto. }
      destruct (decide (key' = key)) as [-> | Hkk].
      * rewrite lookup_insert_eq. split.
        -- intros [= <-]. split; [done |]. eexists.
           rewrite list_lookup_insert_eq by (by eapply lookup_lt_Some). done.
        -- intros [Hj (n0 & Hn0 & Hk0)].
           destruct (decide (j = t)) as [-> | Hjt]; [done |].
           rewrite list_lookup_insert_ne in Hn0.
           2:{ apply (repr_slot_ne c xs); auto. }
           assert (hmap c !! key = Some j) as Hc.
           { apply (repr_hmap c xs H). eauto. }
           congruence.
      * rewrite lookup_insert_ne by done.
        destruct (decide (j = t)) as [-> | Hjt].
        -- rewrite list_lookup_insert_eq by (by eapply lookup_lt_Some).
           split.
           ++ intros Hd. apply lookup_delete_Some in Hd as [Hne' Hd].
              apply (repr_hmap c xs H) in Hd as [_ (n0 & Hn0 & Hk0)].
              congruence.
           ++ intros [_ (n0 & [= <-] & Hk0)]. simpl in Hk0. congruence.
        -- split.
           ++ intros Hd. apply lookup_delete_Some in Hd as [Hne' Hd].
              apply (repr_hmap c xs H) in Hd as [Hj (n0 & Hn0 & Hk0)].
              split; [done |]. exists n0. split; [| done].
              rewrite list_lookup_insert_ne; [done |].
              by apply (repr_slot_ne c xs).
           ++ intros [Hj (n0 & Hn0 & Hk0)].
              rewrite list_lookup_insert_ne in Hn0.
              2:{ by apply (repr_slot_ne c xs). }
              apply lookup_delete_Some. split.
              ** intros <-. apply Hjt.
                 assert (hmap c !! k old = Some j) as Hc.
                 { apply (repr_hmap c xs H). eauto. }
                 congruence.
              ** apply (repr_hmap c xs H). eauto.
Qed.

Lemma repr_empty c xs : repr c xs → last c = 0 → xs = [].
Proof.
  intros H E. destruct xs as [| x xs']; [done |].
  assert (1 ≤ x ≤ last c); [| lia]. apply (repr_dom c _ H). set_solver.
Qed.

(** A new key while there is room: the next unused node is taken and put
    in front. *)
Lemma put_fresh_repr c xs key val e cb :
  repr c xs → hmap c !! key = None → last c ≠ Z.of_nat (length (m c)) →
  ∃ c', put c key val e cb = Some (c', 1, [])
    ∧ repr c' ((last c + 1) :: xs)
    ∧ m c' = <[slot (last c + 1) := {| k := key; v := val; expireAt := e |}]> (m c)
    ∧ hmap c' = <[key := last c + 1]> (hmap c)
    ∧ last c' = last c + 1.
Proof.
  intros H Hk Hroom. pose proof (repr_cap c xs H) as Hcap.
  pose proof (repr_last c xs H) as Hlast. pose proof (repr_len c xs H) as Hlen.
  pose proof (repr_sentinel c xs H) as Hnd.
  set (L := last c + 1). set (h := nbr next xs 0).
  assert (rd (dlnk c) 0 next = Some h) as Eh.
  { apply (repr_links c xs H). set_solver. }
  assert (h ∈ 0 :: xs) as Hh by apply nbr_closed.
  assert (∀ a, a ∈ 0 :: xs → 0 ≤ a < L) as Hrg.
  { intros a [-> | Ha]%elem_of_cons; [lia |].
    apply (repr_dom c xs H) in Ha. lia. }
  assert (L ∉ 0 :: xs) as HL.
  { intros Hin. specialize (Hrg _ Hin). lia. }
  assert (NoDup (0 :: L :: xs)) as Hnd'.
  { apply NoDup_cons in Hnd as [H0 Hnd]. apply NoDup_cons. split; [set_solver |].
    apply NoDup_cons. split; [set_solver | done]. }
  assert ((if decide (size (hmap c) ≤ 0)%nat then wr (dlnk c) 0 pre L
           else h0 ← rd (dlnk c) 0 next; wr (dlnk c) h0 pre L)
          = wr (dlnk c) h pre L) as Ed1.
  { case_decide as Hsz.
    - apply (repr_size c xs H) in Hsz. unfold h. by rewrite (repr_empty c xs H Hsz).
    - by rewrite Eh. }
  destruct (wr_rd (dlnk c) h pre L) as (d1 & E1 & Hn1 & Hs1 & Ho1).
  { specialize (Hrg _ Hh). lia. }
  assert (slot L = Z.to_nat (last c)) as Es.
  { rewrite slot_eq by lia. f_equal. lia. }
  destruct (lookup_lt_is_Some_2 (m c) (slot L)) as [n0 Hn0]; [lia |].
  destruct (lookup_lt_is_Some_2 d1 (Z.to_nat L)) as [p0 Hp0]; [lia |].
  destruct (wr_rd (<[Z.to_nat L := (0, h)]> d1) 0 next L)
    as (d3 & E3 & Hn3 & Hs3 & Ho3).
  { rewrite length_insert. lia. }
  exists {| dlnk := d3;
            m := <[slot L := {| k := key; v := val; expireAt := e |}]> (m c);
            hmap := <[key := L]> (hmap c);
            last := L |}.
  split_and!; try done.
  - unfold put. rewrite Hk. rewrite decide_False.
    2:{ rewrite wrap16_small by lia. done. }
    rewrite (wrap16_small (last c + 1)) by lia. fold L.
    rewrite Ed1, E1. simpl. rewrite Hn0. simpl.
    rewrite (Ho1 0 next) by done. rewrite Eh. simpl. rewrite Hp0. simpl.
    rewrite E3. done.
  - constructor; simpl.
    + rewrite length_insert. done.
    + rewrite length_insert, Hn3, length_insert, Hn1. done.
    + rewrite length_insert. lia.
    + by apply NoDup_cons in Hnd' as [_ ?].
    + intros x. rewrite elem_of_cons, (repr_dom c xs H). unfold L. lia.
    + intros a d Ha.
      destruct (nbr_cons xs L a Hnd' Ha) as [En Ep].
      assert (0 ≤ a) as Ha0.
      { apply elem_of_cons in Ha as [-> | [-> | Ha]%elem_of_cons]; [lia | lia |].
        assert (0 ≤ a < L); [| lia]. apply Hrg. set_solver. }
      destruct d.
      * rewrite (Ho3 a pre) by done. rewrite rd_insert by lia. rewrite Ep.
        clear En Ep. destruct (decide (a = L)); [done |].
        rewrite Hs1 by done. fold h. destruct (decide (a = h)); [done |].
        apply (repr_links c xs H). set_solver.
      * rewrite Hs3 by done. rewrite En. clear En Ep.
        destruct (decide (a = 0)); [done |].
        rewrite rd_insert by lia. destruct (decide (a = L)); [done |].
        rewrite (Ho1 a next) by done. apply (repr_links c xs H). set_solver.
    + intros key' j. destruct (decide (key' = key)) as [-> | Hkk].
      * rewrite lookup_insert_eq. split.
        -- intros [= <-]. split; [lia |]. eexists.
           rewrite list_lookup_insert_eq by lia. done.
        -- intros [Hj (n1 & Hn1' & Hk1)].
           destruct (decide (j = L)) as [-> | HjL]; [done |].
           rewrite list_lookup_insert_ne in Hn1'.
           2:{ intros Ej. apply HjL. symmetry. apply slot_inj; [lia | lia | done]. }
           assert (hmap c !! key = Some j) as Hc.
           { apply (repr_hmap c xs H). split; [lia | eauto]. }
           congruence.
      * rewrite lookup_insert_ne by done. rewrite (repr_hmap c xs H). split.
        -- intros [Hj (n1 & Hn1' & Hk1)]. split; [lia |]. exists n1.
           split; [| done]. rewrite list_lookup_insert_ne; [done |].
           intros Ej. assert (L = j); [| lia]. apply slot_inj; [lia | lia | done].
        -- intros [Hj (n1 & Hn1' & Hk1)].
           destruct (decide (j = L)) as [-> | HjL].
           ++ rewrite list_lookup_insert_eq in Hn1' by lia.
              injection Hn1' as <-. simpl in Hk1. congruence.
           ++ rewrite list_lookup_insert_ne in Hn1'.
              2:{ intros Ej. apply HjL. symmetry. apply slot_inj; [lia | lia | done]. }
              split; [lia | eauto].
Qed.

(** ** The order read from the links *)

Lemma chain_threaded l xs A B fuel :
  threaded l xs → NoDup (0 :: xs) → xs = A ++ B → (length B ≤ fuel)%nat →
  chain fuel l (hd 0 B) = B.
Proof.
  intros Hl Hnd. revert A fuel. induction B as [| b B' IH]; intros A fuel -> Hfuel.
  - by destruct fuel.
  - simpl in *. destruct fuel as [| fuel']; [lia |].
    assert (b ≠ 0) as Hb.
    { intros ->. apply NoDup_cons in Hnd as [H0 _]. set_solver. }
    simpl. rewrite decide_False by done.
    rewrite (Hl b next) by set_solver.
    assert (nbr next (A ++ b :: B') b = hd 0 B') as ->.
    { unfold nbr. change (0 :: A ++ b :: B') with ((0 :: A) ++ b :: B').
      apply succ_in_app. apply NoDup_cons in Hnd as [_ Hnd].
      apply NoDup_app in Hnd as (_ & HAB & _).
      intros [E | Hin]%elem_of_cons; [done |]. apply (HAB b Hin). set_solver. }
    f_equal. apply (IH (A ++ [b])); [by rewrite <- (assoc_L (++)) | lia].
Qed.

Lemma repr_length c xs : repr c xs → Z.of_nat (length xs) = last c.
Proof.
  intros H. pose proof (repr_last c xs H) as Hlast.
  assert (xs ≡ₚ seqZ 1 (last c)) as ->.
  { apply NoDup_Permutation; [apply H | apply NoDup_seqZ |].
    intros x. rewrite (repr_dom c xs H), elem_of_seqZ. lia. }
  rewrite length_seqZ. lia.
Qed.

Lemma repr_order c xs : repr c xs → order c = xs.
Proof.
  intros H. unfold order.
  rewrite (repr_links c xs H 0 next) by set_solver.
  apply (chain_threaded (dlnk c) xs [] xs); [apply H | by eapply repr_sentinel | done |].
  pose proof (repr_length c xs H). pose proof (repr_last c xs H).
  rewrite (repr_len c xs H). lia.
Qed.

Lemma grown_repr c : grown c → repr c (order c).
Proof.
  assert (grown c → ∃ xs, repr c xs) as Hex.
  { induction 1 as [cap Hcap | c key val e cb c' r evs _ [xs H] E
                    | c key c' r st _ [xs H] E | c key c' r st e _ [xs H] E].
    - exists []. by apply Create_repr.
    - destruct (hmap c !! key) as [idx |] eqn:Hk.
      + destruct (repr_cache_ok_hmap c xs key idx H Hk) as (_ & _ & n & Hn & _).
        destruct (put_present_repr c xs key val e cb idx n H Hk Hn)
          as (c1 & E1 & H1 & _).
        rewrite E1 in E. simplify_eq. eauto.
      + destruct (decide (last c = Z.of_nat (length (m c)))) as [Hfull | Hroom].
        * destruct (put_full_repr c xs key val e cb H Hk Hfull)
            as (c1 & t & old & _ & _ & _ & _ & E1 & H1 & _).
          rewrite E1 in E. simplify_eq. eauto.
        * destruct (put_fresh_repr c xs key val e cb H Hk Hroom)
            as (c1 & E1 & H1 & _).
          rewrite E1 in E. simplify_eq. eauto.
    - destruct (hmap c !! key) as [idx |] eqn:Hk.
      + destruct (repr_cache_ok_hmap c xs key idx H Hk) as (_ & _ & n & Hn & _).
        destruct (get_present_repr c xs key idx n H Hk Hn) as (c1 & E1 & H1 & _).
        rewrite E1 in E. simplify_eq. eauto.
      + rewrite (get_absent c key Hk) in E. simplify_eq. eauto.
    - destruct (hmap c !! key) as [idx |] eqn:Hk.
      + destruct (repr_cache_ok_hmap c xs key idx H Hk) as (_ & _ & n & Hn & _).
        destruct (decide (0 < expireAt n)) as [He | He].
        * destruct (del_live_repr c xs key idx n H Hk Hn He) as (c1 & E1 & H1 & _).
          rewrite E1 in E. simplify_eq. eauto.
        * rewrite (del_dead_same c key idx n Hk Hn He) in E. simplify_eq. eauto.
      + rewrite (del_absent c key Hk) in E. simplify_eq. eauto. }
  intros Hg. destruct (Hex Hg) as [xs H]. by rewrite (repr_order c xs H).
Qed.

(** ** The nodes in order *)

Lemma repr_entries c xs :
  repr c xs → entries c = omap (λ idx, m c !! slot idx) xs.
Proof. intros H. unfold entries. by rewrite (repr_order c xs H). Qed.

Lemma find_Some c key n :
  find c key = Some n ↔ ∃ idx, hmap c !! key = Some idx ∧ m c !! slot idx = Some n.
Proof.
  unfold find. destruct (hmap c !! key) as [idx |]; simpl.
  - split; [eauto |]. by intros (? & [= <-] & ?).
  - split; [done |]. by intros (? & ? & _).
Qed.

Lemma repr_find_None c xs key : repr c xs → find c key = None ↔ hmap c !! key = None.
Proof.
  intros H. unfold find. destruct (hmap c !! key) as [idx |] eqn:Hk; simpl; [| done].
  destruct (repr_cache_ok_hmap c xs key idx H Hk) as (_ & _ & n & -> & _). done.
Qed.

Lemma nodes_filter c xs key idx ys :
  repr c xs → hmap c !! key = Some idx → ys ⊆ xs →
  omap (λ i, m c !! slot i) (filter (λ y, y ≠ idx) ys)
  = filter (λ n, k n ≠ key) (omap (λ i, m c !! slot i) ys).
Proof.
  intros H Hk. induction ys as [| y ys' IH]; intros Hsub; [done |].
  assert (y ∈ xs) as Hy by set_solver.
  apply (repr_dom c xs H) in Hy.
  destruct (repr_slot c xs y H Hy) as [_ [n Hn]].
  assert (hmap c !! k n = Some y) as Hky.
  { apply (repr_hmap c xs H). eauto. }
  simpl. rewrite Hn. destruct (decide (y = idx)) as [-> | Hne].
  - rewrite filter_cons_False by tauto.
    rewrite filter_cons_False; [apply IH; set_solver |].
    intros Hkn. apply Hkn.
    destruct (repr_cache_ok_hmap c xs key idx H Hk) as (_ & _ & n' & Hn' & Hk').
    congruence.
  - rewrite filter_cons_True by done. simpl. rewrite Hn.
    rewrite filter_cons_True; [f_equal; apply IH; set_solver |].
    intros Hkn. rewrite Hkn in Hky. congruence.
Qed.

Lemma nodes_insert_ne c xs idx n' ys :
  repr c xs → 1 ≤ idx ≤ 65535 → idx ∉ ys → ys ⊆ xs →
  omap (λ i, <[slot idx := n']> (m c) !! slot i) ys
  = omap (λ i, m c !! slot i) ys.
Proof.
  intros H Hidx. pose proof (repr_cap c xs H). pose proof (repr_last c xs H).
  induction ys as [| y ys' IH]; intros Hni Hsub; [done |].
  assert (y ∈ xs) as Hy by set_solver.
  apply (repr_dom c xs H) in Hy.
  simpl. rewrite list_lookup_insert_ne.
  - destruct (m c !! slot y); [f_equal |]; apply IH; set_solver.
  - intros E. apply Hni. apply slot_inj in E; [set_solver | lia | lia].
Qed.

Lemma last_split xs : xs ≠ [] → ∃ R, xs = R ++ [nbr pre xs 0].
Proof.
  intros Hne. unfold nbr. simpl.
  destruct (reverse xs) as [| t R'] eqn:E.
  - destruct Hne. by rewrite <- (reverse_involutive xs), E.
  - exists (reverse R'). simpl.
    by rewrite <- (reverse_involutive xs), E, reverse_cons.
Qed.

Lemma nodes_length c xs ys :
  repr c xs → ys ⊆ xs → length (omap (λ i, m c !! slot i) ys) = length ys.
Proof.
  intros H. induction ys as [| y ys' IH]; intros Hsub; [done |].
  assert (y ∈ xs) as Hy by set_solver.
  apply (repr_dom c xs H) in Hy.
  destruct (repr_slot c xs y H Hy) as [_ [n Hn]].
  simpl. rewrite Hn. simpl. f_equal. apply IH. set_solver.
Qed.

Lemma nodes_keys_NoDup c xs ys :
  repr c xs → ys ⊆ xs → NoDup ys →
  NoDup (k <$> omap (λ i, m c !! slot i) ys).
Proof.
  intros H. induction ys as [| y ys' IH]; intros Hsub Hnd; [constructor |].
  assert (y ∈ xs) as Hy by set_solver.
  apply (repr_dom c xs H) in Hy.
  destruct (repr_slot c xs y H Hy) as [_ [n Hn]].
  apply NoDup_cons in Hnd as [Hy' Hnd].
  simpl. rewrite Hn. simpl. apply NoDup_cons. split; [| apply IH; set_solver].
  intros (n' & Hk & Hin)%list_elem_of_fmap.
  apply list_elem_of_omap in Hin as (y' & Hin & Hn').
  assert (y' ∈ xs) as Hyx by set_solver.
  apply (repr_dom c xs H) in Hyx.
  assert (hmap c !! k n = Some y) as E1 by (apply (repr_hmap c xs H); eauto).
  assert (hmap c !! k n' = Some y') as E2 by (apply (repr_hmap c xs H); eauto).
  rewrite Hk in E1. assert (y = y') by congruence. by subst.
Qed.

Lemma repr_find_entries c xs key n :
  repr c xs → find c key = Some n ↔ n ∈ entries c ∧ k n = key.
Proof.
  intros H. rewrite (repr_entries c xs H), find_Some, list_elem_of_omap. split.
  - intros (idx & Hk & Hn).
    destruct (repr_cache_ok_hmap c xs key idx H Hk) as (_ & Hx & n' & Hn' & Hk').
    split; [eauto |]. congruence.
  - intros [(x & Hx & Hn) Hk]. exists x. split; [| done].
    apply (repr_hmap c xs H). split; [by apply (repr_dom c xs H) | eauto].
Qed.

(** ** [walk] *)

Lemma walk_from_threaded {A : Type} c xs (P B : list Z) fuel
    (walker : string → Value V → Z → A → A * bool) (acc : A) :
  repr c xs → xs = P ++ B → (length B ≤ fuel)%nat →
  walk_from fuel c (hd 0 B) walker acc
  = Some (visit walker (omap (λ i, m c !! slot i) B) acc).
Proof.
  intros H. pose proof (repr_sentinel c xs H) as Hnd.
  revert P fuel acc. induction B as [| b B' IH]; intros P fuel acc -> Hfuel.
  - by destruct fuel.
  - simpl in Hfuel. destruct fuel as [| fuel']; [lia |].
    assert (b ∈ P ++ b :: B') as Hb by set_solver.
    pose proof (proj1 (repr_dom c _ H b) Hb) as Hbi.
    destruct (repr_slot c _ b H Hbi) as [_ [n Hn]].
    assert (rd (dlnk c) b next = Some (hd 0 B')) as Erd.
    { rewrite (repr_links c _ H b next) by set_solver. f_equal.
      unfold nbr. change (0 :: P ++ b :: B') with ((0 :: P) ++ b :: B').
      apply succ_in_app. apply NoDup_cons in Hnd as [_ Hnd].
      apply NoDup_app in Hnd as (_ & HAB & _).
      intros [E | Hin]%elem_of_cons; [lia |]. apply (HAB b Hin). set_solver. }
    assert (∀ acc', walk_from fuel' c (hd 0 B') walker acc'
              = Some (visit walker (omap (λ i, m c !! slot i) B') acc')) as IH'.
    { intros acc'. apply (IH (P ++ [b])); [by rewrite <- (assoc_L (++)) | lia]. }
    cbn [hd omap list_omap]. rewrite Hn. cbn [visit walk_from].
    rewrite decide_False by lia. rewrite Hn. cbn [mbind option_bind].
    destruct (decide (0 < expireAt n)).
    + destruct (walker (k n) (v n) (expireAt n) acc) as [acc' [|]]; [| done].
      rewrite Erd. apply IH'.
    + rewrite Erd. apply IH'.
Qed.

(** ** The operations on the nodes in order *)

Lemma grown_find_None c key : grown c → find c key = None → hmap c !! key = None.
Proof. intros Hg Hf. by apply (repr_find_None c (order c) key (grown_repr c Hg)). Qed.

Lemma grown_find_key c key n : grown c → find c key = Some n → k n = key.
Proof.
  intros Hg Hf. by apply (repr_find_entries c (order c) key n (grown_repr c Hg)) in Hf as [_ ?].
Qed.

Lemma get_entries c key n :
  grown c → find c key = Some n →
  ∃ c', get c key = Some (c', Some n, 1)
    ∧ entries c' = n :: filter (λ x, k x ≠ key) (entries c)
    ∧ m c' = m c ∧ hmap c' = hmap c ∧ last c' = last c.
Proof.
  intros Hg Hf. pose proof (grown_repr c Hg) as H.
  apply find_Some in Hf as (idx & Hk & Hn).
  destruct (get_present_repr c _ key idx n H Hk Hn) as (c' & E & H' & Em & Eh & El).
  exists c'. split_and!; try done.
  rewrite (repr_entries c' _ H'), (repr_entries c _ H), Em.
  unfold to_front. cbn [omap list_omap]. rewrite Hn. f_equal.
  by apply (nodes_filter c (order c)).
Qed.

Lemma del_entries c key n :
  grown c → find c key = Some n → 0 < expireAt n →
  ∃ c', del c key
        = Some (c', Some {| k := k n; v := v n; expireAt := 0 |}, 1, expireAt n)
    ∧ entries c' = filter (λ x, k x ≠ key) (entries c)
                   ++ [{| k := k n; v := v n; expireAt := 0 |}]
    ∧ hmap c' = hmap c ∧ last c' = last c ∧ length (m c') = length (m c).
Proof.
  intros Hg Hf He. pose proof (grown_repr c Hg) as H.
  apply find_Some in Hf as (idx & Hk & Hn).
  destruct (del_live_repr c _ key idx n H Hk Hn He) as (c' & E & H' & Em & Eh & El).
  destruct (repr_cache_ok_hmap c _ key idx H Hk) as (Hi & Hx & _).
  pose proof (repr_cap c _ H). pose proof (repr_last c _ H).
  exists c'. split_and!; try done; [| by rewrite Em, length_insert].
  rewrite (repr_entries c' _ H'), (repr_entries c _ H), Em.
  unfold to_back. rewrite omap_app. cbn [omap list_omap].
  rewrite list_lookup_insert_eq by (by eapply lookup_lt_Some). f_equal.
  rewrite (nodes_insert_ne c (order c)); try done.
  - by apply (nodes_filter c (order c)).
  - lia.
  - by intros [? _]%list_elem_of_filter.
  - intros x [_ ?]%list_elem_of_filter. done.
Qed.

Lemma put_present_entries c key val e cb n :
  grown c → find c key = Some n →
  ∃ c', put c key val e cb = Some (c', 0, [])
    ∧ entries c' = {| k := key; v := val; expireAt := e |}
                   :: filter (λ x, k x ≠ key) (entries c)
    ∧ hmap c' = hmap c ∧ last c' = last c ∧ length (m c') = length (m c).
Proof.
  intros Hg Hf. pose proof (grown_repr c Hg) as H.
  pose proof (grown_find_key c key n Hg Hf) as Hkn.
  apply find_Some in Hf as (idx & Hk & Hn).
  destruct (put_present_repr c _ key val e cb idx n H Hk Hn)
    as (c' & E & H' & Em & Eh & El).
  destruct (repr_cache_ok_hmap c _ key idx H Hk) as (Hi & Hx & _).
  pose proof (repr_cap c _ H). pose proof (repr_last c _ H).
  exists c'. split_and!; try done; [| by rewrite Em, length_insert].
  rewrite (repr_entries c' _ H'), (repr_entries c _ H), Em.
  unfold to_front. cbn [omap list_omap].
  rewrite list_lookup_insert_eq by (by eapply lookup_lt_Some). rewrite Hkn. f_equal.
  rewrite (nodes_insert_ne c (order c)); try done.
  - by apply (nodes_filter c (order c)).
  - lia.
  - by intros [? _]%list_elem_of_filter.
  - intros x [_ ?]%list_elem_of_filter. done.
Qed.

Lemma put_room_entries c key val e cb :
  grown c → find c key = None → last c ≠ Z.of_nat (length (m c)) →
  ∃ c', put c key val e cb = Some (c', 1, [])
    ∧ entries c' = {| k := key; v := val; expireAt := e |} :: entries c
    ∧ hmap c' = <[key := last c + 1]> (hmap c)
    ∧ last c' = last c + 1 ∧ length (m c') = length (m c).
Proof.
  intros Hg Hf Hroom. pose proof (grown_repr c Hg) as H.
  pose proof (grown_find_None c key Hg Hf) as Hk.
  destruct (put_fresh_repr c _ key val e cb H Hk Hroom)
    as (c' & E & H' & Em & Eh & El).
  pose proof (repr_cap c _ H). pose proof (repr_last c _ H).
  exists c'. split_and!; try done; [| by rewrite Em, length_insert].
  rewrite (repr_entries c' _ H'), (repr_entries c _ H), Em.
  cbn [omap list_omap].
  rewrite list_lookup_insert_eq.
  2:{ rewrite slot_eq by lia. lia. }
  f_equal. apply (nodes_insert_ne c (order c)); try done; [lia |].
  intros Hin%(repr_dom c _ H). lia.
Qed.

Lemma put_full_entries c key val e cb :
  grown c → find c key = None → last c = Z.of_nat (length (m c)) →
  ∃ c' rest old,
    entries c = rest ++ [old]
    ∧ put c key val e cb
      = Some (c', 1, if cb && bool_decide (0 < expireAt old)
                     then [(k old, v old)] else [])
    ∧ entries c' = {| k := key; v := val; expireAt := e |} :: rest
    ∧ last c' = last c ∧ length (m c') = length (m c).
Proof.
  intros Hg Hf Hfull. pose proof (grown_repr c Hg) as H.
  pose proof (grown_find_None c key Hg Hf) as Hk.
  destruct (put_full_repr c _ key val e cb H Hk Hfull)
    as (c' & t & old & Et & Et' & Ht & Hold & E & H' & Em & Eh & El).
  pose proof (repr_cap c _ H). pose proof (repr_last c _ H).
  pose proof (proj1 (repr_dom c _ H t) Ht) as Hti.
  destruct (last_split (order c)) as [R ER].
  { intros E0. rewrite E0 in Ht. by apply elem_of_nil in Ht. }
  rewrite <- Et' in ER.
  exists c', (omap (λ i, m c !! slot i) R), old.
  assert (NoDup (R ++ [t])) as Hnd by (rewrite <- ER; apply H).
  assert (t ∉ R) as HtR.
  { apply NoDup_app in Hnd as (_ & HR & _). intros Hin. apply (HR t Hin). set_solver. }
  split_and!; try done.
  - rewrite (repr_entries c _ H), ER, omap_app. cbn [omap list_omap].
    by rewrite Hold.
  - rewrite (repr_entries c' _ H'), Em, ER.
    rewrite (to_front_split t R []) by done. rewrite app_nil_r.
    cbn [omap list_omap].
    rewrite list_lookup_insert_eq by (by eapply lookup_lt_Some). f_equal.
    apply (nodes_insert_ne c (order c)); try done; [lia |].
    rewrite ER. set_solver.
  - by rewrite Em, length_insert.
Qed.

Lemma walk_entries {A : Type} c fuel
    (walker : string → Value V → Z → A → A * bool) (acc : A) :
  grown c → (length (entries c) ≤ fuel)%nat →
  walk fuel c walker acc = Some (visit walker (entries c) acc).
Proof.
  intros Hg Hfuel. pose proof (grown_repr c Hg) as H.
  rewrite (repr_entries c _ H) in *.
  rewrite (nodes_length c (order c)) in Hfuel by done.
  unfold walk. rewrite (repr_links c _ H 0 next) by set_solver. simpl.
  by apply (walk_from_threaded c (order c) []).
Qed.

Lemma grown_entries_length c :
  grown c →
  Z.of_nat (length (entries c)) = last c
  ∧ last c ≤ Z.of_nat (length (m c)) ∧ Z.of_nat (length (m c)) < 65535.
Proof.
  intros Hg. pose proof (grown_repr c Hg) as H.
  rewrite (repr_entries c _ H), (nodes_length c (order c)) by done.
  rewrite (repr_length c _ H). pose proof (repr_last c _ H).
  pose proof (repr_cap c _ H). lia.
Qed.

Lemma grown_find_entries c key n :
  grown c → find c key = Some n ↔ n ∈ entries c ∧ k n = key.
Proof. intros Hg. apply (repr_find_entries c (order c)), grown_repr, Hg. Qed.

Lemma grown_keys_NoDup c : grown c → NoDup (k <$> entries c).
Proof.
  intros Hg. pose proof (grown_repr c Hg) as H. rewrite (repr_entries c _ H).
  apply (nodes_keys_NoDup c (order c)); [done | done | apply H].
Qed.

(** [del] changes what is found for its own key only. *)
Lemma del_find_other c key c' r st e key' :
  grown c → del c key = Some (c', r, st, e) → key' ≠ key →
  find c' key' = find c key'.
Proof.
  intros Hg E Hne. pose proof (grown_del _ _ _ _ _ _ Hg E) as Hg'.
  destruct (find c key) as [n |] eqn:Hf.
  - destruct (decide (0 < expireAt n)) as [He | He].
    + destruct (del_entries c key n Hg Hf He) as (c1 & E1 & Hent & _).
      rewrite E1 in E. simplify_eq. apply option_eq. intros x.
      rewrite !grown_find_entries by done. rewrite Hent.
      rewrite elem_of_app, list_elem_of_filter, list_elem_of_singleton.
      pose proof (grown_find_key c key n Hg Hf). split.
      * intros [[[_ ?] | ->] ?]; [done |]. simpl in *. congruence.
      * intros [? ?]. split; [| done]. left. split; [congruence | done].
    + apply find_Some in Hf as (idx & Hk & Hn).
      rewrite (del_dead_same c key idx n Hk Hn He) in E. by simplify_eq.
  - rewrite (del_absent c key (grown_find_None c key Hg Hf)) in E. by simplify_eq.
Qed.

End Operations.

Section Shards.
Context {V : Type}.
Implicit Types (c : cache V) (n : node V) (s : lru2Store V) (p : cache V * cache V).

(** ** What the operations of the store keep

    Every operation of the store on [key] changes the two lists of one
    shard by calls of [put], [get] and [del] with [key]: whatever these
    three keep, the operation keeps. *)

Section Keep.
Variables (P : cache V → Prop) (key : string).
Hypothesis Pput : ∀ c val e cb c' r evs,
  P c → put c key val e cb = Some (c', r, evs) → P c'.
Hypothesis Pget : ∀ c c' r st, P c → get c key = Some (c', r, st) → P c'.
Hypothesis Pdel : ∀ c c' r st e, P c → del c key = Some (c', r, st, e) → P c'.

Lemma delete_keeps s idx p s' r evs :
  shard s idx = Some p → P p.1 → P p.2 →
  delete s key idx = Some (s', r, evs) →
  ∃ c0 c1, s' = with_shard s idx (c0, c1) ∧ P c0 ∧ P c1.
Proof.
  intros Hp H1 H2 E. unfold delete in E. rewrite Hp in E. simpl in E.
  destruct (del p.1 key) as [[[[c0 n1] s1] e1] |] eqn:E1; [| done]. simpl in E.
  destruct (del p.2 key) as [[[[c1 n2] s2] e2] |] eqn:E2; [| done]. simpl in E.
  injection E as <- _ _. exists c0, c1. split; [done |]. split.
  - by apply (Pdel _ _ _ _ _ H1 E1).
  - by apply (Pdel _ _ _ _ _ H2 E2).
Qed.

Lemma Get_L2_keeps s now now' idx evs0 p s' r evs :
  shard s idx = Some p → P p.1 → P p.2 →
  Get_L2 s now now' key idx evs0 = Some (s', r, evs) →
  ∃ c0 c1, s' = with_shard s idx (c0, c1) ∧ P c0 ∧ P c1.
Proof.
  intros Hp H1 H2 E. unfold Get_L2, _get in E. rewrite Hp in E. simpl in E.
  destruct (get p.2 key) as [[[c1 n2] st2] |] eqn:E2; [| done]. simpl in E.
  pose proof (Pget _ _ _ _ H2 E2) as H2'.
  unfold with_tier in E. simpl in E.
  assert (shard (with_shard s idx (p.1, c1)) idx = Some (p.1, c1)) as Hp'.
  { by eapply shard_with_shard. }
  assert (∀ s3 r3 ev3,
    delete (with_shard s idx (p.1, c1)) key idx = Some (s3, r3, ev3) →
    ∃ c0 c1', s3 = with_shard s idx (c0, c1') ∧ P c0 ∧ P c1') as Hdel.
  { intros s3 r3 ev3 E3.
    destruct (delete_keeps _ idx (p.1, c1) s3 r3 ev3 Hp' H1 H2' E3)
      as (c0 & c1' & -> & ? & ?).
    rewrite with_shard_twice. eauto. }
  destruct n2 as [nd |]; simpl in E;
    repeat first [ progress simpl in E | case_decide ];
    try (destruct (delete _ key idx) as [[[s3 r3] ev3] |] eqn:E3; [| done];
         simpl in E);
    injection E as <- _ _; eauto.
Qed.

Lemma Get_keeps s now now' p s' r evs :
  shard s (shard_index s key) = Some p → P p.1 → P p.2 →
  Get s now now' key = Some (s', r, evs) →
  ∃ c0 c1, s' = with_shard s (shard_index s key) (c0, c1) ∧ P c0 ∧ P c1.
Proof.
  intros Hp H1 H2 E. unfold Get in E. rewrite Hp in E. simpl in E.
  destruct (del p.1 key) as [[[[c0 n1] st1] e1] |] eqn:E1; [| done]. simpl in E.
  pose proof (Pdel _ _ _ _ _ H1 E1) as H1'.
  set (idx := shard_index s key) in *.
  assert (shard (with_shard s idx (c0, p.2)) idx = Some (c0, p.2)) as Hp'.
  { by eapply shard_with_shard. }
  case_decide.
  - case_decide.
    + destruct (delete _ key idx) as [[[s3 r3] ev3] |] eqn:E3; [| done].
      simpl in E. injection E as <- _ _.
      destruct (delete_keeps _ idx (c0, p.2) s3 r3 ev3 Hp' H1' H2 E3)
        as (c0' & c1' & -> & ? & ?).
      rewrite with_shard_twice. eauto.
    + destruct n1 as [nd |]; [| done]. simpl in E.
      destruct (put p.2 key (v nd) e1 (onEvicted s)) as [[[c1 r1] ev1] |] eqn:E2;
        [| done].
      simpl in E. pose proof (Pput _ _ _ _ _ _ _ H2 E2) as H2'.
      destruct (Get_L2_keeps (with_shard s idx (c0, c1)) now now' idx ev1 (c0, c1)
                  s' r evs) as (c0' & c1' & -> & ? & ?); try done.
      { by eapply shard_with_shard. }
      rewrite with_shard_twice. eauto.
  - destruct (Get_L2_keeps (with_shard s idx (c0, p.2)) now now' idx [] (c0, p.2)
                s' r evs) as (c0' & c1' & -> & ? & ?); try done.
    rewrite with_shard_twice. eauto.
Qed.

Lemma SetWithExpiration_keeps s now value expiration p s' evs :
  shard s (shard_index s key) = Some p → P p.1 → P p.2 →
  SetWithExpiration s now key value expiration = Some (s', evs) →
  ∃ c0 c1, s' = with_shard s (shard_index s key) (c0, c1) ∧ P c0 ∧ P c1.
Proof.
  intros Hp H1 H2 E. unfold SetWithExpiration in E. rewrite Hp in E. simpl in E.
  destruct (put p.1 key value _ (onEvicted s)) as [[[c0 r0] ev0] |] eqn:E1; [| done].
  simpl in E. injection E as <- _. exists c0, p.2. split; [done |].
  split; [| done]. by apply (Pput _ _ _ _ _ _ _ H1 E1).
Qed.

Lemma apply_op_keeps s (o : op V) p s' evs :
  op_key o = key →
  shard s (shard_index s key) = Some p → P p.1 → P p.2 →
  apply_op s o = Some (s', evs) →
  ∃ c0 c1, s' = with_shard s (shard_index s key) (c0, c1) ∧ P c0 ∧ P c1.
Proof.
  intros Ho Hp H1 H2 E.
  destruct o as [now now' key' | now key' value | now key' value expiration | key'];
    simpl in Ho; subst key'; simpl in E.
  - destruct (Get s now now' key) as [[[s1 r1] ev1] |] eqn:E1; [| done].
    simpl in E. injection E as <- _. by eapply Get_keeps.
  - by eapply SetWithExpiration_keeps.
  - by eapply SetWithExpiration_keeps.
  - destruct (Delete s key) as [[[s1 r1] ev1] |] eqn:E1; [| done].
    simpl in E. injection E as <- _. by eapply delete_keeps.
Qed.

End Keep.

(** ** Built stores *)

Lemma grown_cache_ok c : grown c → cache_ok c.
Proof.
  induction 1 as [cap Hcap | c key val e cb c' r evs _ IH E
                  | c key c' r st _ IH E | c key c' r st e _ IH E].
  - by apply Create_ok.
  - destruct (put_ok c key val e cb IH) as (c1 & r1 & ev1 & E1 & H1 & _).
    rewrite E1 in E. by simplify_eq.
  - destruct (get_ok c key IH) as (c1 & r1 & st1 & E1 & H1).
    rewrite E1 in E. by simplify_eq.
  - destruct (del_ok c key IH) as (c1 & r1 & st1 & e1 & E1 & H1).
    rewrite E1 in E. by simplify_eq.
Qed.

Lemma put_hmap_keys c key val e cb c' r evs key' :
  put c key val e cb = Some (c', r, evs) →
  is_Some (hmap c' !! key') → key' = key ∨ is_Some (hmap c !! key').
Proof.
  unfold put. intros E Hk.
  destruct (hmap c !! key) as [idx |] eqn:Hkey.
  - destruct (m c !! slot idx); [| done]. simpl in E.
    destruct (adjust _ _ _ _); [| done]. simpl in E. simplify_eq. simpl in Hk.
    right. exact Hk.
  - case_decide.
    + destruct (rd _ _ _); [| done]. simpl in E.
      destruct (m c !! _); [| done]. simpl in E.
      destruct (adjust _ _ _ _); [| done]. simpl in E. simplify_eq. simpl in Hk.
      destruct (decide (key' = key)) as [| Hne]; [by left | right].
      rewrite lookup_insert_ne in Hk by done.
      destruct Hk as [x Hx]. apply lookup_delete_Some in Hx as [_ Hx]. eauto.
    + destruct (if decide _ then _ else _); [| done]. simpl in E.
      destruct (m c !! _); [| done]. simpl in E.
      destruct (rd _ _ _); [| done]. simpl in E.
      destruct (_ !! Z.to_nat _); [| done]. simpl in E.
      destruct (wr _ _ _ _); [| done]. simpl in E. simplify_eq. simpl in Hk.
      destruct (decide (key' = key)) as [| Hne]; [by left | right].
      by rewrite lookup_insert_ne in Hk.
Qed.

Lemma get_hmap c key c' r st : get c key = Some (c', r, st) → hmap c' = hmap c.
Proof.
  unfold get. intros E. destruct (hmap c !! key) as [idx |]; [| by simplify_eq].
  destruct (adjust _ _ _ _); [| done]. simpl in E.
  destruct (m c !! _); [| done]. simpl in E. by simplify_eq.
Qed.

Lemma del_hmap c key c' r st e : del c key = Some (c', r, st, e) → hmap c' = hmap c.
Proof.
  unfold del. intros E. destruct (hmap c !! key) as [idx |]; [| by simplify_eq].
  destruct (m c !! _); [| done]. simpl in E. case_decide; [| by simplify_eq].
  destruct (adjust _ _ _ _); [| done]. simpl in E. by simplify_eq.
Qed.

Lemma of_shard_put mk i c key val e cb c' r evs :
  Z.land (hashBKRD key) mk = i →
  of_shard mk i c → put c key val e cb = Some (c', r, evs) → of_shard mk i c'.
Proof.
  intros Hi [Hg Hk] E. split; [by eapply grown_put |].
  intros key' [-> | Hin]%(put_hmap_keys _ _ _ _ _ _ _ _ _ E); auto.
Qed.

Lemma of_shard_get mk i c key c' r st :
  of_shard mk i c → get c key = Some (c', r, st) → of_shard mk i c'.
Proof.
  intros [Hg Hk] E. split; [by eapply grown_get |].
  by rewrite (get_hmap _ _ _ _ _ E).
Qed.

Lemma of_shard_del mk i c key c' r st e :
  of_shard mk i c → del c key = Some (c', r, st, e) → of_shard mk i c'.
Proof.
  intros [Hg Hk] E. split; [by eapply grown_del |].
  by rewrite (del_hmap _ _ _ _ _ _ E).
Qed.

Lemma sound_with_shard s idx c0 c1 :
  store_ok s → shards_grown s → 0 ≤ idx →
  of_shard (mask s) idx c0 → of_shard (mask s) idx c1 →
  store_ok (with_shard s idx (c0, c1)) ∧ shards_grown (with_shard s idx (c0, c1)).
Proof.
  intros Hs Hg Hidx [Hg0 Hk0] [Hg1 Hk1]. split.
  - apply with_shard_ok; [done | |]; by apply grown_cache_ok.
  - intros i p. simpl. destruct (decide (i = Z.to_nat idx)) as [-> | Hne].
    + intros Hp. apply list_lookup_insert_Some in Hp as [(_ & <- & _) | [? _]]; [| done].
      simpl. rewrite Z2Nat.id by done. done.
    + rewrite list_lookup_insert_ne by done. apply Hg.
Qed.

Lemma delete_sound s key idx p :
  store_ok s → shards_grown s → shard s idx = Some p →
  ∃ c0 c1,
    delete s key idx
    = Some (with_shard s idx (c0, c1), live p.1 key || live p.2 key,
            delete_events (onEvicted s) p key)
    ∧ store_ok (with_shard s idx (c0, c1))
    ∧ shards_grown (with_shard s idx (c0, c1))
    ∧ live c0 key = false ∧ live c1 key = false
    ∧ (∃ r0 st0 e0, del p.1 key = Some (c0, r0, st0, e0))
    ∧ (∃ r1 st1 e1, del p.2 key = Some (c1, r1, st1, e1)).
Proof.
  intros Hs Hg Hp. pose proof (shard_Some s idx p Hp) as [Hidx Hp'].
  destruct (Hg _ p Hp') as [H1 H2].
  rewrite Z2Nat.id in H1, H2 by done.
  destruct (delete_spec s key idx p Hs Hp) as (c0 & c1 & E & _ & _ & Hd0 & Hd1).
  exists c0, c1. pose proof E as E'. unfold delete in E'. rewrite Hp in E'. simpl in E'.
  destruct (del p.1 key) as [[[[c0' n1] s1] e1] |] eqn:E1; [| done]. simpl in E'.
  destruct (del p.2 key) as [[[[c1' n2] s2] e2] |] eqn:E2; [| done]. simpl in E'.
  injection E' as Ew _ _.
  assert (c0' = c0 ∧ c1' = c1) as [-> ->].
  { apply (f_equal (λ cs, cs !! Z.to_nat idx)) in Ew. simpl in Ew.
    rewrite !list_lookup_insert_eq in Ew by (by eapply lookup_lt_Some).
    by simplify_eq. }
  destruct (sound_with_shard s idx c0 c1) as [Hs' Hg']; try done.
  { exact (of_shard_del _ _ _ _ _ _ _ _ H1 E1). }
  { exact (of_shard_del _ _ _ _ _ _ _ _ H2 E2). }
  split_and!; eauto.
Qed.

Lemma apply_op_sound s (o : op V) :
  store_ok s → shards_grown s →
  ∃ s' evs, apply_op s o = Some (s', evs)
    ∧ store_ok s' ∧ shards_grown s' ∧ mask s' = mask s
    ∧ length (caches s') = length (caches s).
Proof.
  intros Hs Hg. destruct (apply_op_shape s o Hs) as (c0 & c1 & evs & E & _).
  destruct (shard_of_key s (op_key o) Hs) as (p & Hp & _).
  pose proof (shard_Some s _ p Hp) as [Hidx Hp'].
  destruct (Hg _ p Hp') as [H1 H2]. rewrite Z2Nat.id in H1, H2 by done.
  destruct (apply_op_keeps (of_shard (mask s) (shard_index s (op_key o))) (op_key o))
    with (s := s) (o := o) (p := p)
         (s' := with_shard s (shard_index s (op_key o)) (c0, c1)) (evs := evs)
    as (c0' & c1' & Ew & H1' & H2'); try done.
  - intros. by eapply of_shard_put.
  - intros. by eapply of_shard_get.
  - intros. by eapply of_shard_del.
  - rewrite E. do 2 eexists. split; [done |]. rewrite Ew.
    destruct (sound_with_shard s (shard_index s (op_key o)) c0' c1') as [? ?];
      try done.
    split_and!; try done. simpl. by rewrite length_insert.
Qed.

Lemma Delete_each_sound s keys s' evs :
  store_ok s → shards_grown s → Delete_each s keys = Some (s', evs) →
  store_ok s' ∧ shards_grown s'.
Proof.
  revert s evs. induction keys as [| key keys IH]; intros s evs Hs Hg E; simpl in E.
  - by simplify_eq.
  - destruct (shard_of_key s key Hs) as (p & Hp & _).
    destruct (delete_sound s key _ p Hs Hg Hp) as (c0 & c1 & E1 & Hs1 & Hg1 & _).
    unfold Delete in E. rewrite E1 in E. simpl in E.
    destruct (Delete_each _ keys) as [[s2 ev2] |] eqn:E2; [| done].
    simpl in E. simplify_eq. by eapply IH.
Qed.

Lemma delete_each_sound s idx keys s' evs :
  store_ok s → shards_grown s → delete_each s idx keys = Some (s', evs) →
  store_ok s' ∧ shards_grown s'.
Proof.
  revert s evs. induction keys as [| key keys IH]; intros s evs Hs Hg E; simpl in E.
  - by simplify_eq.
  - destruct (delete s key idx) as [[[s1 r1] ev1] |] eqn:E1; [| done]. simpl in E.
    destruct (delete_each s1 idx keys) as [[s2 ev2] |] eqn:E2; [| done].
    simpl in E. simplify_eq.
    destruct (shard s idx) as [p |] eqn:Hp.
    + destruct (delete_sound s key idx p Hs Hg Hp) as (c0 & c1 & E1' & Hs1 & Hg1 & _).
      rewrite E1' in E1. simplify_eq. by eapply IH.
    + unfold delete in E1. by rewrite Hp in E1.
Qed.

Lemma sweep_shards_sound fuel now s shards s' evs :
  store_ok s → shards_grown s → sweep_shards fuel now s shards = Some (s', evs) →
  store_ok s' ∧ shards_grown s'.
Proof.
  revert s evs. induction shards as [| i shards IH]; intros s evs Hs Hg E; simpl in E.
  - by simplify_eq.
  - destruct (sweep_shard fuel now s i) as [[s1 ev1] |] eqn:E1; [| done]. simpl in E.
    destruct (sweep_shards fuel now s1 shards) as [[s2 ev2] |] eqn:E2; [| done].
    simpl in E. simplify_eq.
    unfold sweep_shard in E1.
    destruct (caches s !! i) as [p |]; [| done]. simpl in E1.
    destruct (walk fuel p.1 _ _) as [k0 |]; [| done]. simpl in E1.
    destruct (walk fuel p.2 _ _) as [k1 |]; [| done]. simpl in E1.
    destruct (delete_each_sound _ _ _ _ _ Hs Hg E1). by eapply IH.
Qed.

Lemma built_sound s : built s → store_ok s ∧ shards_grown s.
Proof.
  induction 1 as [opts Hb Hc1 Hc2 | s o s' evs _ [Hs Hg] E
                  | s fuel s' evs _ [Hs Hg] E | s fuel now s' evs _ [Hs Hg] E].
  - split; [by apply newLRU2Cache_ok |].
    intros i p Hp. unfold newLRU2Cache in Hp. simpl in Hp.
    apply lookup_replicate in Hp as [-> _]. simpl.
    split; (split; [apply grown_Create; case_decide; lia |]);
      intros key [x Hx]; simpl in Hx; by rewrite lookup_empty in Hx.
  - destruct (apply_op_sound s o Hs Hg) as (s1 & ev1 & E1 & ? & ? & _).
    rewrite E1 in E. by simplify_eq.
  - unfold Clear in E. destruct (Clear_keys _ _ _) as [keys |]; [| done].
    simpl in E. by eapply Delete_each_sound.
  - by eapply sweep_shards_sound.
Qed.

(** ** [Len] *)

Lemma visit_count (es : list (node V)) (count : Z) :
  visit count_walker es count
  = count + Z.of_nat (length (filter (λ n, 0 < expireAt n) es)).
Proof.
  revert count. induction es as [| n es IH]; intros count; simpl; [lia |].
  destruct (decide (0 < expireAt n)).
  - rewrite filter_cons_True by done. simpl. rewrite IH. lia.
  - rewrite filter_cons_False by done. apply IH.
Qed.

Lemma walk_grown {A : Type} c fuel
    (walker : string → Value V → Z → A → A * bool) (acc : A) :
  grown c → 65534 ≤ Z.of_nat fuel →
  walk fuel c walker acc = Some (visit walker (entries c) acc).
Proof.
  intros Hg Hfuel. apply walk_entries; [done |].
  pose proof (grown_entries_length c Hg). lia.
Qed.

Lemma Len_from_live fuel (cs : list (cache V * cache V)) count :
  Forall (λ p, grown p.1 ∧ grown p.2) cs → 65534 ≤ Z.of_nat fuel →
  Len_from fuel cs count
  = Some (count + Z.of_nat (length (flat_map (λ p, live_nodes p.1 ++ live_nodes p.2) cs))).
Proof.
  intros Hall Hfuel. revert count.
  induction Hall as [| p cs [H1 H2] _ IH]; intros count; simpl.
  - f_equal. lia.
  - rewrite (walk_grown p.1) by done. simpl.
    rewrite (walk_grown p.2) by done. simpl.
    rewrite IH, !visit_count. f_equal. rewrite !length_app. unfold live_nodes. lia.
Qed.

Lemma shards_grown_Forall s :
  shards_grown s → Forall (λ p, grown p.1 ∧ grown p.2) (caches s).
Proof.
  intros Hg. apply Forall_lookup. intros i p Hp.
  destruct (Hg i p Hp) as [[? _] [? _]]. done.
Qed.

Lemma Len_live_total fuel s :
  shards_grown s → 65534 ≤ Z.of_nat fuel → Len fuel s = Some (live_total s).
Proof.
  intros Hg Hfuel. unfold Len, live_total.
  by rewrite (Len_from_live fuel (caches s) 0 (shards_grown_Forall s Hg) Hfuel).
Qed.

(** ** [Clear] *)

Lemma visit_collect_all (es : list (node V)) (keys : list string) :
  visit collect_all es keys = keys ++ (k <$> filter (λ n, 0 < expireAt n) es).
Proof.
  revert keys. induction es as [| n es IH]; intros keys; simpl.
  - by rewrite app_nil_r.
  - destruct (decide (0 < expireAt n)).
    + rewrite filter_cons_True by done. simpl. rewrite IH.
      by rewrite <- (assoc_L (++)).
    + rewrite filter_cons_False by done. apply IH.
Qed.

Lemma visit_collect_new (es : list (node V)) (keys : list string) key :
  key ∈ visit collect_new es keys
  ↔ key ∈ keys ∨ ∃ n, n ∈ es ∧ 0 < expireAt n ∧ k n = key.
Proof.
  revert keys. induction es as [| n es IH]; intros keys; simpl.
  - split; [by left |]. intros [? | (n & []%elem_of_nil & _)]. done.
  - destruct (decide (0 < expireAt n)) as [He | He].
    + rewrite IH. case_decide as Hin.
      * split.
        -- intros [? | (n' & ? & ? & ?)]; [by left | right].
           exists n'. split; [by right | done].
        -- intros [? | (n' & [-> | ?]%elem_of_cons & ? & <-)]; [by left | by left |].
           right. eauto.
      * rewrite elem_of_app, list_elem_of_singleton. split.
        -- intros [[? | ->] | (n' & ? & ? & ?)]; [by left | |].
           ++ right. exists n. split; [by left | done].
           ++ right. exists n'. split; [by right | done].
        -- intros [? | (n' & [-> | ?]%elem_of_cons & ? & <-)]; [by left; left | by left; right |].
           right. eauto.
    + rewrite IH. split.
      * intros [? | (n' & ? & ? & ?)]; [by left | right].
        exists n'. split; [by right | done].
      * intros [? | (n' & [-> | ?]%elem_of_cons & ? & <-)]; [by left | done |].
        right. eauto.
Qed.

Lemma live_entry c key :
  grown c → live c key = true ↔ ∃ n, n ∈ entries c ∧ 0 < expireAt n ∧ k n = key.
Proof.
  intros Hg. rewrite live_find. split.
  - intros (n & Hf & He). apply (grown_find_entries c key n Hg) in Hf as [? ?]. eauto.
  - intros (n & Hin & He & Hk). exists n. split; [| done].
    by apply (grown_find_entries c key n Hg).
Qed.

Lemma Clear_keys_covers fuel (cs : list (cache V * cache V)) keys :
  Forall (λ p, grown p.1 ∧ grown p.2) cs → 65534 ≤ Z.of_nat fuel →
  ∃ keys', Clear_keys fuel cs keys = Some keys'
    ∧ (∀ key, key ∈ keys → key ∈ keys')
    ∧ ∀ p key, p ∈ cs → live p.1 key = true ∨ live p.2 key = true → key ∈ keys'.
Proof.
  intros Hall Hfuel. revert keys.
  induction Hall as [| p cs [H1 H2] _ IH]; intros keys; simpl.
  - exists keys. split_and!; [done | done |]. by intros p key ?%elem_of_nil.
  - rewrite (walk_grown p.1) by done. simpl.
    rewrite (walk_grown p.2) by done. simpl.
    destruct (IH (visit collect_new (entries p.2) (visit collect_all (entries p.1) keys)))
      as (keys' & -> & Hsub & Hcov).
    exists keys'. split; [done |].
    assert (∀ key, key ∈ keys ∨ live p.1 key = true ∨ live p.2 key = true →
              key ∈ keys') as Hhere.
    { intros key Hkey. apply Hsub, visit_collect_new.
      rewrite visit_collect_all, elem_of_app, list_elem_of_fmap.
      destruct Hkey as [? | [Hl | Hl]].
      - by left; left.
      - apply (live_entry p.1 key H1) in Hl as (n & ? & ? & ?).
        left; right. exists n. split; [done |]. by apply list_elem_of_filter.
      - apply (live_entry p.2 key H2) in Hl as (n & ? & ? & ?). right. eauto. }
    split.
    + intros key Hkey. apply Hhere. by left.
    + intros p' key [-> | Hin]%elem_of_cons Hl.
      * apply Hhere. by right.
      * by eapply Hcov.
Qed.

Lemma find_None_dead c key : find c key = None → live c key = false.
Proof. intros Hf. unfold live. by rewrite Hf. Qed.

Lemma Delete_dead s key :
  store_ok s → shards_grown s →
  ∃ s' r evs, Delete s key = Some (s', r, evs)
    ∧ store_ok s' ∧ shards_grown s'
    ∧ dead s' key ∧ (∀ key', dead s key' → dead s' key')
    ∧ length (caches s') = length (caches s).
Proof.
  intros Hs Hg. destruct (shard_of_key s key Hs) as (p & Hp & _).
  pose proof (shard_Some s _ p Hp) as [Hidx Hp'].
  destruct (Hg _ p Hp') as [[Hg1 _] [Hg2 _]].
  destruct (delete_sound s key _ p Hs Hg Hp)
    as (c0 & c1 & E & Hs' & Hg' & Hd0 & Hd1 & (r0 & st0 & e0 & E0) & (r1 & st1 & e1 & E1)).
  unfold Delete. rewrite E. do 3 eexists. split; [done |].
  split_and!; try done.
  - intros i p1. simpl.
    destruct (decide (i = Z.to_nat (shard_index s key))) as [-> | Hne].
    + rewrite list_lookup_insert_eq by (by eapply lookup_lt_Some). by intros [= <-].
    + rewrite list_lookup_insert_ne by done. intros Hp1.
      destruct (Hg i p1 Hp1) as [[_ Hk1] [_ Hk2]].
      split; apply find_None_dead; unfold find.
      * destruct (hmap p1.1 !! key) eqn:Hk; [| done].
        exfalso. apply Hne. unfold shard_index. rewrite (Hk1 key) by eauto. lia.
      * destruct (hmap p1.2 !! key) eqn:Hk; [| done].
        exfalso. apply Hne. unfold shard_index. rewrite (Hk2 key) by eauto. lia.
  - intros key' Hdead i p1. simpl.
    destruct (decide (i = Z.to_nat (shard_index s key))) as [-> | Hne].
    + rewrite list_lookup_insert_eq by (by eapply lookup_lt_Some). intros [= <-].
      destruct (decide (key' = key)) as [-> | Hkk]; [done |].
      destruct (Hdead _ p Hp') as [Hl1 Hl2]. simpl. unfold live in *.
      rewrite (del_find_other p.1 key c0 r0 st0 e0 key' Hg1 E0 Hkk).
      rewrite (del_find_other p.2 key c1 r1 st1 e1 key' Hg2 E1 Hkk). done.
    + rewrite list_lookup_insert_ne by done. apply Hdead.
  - simpl. by rewrite length_insert.
Qed.

Lemma Delete_each_dead s keys :
  store_ok s → shards_grown s →
  ∃ s' evs, Delete_each s keys = Some (s', evs)
    ∧ store_ok s' ∧ shards_grown s'
    ∧ (∀ key, key ∈ keys → dead s' key) ∧ (∀ key, dead s key → dead s' key)
    ∧ length (caches s') = length (caches s).
Proof.
  revert s. induction keys as [| key keys IH]; intros s Hs Hg; simpl.
  - do 2 eexists. split; [done |]. split_and!; try done. by intros key ?%elem_of_nil.
  - destruct (Delete_dead s key Hs Hg)
      as (s1 & r1 & ev1 & -> & Hs1 & Hg1 & Hd1 & Hk1 & Hl1). simpl.
    destruct (IH s1 Hs1 Hg1) as (s2 & ev2 & -> & Hs2 & Hg2 & Hd2 & Hk2 & Hl2). simpl.
    do 2 eexists. split; [done |]. split_and!; try done; [| auto | lia].
    intros key' [-> | Hin]%elem_of_cons; auto.
Qed.



(** ** The sweep of [cleanupLoop] *)

Lemma visit_expired_all now (es : list (node V)) (keys : list string) key :
  key ∈ visit (expired_all now) es keys
  ↔ key ∈ keys ∨ ∃ n, n ∈ es ∧ (0 < expireAt n ∧ expireAt n ≤ now) ∧ k n = key.
Proof.
  revert keys. induction es as [| n es IH]; intros keys; simpl.
  - split; [by left |]. intros [? | (n & []%elem_of_nil & _)]. done.
  - destruct (decide (0 < expireAt n)) as [He | He]; simpl.
    + rewrite IH. case_decide as Hex.
      * rewrite elem_of_app, list_elem_of_singleton. split.
        -- intros [[? | ->] | (n' & ? & ? & ?)]; [by left | |].
           ++ right. exists n. split; [by left | done].
           ++ right. exists n'. split; [by right | done].
        -- intros [? | (n' & [-> | ?]%elem_of_cons & ? & <-)]; [by left; left | by left; right |].
           right. eauto.
      * split.
        -- intros [? | (n' & ? & ? & ?)]; [by left | right].
           exists n'. split; [by right | done].
        -- intros [? | (n' & [-> | ?]%elem_of_cons & ? & <-)]; [by left | done |].
           right. eauto.
    + rewrite IH. split.
      * intros [? | (n' & ? & ? & ?)]; [by left | right].
        exists n'. split; [by right | done].
      * intros [? | (n' & [-> | ?]%elem_of_cons & [? ?] & <-)]; [by left | done |].
        right. eauto.
Qed.

Lemma visit_expired_new now (es : list (node V)) (keys : list string) key :
  key ∈ visit (expired_new now) es keys
  ↔ key ∈ keys ∨ ∃ n, n ∈ es ∧ (0 < expireAt n ∧ expireAt n ≤ now) ∧ k n = key.
Proof.
  revert keys. induction es as [| n es IH]; intros keys; simpl.
  - split; [by left |]. intros [? | (n & []%elem_of_nil & _)]. done.
  - destruct (decide (0 < expireAt n)) as [He | He]; simpl.
    + rewrite IH. case_decide as Hex.
      * case_decide as Hin.
        -- split.
           ++ intros [? | (n' & ? & ? & ?)]; [by left | right].
              exists n'. split; [by right | done].
           ++ intros [? | (n' & [-> | ?]%elem_of_cons & ? & <-)]; [by left | by left |].
              right. eauto.
        -- rewrite elem_of_app, list_elem_of_singleton. split.
           ++ intros [[? | ->] | (n' & ? & ? & ?)]; [by left | |].
              ** right. exists n. split; [by left | done].
              ** right. exists n'. split; [by right | done].
           ++ intros [? | (n' & [-> | ?]%elem_of_cons & ? & <-)];
                [by left; left | by left; right |].
              right. eauto.
      * split.
        -- intros [? | (n' & ? & ? & ?)]; [by left | right].
           exists n'. split; [by right | done].
        -- intros [? | (n' & [-> | ?]%elem_of_cons & ? & <-)]; [by left | done |].
           right. eauto.
    + rewrite IH. split.
      * intros [? | (n' & ? & ? & ?)]; [by left | right].
        exists n'. split; [by right | done].
      * intros [? | (n' & [-> | ?]%elem_of_cons & [? ?] & <-)]; [by left | done |].
        right. eauto.
Qed.

Lemma stale_entry now c key :
  grown c →
  stale now c key = true
  ↔ ∃ n, n ∈ entries c ∧ (0 < expireAt n ∧ expireAt n ≤ now) ∧ k n = key.
Proof.
  intros Hg. unfold stale. split.
  - destruct (find c key) as [n |] eqn:Hf; [| done].
    intros He%bool_decide_eq_true.
    apply (grown_find_entries c key n Hg) in Hf as [? ?]. eauto.
  - intros (n & Hin & He & Hk).
    rewrite (proj2 (grown_find_entries c key n Hg) (conj Hin Hk)).
    by apply bool_decide_eq_true.
Qed.

(** Deleting [keys] from the lists of shard [idx]: these keys end up
    dead, every other key is found as before, the other shards are left
    alone. *)
Lemma delete_each_spec s idx keys p :
  store_ok s → shards_grown s → shard s idx = Some p →
  ∃ s' evs p', delete_each s idx keys = Some (s', evs)
    ∧ store_ok s' ∧ shards_grown s' ∧ mask s' = mask s
    ∧ length (caches s') = length (caches s)
    ∧ caches s' !! Z.to_nat idx = Some p'
    ∧ (∀ j, j ≠ Z.to_nat idx → caches s' !! j = caches s !! j)
    ∧ (∀ key, key ∈ keys → live p'.1 key = false ∧ live p'.2 key = false)
    ∧ (∀ key, key ∉ keys → find p'.1 key = find p.1 key ∧ find p'.2 key = find p.2 key).
Proof.
  revert s p. induction keys as [| key keys IH]; intros s p Hs Hg Hp; simpl.
  - pose proof (shard_Some s idx p Hp) as [Hidx Hp'].
    exists s, [], p. split_and!; try done. by intros key ?%elem_of_nil.
  - pose proof (shard_Some s idx p Hp) as [Hidx Hp'].
    destruct (Hg _ p Hp') as [[Hg1 _] [Hg2 _]].
    destruct (delete_sound s key idx p Hs Hg Hp)
      as (c0 & c1 & -> & Hs1 & Hg1' & Hd0 & Hd1
          & (r0 & st0 & e0 & E0) & (r1 & st1 & e1 & E1)).
    simpl.
    destruct (IH (with_shard s idx (c0, c1)) (c0, c1) Hs1 Hg1')
      as (s2 & ev2 & p2 & -> & Hs2 & Hg2' & Hm2 & Hl2 & Hp2 & Hoth & Hdead & Hsame).
    { by eapply shard_with_shard. }
    simpl. exists s2, (delete_events (onEvicted s) p key ++ ev2), p2.
    split_and!; try done.
    + rewrite Hl2. simpl. by rewrite length_insert.
    + intros j Hj. rewrite Hoth by done. simpl. by rewrite list_lookup_insert_ne.
    + intros key' Hin. destruct (decide (key' ∈ keys)) as [| Hni]; [by apply Hdead |].
      assert (key' = key) as -> by set_solver.
      destruct (Hsame key Hni) as [F1 F2]. simpl in F1, F2.
      unfold live in *. by rewrite F1, F2.
    + intros key' Hni.
      assert (key' ≠ key) as Hne by set_solver.
      destruct (Hsame key') as [F1 F2]; [set_solver |]. simpl in F1, F2.
      rewrite F1, F2.
      rewrite (del_find_other p.1 key c0 r0 st0 e0 key' Hg1 E0 Hne).
      by rewrite (del_find_other p.2 key c1 r1 st1 e1 key' Hg2 E1 Hne).
Qed.

Lemma wrap_i32_small z : 0 ≤ z < 2147483648 → wrap_i32 z = z.
Proof. intros Hz. unfold wrap_i32. rewrite Z.mod_small; lia. Qed.

Lemma sweep_shard_spec fuel now s i p :
  store_ok s → shards_grown s → mask s < 32768 → 65534 ≤ Z.of_nat fuel →
  caches s !! i = Some p →
  ∃ s' evs p', sweep_shard fuel now s i = Some (s', evs)
    ∧ store_ok s' ∧ shards_grown s' ∧ mask s' = mask s
    ∧ length (caches s') = length (caches s)
    ∧ caches s' !! i = Some p'
    ∧ (∀ j, j ≠ i → caches s' !! j = caches s !! j)
    ∧ ∀ key,
        if stale now p.1 key || stale now p.2 key
        then live p'.1 key = false ∧ live p'.2 key = false
        else find p'.1 key = find p.1 key ∧ find p'.2 key = find p.2 key.
Proof.
  intros Hs Hg Hmask Hfuel Hp. destruct (Hg i p Hp) as [[Hg1 _] [Hg2 _]].
  pose proof (lookup_lt_Some _ _ _ Hp) as Hlt. pose proof (ok_shards s Hs) as Hlen.
  unfold sweep_shard. rewrite Hp. simpl.
  rewrite (walk_grown p.1) by done. simpl.
  rewrite (walk_grown p.2) by done. simpl.
  rewrite wrap_i32_small by lia.
  set (keys := visit (expired_new now) (entries p.2)
                 (visit (expired_all now) (entries p.1) [])).
  assert (∀ key, key ∈ keys ↔ stale now p.1 key || stale now p.2 key = true) as Hkeys.
  { intros key. unfold keys. rewrite visit_expired_new, visit_expired_all.
    rewrite orb_true_iff, (stale_entry now p.1 key Hg1), (stale_entry now p.2 key Hg2).
    rewrite elem_of_nil. tauto. }
  destruct (delete_each_spec s (Z.of_nat i) keys p Hs Hg)
    as (s' & evs & p' & E & Hs' & Hg' & Hm' & Hl' & Hp' & Hoth & Hdead & Hsame).
  { unfold shard. rewrite decide_True by lia. by rewrite Nat2Z.id. }
  rewrite Nat2Z.id in Hp', Hoth.
  exists s', evs, p'. split_and!; try done.
  intros key. destruct (stale now p.1 key || stale now p.2 key) eqn:Est.
  - apply Hdead, Hkeys, Est.
  - apply Hsame. rewrite Hkeys, Est. done.
Qed.

Lemma sweep_shards_spec fuel now s shards :
  store_ok s → shards_grown s → mask s < 32768 → 65534 ≤ Z.of_nat fuel →
  NoDup shards → (∀ i, i ∈ shards → (i < length (caches s))%nat) →
  ∃ s' evs, sweep_shards fuel now s shards = Some (s', evs)
    ∧ store_ok s' ∧ shards_grown s' ∧ mask s' = mask s
    ∧ length (caches s') = length (caches s)
    ∧ (∀ j, j ∉ shards → caches s' !! j = caches s !! j)
    ∧ ∀ i p p' key,
        i ∈ shards → caches s !! i = Some p → caches s' !! i = Some p' →
        if stale now p.1 key || stale now p.2 key
        then live p'.1 key = false ∧ live p'.2 key = false
        else find p'.1 key = find p.1 key ∧ find p'.2 key = find p.2 key.
Proof.
  intros Hs Hg Hmask Hfuel Hnd. revert s Hs Hg Hmask.
  induction shards as [| i shards IH]; intros s Hs Hg Hmask Hlt; simpl.
  - exists s, []. split_and!; try done. by intros i p p' key ?%elem_of_nil.
  - apply NoDup_cons in Hnd as [Hi Hnd].
    destruct (lookup_lt_is_Some_2 (caches s) i) as [p Hp]; [apply Hlt; by left |].
    destruct (sweep_shard_spec fuel now s i p Hs Hg Hmask Hfuel Hp)
      as (s1 & ev1 & p1 & -> & Hs1 & Hg1 & Hm1 & Hl1 & Hp1 & Hoth1 & Hkey1).
    simpl.
    destruct (IH Hnd s1 Hs1 Hg1) as (s2 & ev2 & -> & Hs2 & Hg2 & Hm2 & Hl2 & Hoth2 & Hkey2).
    { lia. }
    { intros j Hj. rewrite Hl1. apply Hlt. by right. }
    simpl. exists s2, (ev1 ++ ev2). split_and!; try done; try lia.
    + intros j Hj. rewrite Hoth2 by set_solver. apply Hoth1. set_solver.
    + intros j q q' key [-> | Hj]%elem_of_cons Hq Hq'.
      * rewrite Hoth2 in Hq' by done. assert (q = p) as -> by congruence.
        assert (q' = p1) as -> by congruence. apply Hkey1.
      * apply (Hkey2 j q q' key Hj); [| done].
        rewrite Hoth1; [done |]. intros ->. done.
Qed.

Lemma delete_mask s key idx s' r evs :
  delete s key idx = Some (s', r, evs) → mask s' = mask s.
Proof.
  unfold delete. intros E. destruct (shard s idx) as [p |]; [| done]. simpl in E.
  destruct (del p.1 key) as [[[[c0 n1] s1] e1] |]; [| done]. simpl in E.
  destruct (del p.2 key) as [[[[c1 n2] s2] e2] |]; [| done]. simpl in E.
  by simplify_eq.
Qed.

Lemma Delete_each_mask s keys s' evs :
  Delete_each s keys = Some (s', evs) → mask s' = mask s.
Proof.
  revert s evs. induction keys as [| key keys IH]; intros s evs E; simpl in E.
  - by simplify_eq.
  - destruct (Delete s key) as [[[s1 r1] ev1] |] eqn:E1; [| done]. simpl in E.
    destruct (Delete_each s1 keys) as [[s2 ev2] |] eqn:E2; [| done].
    simpl in E. simplify_eq. rewrite (IH _ _ E2). by eapply delete_mask.
Qed.

Lemma delete_each_mask s idx keys s' evs :
  delete_each s idx keys = Some (s', evs) → mask s' = mask s.
Proof.
  revert s evs. induction keys as [| key keys IH]; intros s evs E; simpl in E.
  - by simplify_eq.
  - destruct (delete s key idx) as [[[s1 r1] ev1] |] eqn:E1; [| done]. simpl in E.
    destruct (delete_each s1 idx keys) as [[s2 ev2] |] eqn:E2; [| done].
    simpl in E. simplify_eq. rewrite (IH _ _ E2). by eapply delete_mask.
Qed.

Lemma sweep_shards_mask fuel now s shards s' evs :
  sweep_shards fuel now s shards = Some (s', evs) → mask s' = mask s.
Proof.
  revert s evs. induction shards as [| i shards IH]; intros s evs E; simpl in E.
  - by simplify_eq.
  - destruct (sweep_shard fuel now s i) as [[s1 ev1] |] eqn:E1; [| done]. simpl in E.
    destruct (sweep_shards fuel now s1 shards) as [[s2 ev2] |] eqn:E2; [| done].
    simpl in E. simplify_eq. rewrite (IH _ _ E2).
    unfold sweep_shard in E1.
    destruct (caches s !! i) as [p |]; [| done]. simpl in E1.
    destruct (walk fuel p.1 _ _) as [k0 |]; [| done]. simpl in E1.
    destruct (walk fuel p.2 _ _) as [k1 |]; [| done]. simpl in E1.
    by eapply delete_each_mask.
Qed.

Lemma built_mask s : built s → mask s < 32768.
Proof.
  induction 1 as [opts Hb Hc1 Hc2 | s o s' evs Hb IH E
                  | s fuel s' evs _ IH E | s fuel now s' evs _ IH E].
  - unfold newLRU2Cache. simpl.
    apply maskOfNextPowOf2_range. case_decide; lia.
  - destruct (built_sound s Hb) as [Hs Hg].
    destruct (apply_op_sound s o Hs Hg) as (s1 & ev1 & E1 & _ & _ & Hm & _).
    rewrite E1 in E. simplify_eq. lia.
  - unfold Clear in E. destruct (Clear_keys _ _ _) as [keys |]; [| done].
    simpl in E. by rewrite (Delete_each_mask _ _ _ _ E).
  - by rewrite (sweep_shards_mask _ _ _ _ _ _ E).
Qed.

End Shards.

(** ** The order of use *)

Section OrderLaws.
Context {V : Type}.
Implicit Types (c : cache V) (n : node V).

(** X13. [get] of a mapped key returns its node, tombstone or not, and
    moves it to the front of the order, the other nodes keeping theirs;
    [get] of a key that is not mapped changes nothing. *)
Theorem get_moves_node_to_front c key :
  grown c →
  (∀ n, find c key = Some n →
     ∃ c', get c key = Some (c', Some n, 1)
       ∧ entries c' = n :: filter (λ x, k x ≠ key) (entries c))
  ∧ (find c key = None → get c key = Some (c, None, 0)).
Proof.
  intros Hg. split.
  - intros n Hf. destruct (get_entries c key n Hg Hf) as (c' & ? & ? & _). eauto.
  - intros Hf. apply get_absent. by apply grown_find_None.
Qed.

(** X14. [del] of a live key turns its node into a tombstone carrying the
    same key and value, moves it to the back of the order and returns the
    expiry it had; [del] of a key with no live node changes nothing. *)
Theorem del_moves_tombstone_to_back c key :
  grown c →
  (∀ n, find c key = Some n → 0 < expireAt n →
     ∃ c', del c key
           = Some (c', Some {| k := k n; v := v n; expireAt := 0 |}, 1, expireAt n)
       ∧ entries c' = filter (λ x, k x ≠ key) (entries c)
                      ++ [{| k := key; v := v n; expireAt := 0 |}])
  ∧ (live c key = false → del c key = Some (c, None, 0, 0)).
Proof.
  intros Hg. split.
  - intros n Hf He. destruct (del_entries c key n Hg Hf He) as (c' & ? & Hent & _).
    exists c'. split; [done |]. by rewrite Hent, (grown_find_key c key n Hg Hf).
  - intros Hd. apply del_dead; [by apply grown_cache_ok | done].
Qed.

(** X15. [put] of a mapped key overwrites value and expiry of its node,
    tombstone or not, moves the node to the front and invokes no
    callback. *)
Theorem put_of_mapped_key_updates_and_moves_to_front c key val e cb n :
  grown c → find c key = Some n →
  ∃ c', put c key val e cb = Some (c', 0, [])
    ∧ entries c' = {| k := key; v := val; expireAt := e |}
                   :: filter (λ x, k x ≠ key) (entries c)
    ∧ last c' = last c.
Proof.
  intros Hg Hf.
  destruct (put_present_entries c key val e cb n Hg Hf) as (c' & ? & ? & _ & ? & _).
  eauto.
Qed.


(** X17. [put] of a key that is not mapped into a full list drops the node
    at the back of the order, the one used longest ago, and puts the new
    node in front; the callback, when one is installed, is invoked for the
    dropped node exactly when that node was live. *)
Theorem put_of_new_key_when_full_drops_the_back c key val e cb :
  grown c → find c key = None → last c = Z.of_nat (length (m c)) →
  ∃ c' rest old,
    entries c = rest ++ [old]
    ∧ put c key val e cb
      = Some (c', 1, if cb && bool_decide (0 < expireAt old)
                     then [(k old, v old)] else [])
    ∧ entries c' = {| k := key; v := val; expireAt := e |} :: rest.
Proof.
  intros Hg Hf Hfull.
  destruct (put_full_entries c key val e cb Hg Hf Hfull)
    as (c' & rest & old & ? & ? & ? & _).
  eauto 10.
Qed.


(** X12. The nodes in the order of the links are the mapped nodes: their
    keys differ from each other, there are [last] of them and never more
    than the capacity, and [hmap] leads from a key to the node of the
    order with that key. *)
Theorem entries_are_the_mapped_nodes c :
  grown c →
  NoDup (k <$> entries c)
  ∧ Z.of_nat (length (entries c)) = last c
  ∧ last c ≤ Z.of_nat (length (m c))
  ∧ ∀ key n, find c key = Some n ↔ n ∈ entries c ∧ k n = key.
Proof.
  intros Hg. destruct (grown_entries_length c Hg) as (? & ? & _).
  split_and!; try done.
  - by apply grown_keys_NoDup.
  - intros key n. by apply grown_find_entries.
Qed.

(** X18. A key that [get] has just found is not the one the next [put]
    drops: in a list of capacity two or more the node survives the [put]
    of a new key, full list or not. *)
Theorem key_just_read_survives_next_put c key key' val e cb n :
  grown c → 2 ≤ Z.of_nat (length (m c)) →
  find c key = Some n → find c key' = None →
  ∃ c1 c2 evs,
    get c key = Some (c1, Some n, 1)
    ∧ put c1 key' val e cb = Some (c2, 1, evs)
    ∧ find c2 key = Some n.
Proof.
  intros Hg Hcap Hf Hf'.
  destruct (get_entries c key n Hg Hf) as (c1 & E1 & Hent1 & Hm1 & Hh1 & Hl1).
  pose proof (grown_get _ _ _ _ _ Hg E1) as Hg1.
  pose proof (grown_find_key c key n Hg Hf) as Hkn.
  assert (find c1 key' = None) as Hf1 by (by rewrite (find_ext c c1)).
  assert (key ≠ key') as Hne by (intros ->; congruence).
  destruct (decide (last c1 = Z.of_nat (length (m c1)))) as [Hfull | Hroom].
  - destruct (put_full_entries c1 key' val e cb Hg1 Hf1 Hfull)
      as (c2 & rest & old & Hsplit & E2 & Hent2 & _).
    pose proof (grown_put _ _ _ _ _ _ _ _ Hg1 E2) as Hg2.
    exists c1, c2. eexists. split_and!; [done | done |].
    apply (grown_find_entries c2 key n Hg2). split; [| done].
    rewrite Hent2. right.
    destruct rest as [| r rest'].
    + destruct (grown_entries_length c1 Hg1) as (Hlen & _).
      rewrite Hsplit in Hlen. simpl in Hlen. rewrite Hm1 in Hfull. lia.
    + rewrite Hent1 in Hsplit. simpl in Hsplit. injection Hsplit as -> _. by left.
  - destruct (put_room_entries c1 key' val e cb Hg1 Hf1 Hroom)
      as (c2 & E2 & Hent2 & _).
    pose proof (grown_put _ _ _ _ _ _ _ _ Hg1 E2) as Hg2.
    exists c1, c2. eexists. split_and!; [done | done |].
    apply (grown_find_entries c2 key n Hg2). split; [| done].
    rewrite Hent2, Hent1. right. by left.
Qed.

(** X19. In a full list the node [del] has turned into a tombstone is the
    next one [put] takes for a new key, and no callback is invoked for it:
    the new node comes in front of the remaining ones. *)
Theorem deleted_node_is_reused_first c key key' val e cb n :
  grown c → last c = Z.of_nat (length (m c)) →
  find c key = Some n → 0 < expireAt n → find c key' = None →
  ∃ c1 c2,
    del c key = Some (c1, Some {| k := k n; v := v n; expireAt := 0 |}, 1, expireAt n)
    ∧ put c1 key' val e cb = Some (c2, 1, [])
    ∧ entries c2 = {| k := key'; v := val; expireAt := e |}
                   :: filter (λ x, k x ≠ key) (entries c).
Proof.
  intros Hg Hfull Hf He Hf'.
  destruct (del_entries c key n Hg Hf He) as (c1 & E1 & Hent1 & Hh1 & Hl1 & Hm1).
  pose proof (grown_del _ _ _ _ _ _ Hg E1) as Hg1.
  assert (key' ≠ key) as Hne by (intros ->; congruence).
  assert (find c1 key' = None) as Hf1.
  { by rewrite (del_find_other c key c1 _ _ _ key' Hg E1 Hne). }
  destruct (put_full_entries c1 key' val e cb Hg1 Hf1)
    as (c2 & rest & old & Hsplit & E2 & Hent2 & _); [by rewrite Hl1, Hm1 |].
  rewrite Hent1 in Hsplit. apply app_inj_tail in Hsplit as [<- <-].
  simpl in E2. rewrite andb_false_r in E2. eauto.
Qed.

End OrderLaws.

(** ** The store as a whole *)

Section WholeStore.
Context {V : Type}.
Implicit Types (s : lru2Store V) (p : cache V * cache V).

(** X21. No operation panics on a store the program can build: [Get],
    [Set], [SetWithExpiration] and [Delete] return, and with fuel for
    65534 iterations of each [walk], the largest number of nodes a list
    can have, so do [Len], [Clear] and the sweep of [cleanupLoop]. The
    number of shards and the mask never change. *)
Theorem built_store_never_panics s (o : op V) fuel now :
  built s → 65534 ≤ Z.of_nat fuel →
  (∃ s' evs, apply_op s o = Some (s', evs)
     ∧ mask s' = mask s ∧ length (caches s') = length (caches s))
  ∧ is_Some (Len fuel s)
  ∧ (∃ s' evs, Clear fuel s = Some (s', evs)
       ∧ mask s' = mask s ∧ length (caches s') = length (caches s))
  ∧ (∃ s' evs, cleanupLoop fuel s now = Some (s', evs)
       ∧ mask s' = mask s ∧ length (caches s') = length (caches s)).
Proof.
  intros Hb Hfuel. destruct (built_sound s Hb) as [Hs Hg].
  pose proof (built_mask s Hb) as Hmask. split_and!.
  - destruct (apply_op_sound s o Hs Hg) as (s' & evs & ? & _ & _ & ? & ?). eauto.
  - rewrite (Len_live_total fuel s Hg Hfuel). by eexists.
  - unfold Clear.
    destruct (Clear_keys_covers fuel (caches s) [] (shards_grown_Forall s Hg) Hfuel)
      as (keys & -> & _). simpl.
    destruct (Delete_each_dead s keys Hs Hg) as (s' & evs & E & _ & _ & _ & _ & ?).
    exists s', evs. split_and!; try done. by eapply Delete_each_mask.
  - unfold cleanupLoop.
    destruct (sweep_shards_spec fuel now s (seq 0 (length (caches s))) Hs Hg Hmask Hfuel)
      as (s' & evs & ? & _ & _ & ? & ? & _).
    + apply NoDup_seq.
    + intros i Hi%elem_of_seq. lia.
    + eauto 10.
Qed.




Lemma put_without_links (c : cache V) key val e cb :
  hmap c = ∅ → dlnk c = [] → last c = 0 →
  wrap16 (Z.of_nat (length (m c))) ≠ 0 →
  put c key val e cb = None.
Proof.
  intros Hh Hd Hl Hcap. unfold put. rewrite Hh, lookup_empty, Hl, Hd.
  rewrite decide_False by done.
  rewrite decide_True by (by rewrite map_size_empty). done.
Qed.

(** X6. A list created with capacity 65535 has no link array, the length
    [cap+1] of it wrapping to 0, and one created with capacity 0 has no
    node: on either the first [put] panics. [newLRU2Cache] replaces a
    capacity of 0 by 1024 but passes 65535 on, so with [CapPerBucket =
    65535] every [Set] and [SetWithExpiration] panics. *)
Theorem capacity_65535_makes_every_Set_panic
    (opts : Options) now key (value : Value V) expiration e cb :
  0 ≤ BucketCount opts ≤ 32768 → CapPerBucket opts = 65535 →
  put (Create 65535) key value e cb = None
  ∧ put (Create 0) key value e cb = None
  ∧ SetWithExpiration (newLRU2Cache opts) now key value expiration = None
  ∧ Set_ (newLRU2Cache opts) now key value = None.
Proof.
  intros Hb Hc.
  assert (∀ e' cb', put (Create (V := V) 65535) key value e' cb' = None) as Hput.
  { intros e' cb'. apply put_without_links; [done | done | done |].
    change (m (Create (V := V) 65535))
      with (replicate (Z.to_nat 65535) {| k := ""; v := @None V; expireAt := 0 |}).
    rewrite length_replicate, Z2Nat.id by lia. by vm_compute. }
  assert (∀ ex, SetWithExpiration (newLRU2Cache opts) now key value ex = None) as Hset.
  { intros ex. unfold SetWithExpiration.
    set (s := newLRU2Cache opts).
    assert (1 ≤ (if decide (BucketCount opts = 0) then 16 else BucketCount opts) ≤ 32768)
      as Hb' by (case_decide; lia).
    pose proof (maskOfNextPowOf2_range _ Hb') as Hm.
    pose proof (land_range (hashBKRD key) (mask s) ltac:(simpl; lia)) as Hidx.
    assert (shard s (shard_index s key)
            = Some (Create 65535, Create (if decide (Level2Cap opts = 0) then 1024
                                          else Level2Cap opts))) as ->.
    { unfold shard. rewrite decide_True by apply Hidx.
      change (caches s)
        with (replicate (Z.to_nat (wrap16 (mask s + 1)))
                (Create (V := V) (if decide (CapPerBucket opts = 0) then 1024
                                  else CapPerBucket opts),
                 Create (V := V) (if decide (Level2Cap opts = 0) then 1024
                                  else Level2Cap opts))).
      rewrite Hc. destruct (decide (65535 = 0)) as [| _]; [lia |].
      apply lookup_replicate_2. rewrite wrap16_small by (simpl; lia).
      unfold shard_index. lia. }
    cbn [mbind option_bind fst]. by rewrite Hput. }
  split_and!; try done.
  apply Hset.
Qed.

(** C9 (where the round trip fails). With [Level2Cap = 65535] the L2 list
    of every shard is [Create(65535)], whose link array has length
    [cap+1 = 0] in [uint16]: there is no sentinel [dlnk[0]]. [Set(k, v)]
    writes to L1 and returns; the [Get(k)] that follows finds the entry
    in L1 and panics in the [put] that promotes it to L2, whatever the
    key and the value, instead of returning [(v, true)]. *)
Theorem Level2Cap_65535_makes_Get_after_Set_panic
    (opts : Options) now now1 now2 key (value : Value V) :
  0 ≤ BucketCount opts ≤ 32768 →
  0 ≤ CapPerBucket opts < 65535 →
  Level2Cap opts = 65535 →
  0 < wrap_i64 (now + 9999999999999999) →
  now1 < wrap_i64 (now + 9999999999999999) →
  ∃ s1 evs1,
    Set_ (newLRU2Cache opts) now key value = Some (s1, evs1)
    ∧ Get s1 now1 now2 key = None.
Proof.
  intros Hb Hc1 Hc2 He Hn. unfold Set_, SetWithExpiration.
  rewrite decide_True by lia.
  set (s := newLRU2Cache opts).
  set (cap1 := if decide (CapPerBucket opts = 0) then 1024 else CapPerBucket opts).
  assert (1 ≤ cap1 < 65535) as Hcap1 by (unfold cap1; case_decide; lia).
  assert (1 ≤ (if decide (BucketCount opts = 0) then 16 else BucketCount opts) ≤ 32768)
    as Hb' by (case_decide; lia).
  pose proof (maskOfNextPowOf2_range _ Hb') as Hm.
  pose proof (land_range (hashBKRD key) (mask s) ltac:(simpl; lia)) as Hidx.
  assert (shard s (shard_index s key) = Some (Create cap1, Create 65535)) as Hp.
  { unfold shard. rewrite decide_True by apply Hidx.
    change (caches s)
      with (replicate (Z.to_nat (wrap16 (mask s + 1)))
              (Create (V := V) cap1,
               Create (V := V) (if decide (Level2Cap opts = 0) then 1024
                                else Level2Cap opts))).
    rewrite Hc2. destruct (decide (65535 = 0)) as [| _]; [lia |].
    apply lookup_replicate_2. rewrite wrap16_small by (simpl; lia).
    unfold shard_index. lia. }
  rewrite Hp. cbn [mbind option_bind fst snd].
  destruct (put_ok (Create cap1) key value (wrap_i64 (now + 9999999999999999))
              (onEvicted s) (Create_ok cap1 Hcap1))
    as (c0 & r & evs & -> & Hc0 & n & Hf & Hv & Hen).
  cbn [mbind option_bind fst snd]. do 2 eexists. split; [done |].
  set (s1 := with_shard s (shard_index s key) (c0, Create 65535)).
  assert (shard s1 (shard_index s1 key) = Some (c0, Create 65535)) as Hp1
    by (by eapply shard_with_shard).
  unfold Get. rewrite Hp1. cbn [mbind option_bind fst snd].
  destruct (del_live c0 key n Hc0 Hf) as (c0' & -> & _); [lia |].
  cbn [mbind option_bind fst snd].
  rewrite decide_True by lia. rewrite decide_False by lia.
  cbn [mbind option_bind fst snd v].
  rewrite put_without_links; [done | done | done | done |].
  change (m (Create (V := V) 65535))
    with (replicate (Z.to_nat 65535) {| k := ""; v := @None V; expireAt := 0 |}).
  rewrite length_replicate, Z2Nat.id by lia. by vm_compute.
Qed.

End WholeStore.

(** ** The laws on the example lists and stores *)

Lemma full_list_grown ex : grown (full_list ex).
Proof.
  pose proof (full_list_reached ex) as E.
  destruct (put (Create 2) "x" (Some 1) ex true) as [[[c1 r1] e1] |] eqn:E1; [| done].
  simpl in E. eapply grown_put; [| exact E]. eapply grown_put; [| exact E1].
  apply grown_Create. lia.
Qed.

Lemma small_store_built : built small_store.
Proof. apply built_new; simpl; lia. Qed.

Lemma promoted_store_built : built promoted_store.
Proof.
  pose proof promoted_store_reached as E.
  destruct (SetWithExpiration small_store 0 "a" (Some 7) 5) as [[s1 e1] |] eqn:E1;
    [| done].
  simpl in E.
  apply (built_op s1 (OpGet 1 1 "a") promoted_store []).
  - apply (built_op small_store (OpSetWithExpiration 0 "a" (Some 7) 5) s1 e1).
    + apply small_store_built.
    + exact E1.
  - simpl. by rewrite E.
Qed.

Lemma get_moves_node_to_front_witness :
  grown (full_list 5)
  ∧ ∃ c', get (full_list 5) "x"
          = Some (c', Some {| k := "x"; v := Some 1; expireAt := 5 |}, 1)
      ∧ entries c' = [{| k := "x"; v := Some 1; expireAt := 5 |};
                      {| k := "y"; v := Some 2; expireAt := 9 |}].
Proof.
  split; [apply full_list_grown |].
  destruct (get_moves_node_to_front (full_list 5) "x" (full_list_grown 5)) as [H _].
  destruct (H {| k := "x"; v := Some 1; expireAt := 5 |}) as (c' & E & Hent).
  - reflexivity.
  - exists c'. split; [exact E |]. rewrite Hent. vm_compute. reflexivity.
Defined.

Lemma del_moves_tombstone_to_back_witness :
  grown (full_list 5)
  ∧ ∃ c', del (full_list 5) "y"
          = Some (c', Some {| k := "y"; v := Some 2; expireAt := 0 |}, 1, 9)
      ∧ entries c' = [{| k := "x"; v := Some 1; expireAt := 5 |};
                      {| k := "y"; v := Some 2; expireAt := 0 |}].
Proof.
  split; [apply full_list_grown |].
  destruct (del_moves_tombstone_to_back (full_list 5) "y" (full_list_grown 5)) as [H _].
  destruct (H {| k := "y"; v := Some 2; expireAt := 9 |}) as (c' & E & Hent).
  - reflexivity.
  - simpl. lia.
  - exists c'. split; [exact E |]. rewrite Hent. vm_compute. reflexivity.
Defined.

Lemma put_of_mapped_key_updates_and_moves_to_front_witness :
  grown (full_list 5)
  ∧ ∃ c', put (full_list 5) "x" (Some 8) 0 true = Some (c', 0, [])
      ∧ entries c' = [{| k := "x"; v := Some 8; expireAt := 0 |};
                      {| k := "y"; v := Some 2; expireAt := 9 |}].
Proof.
  split; [apply full_list_grown |].
  destruct (put_of_mapped_key_updates_and_moves_to_front (full_list 5) "x" (Some 8) 0
              true {| k := "x"; v := Some 1; expireAt := 5 |})
    as (c' & E & Hent & _).
  - apply full_list_grown.
  - reflexivity.
  - exists c'. split; [exact E |]. rewrite Hent. vm_compute. reflexivity.
Defined.


Lemma put_of_new_key_when_full_drops_the_back_witness :
  grown (full_list 5)
  ∧ ∃ c', put (full_list 5) "z" (Some 3) 7 true = Some (c', 1, [("x", Some 1)])
      ∧ entries c' = [{| k := "z"; v := Some 3; expireAt := 7 |};
                      {| k := "y"; v := Some 2; expireAt := 9 |}].
Proof.
  split; [apply full_list_grown |].
  destruct (put_of_new_key_when_full_drops_the_back (full_list 5) "z" (Some 3) 7 true)
    as (c' & rest & old & Hsplit & E & Hent).
  - apply full_list_grown.
  - reflexivity.
  - reflexivity.
  - vm_compute in Hsplit.
    change [{| k := "y"; v := Some 2; expireAt := 9 |};
            {| k := "x"; v := Some 1; expireAt := 5 |}]
      with ([{| k := "y"; v := Some 2%Z; expireAt := 9 |}]
            ++ [{| k := "x"; v := Some 1%Z; expireAt := 5 |}]) in Hsplit.
    apply app_inj_tail in Hsplit as [<- <-].
    exists c'. split; [exact E | exact Hent].
Defined.


Lemma entries_are_the_mapped_nodes_witness :
  grown (full_list 5)
  ∧ NoDup (k <$> entries (full_list 5))
  ∧ Z.of_nat (length (entries (full_list 5))) = 2.
Proof.
  split; [apply full_list_grown |].
  destruct (entries_are_the_mapped_nodes (full_list 5) (full_list_grown 5))
    as (Hnd & Hlen & _).
  split; [exact Hnd | exact Hlen].
Defined.

Lemma key_just_read_survives_next_put_witness :
  grown (full_list 5)
  ∧ ∃ c1 c2 evs,
      get (full_list 5) "x"
      = Some (c1, Some {| k := "x"; v := Some 1; expireAt := 5 |}, 1)
      ∧ put c1 "z" (Some 3) 7 true = Some (c2, 1, evs)
      ∧ find c2 "x" = Some {| k := "x"; v := Some 1; expireAt := 5 |}.
Proof.
  split; [apply full_list_grown |].
  apply (key_just_read_survives_next_put (full_list 5) "x" "z" (Some 3) 7 true).
  - apply full_list_grown.
  - simpl. lia.
  - reflexivity.
  - reflexivity.
Defined.

Lemma deleted_node_is_reused_first_witness :
  grown (full_list 5)
  ∧ ∃ c1 c2,
      del (full_list 5) "y"
      = Some (c1, Some {| k := "y"; v := Some 2; expireAt := 0 |}, 1, 9)
      ∧ put c1 "z" (Some 3) 7 true = Some (c2, 1, [])
      ∧ entries c2 = [{| k := "z"; v := Some 3; expireAt := 7 |};
                      {| k := "x"; v := Some 1; expireAt := 5 |}].
Proof.
  split; [apply full_list_grown |].
  destruct (deleted_node_is_reused_first (full_list 5) "y" "z" (Some 3) 7 true
              {| k := "y"; v := Some 2; expireAt := 9 |})
    as (c1 & c2 & E1 & E2 & Hent).
  - apply full_list_grown.
  - reflexivity.
  - reflexivity.
  - simpl. lia.
  - reflexivity.
  - exists c1, c2. split; [exact E1 |]. split; [exact E2 |].
    rewrite Hent. vm_compute. reflexivity.
Defined.

Lemma built_store_never_panics_witness :
  built promoted_store
  ∧ (∃ s' evs, apply_op promoted_store (OpSet 3 "b" (Some 1)) = Some (s', evs)
       ∧ mask s' = 1 ∧ length (caches s') = 2%nat)
  ∧ is_Some (Len (Z.to_nat 65534) promoted_store).
Proof.
  split; [apply promoted_store_built |].
  destruct (built_store_never_panics promoted_store (OpSet 3 "b" (Some 1))
              (Z.to_nat 65534) 0 promoted_store_built) as (Hop & Hlen & _).
  - lia.
  - split; [exact Hop | exact Hlen].
Defined.




Lemma capacity_65535_makes_every_Set_panic_witness :
  Set_ (V := Z)
    (newLRU2Cache {| BucketCount := 4; CapPerBucket := 65535; Level2Cap := 8;
                     CleanupInterval := 0; OnEvicted := false |}) 0 "a" (Some 1)
  = None.
Proof.
  apply (capacity_65535_makes_every_Set_panic
           {| BucketCount := 4; CapPerBucket := 65535; Level2Cap := 8;
              CleanupInterval := 0; OnEvicted := false |} 0 "a" (Some 1) 0 0 false).
  - simpl. lia.
  - reflexivity.
Defined.

(** C9 on the store built with the default shard count and L1 capacity. *)
Lemma Level2Cap_65535_makes_Get_after_Set_panic_witness :
  ∃ s1 evs1,
    Set_ (newLRU2Cache {| BucketCount := 0; CapPerBucket := 0; Level2Cap := 65535;
                          CleanupInterval := 0; OnEvicted := true |})
         0 "a" (Some 7) = Some (s1, evs1)
    ∧ Get s1 0 0 "a" = None.
Proof.
  apply (Level2Cap_65535_makes_Get_after_Set_panic
           {| BucketCount := 0; CapPerBucket := 0; Level2Cap := 65535;
              CleanupInterval := 0; OnEvicted := true |} 0 0 0 "a" (Some 7));
    simpl; try lia; vm_compute; reflexivity.
Defined.

End StoreOrder.

(** * Properties of package [yangcache] *)

Module YangCacheSpec.
Import YangCache.

Section WithStore.
Context {St Val BV Opts : Type}.
Context (M : StoreMethods St Val Opts) (B : ByteViews Val BV).
Implicit Types (c : Cache St Opts) (a : request BV).

Lemma run_call_closed c a : closed c = 1 → serve M B c a = Some (c, refused B a).
Proof.
  intros Hc. destruct a; simpl.
  - unfold Add. by rewrite decide_True.
  - unfold AddWithExpiration. by rewrite decide_True.
  - unfold Get. by rewrite decide_True.
  - unfold Delete. by rewrite decide_True by (by left).
  - unfold Clear. by rewrite decide_True by (by left).
  - unfold Len. by rewrite decide_True by (by left).
  - unfold Close. by rewrite decide_False by lia.
Qed.

Lemma run_calls_closed c (calls : list (request BV)) :
  closed c = 1 → serve_all M B c calls = Some (c, refused B <$> calls).
Proof.
  intros Hc. induction calls as [| a calls IH]; simpl; [done |].
  rewrite (run_call_closed c a Hc). simpl. by rewrite IH.
Qed.

(** X28. [Close] is final. The first [Close] of a cache sets [closed],
    clears [initialized], drops the store and keeps the counters; from
    then on every call, a further [Close] too, leaves the cache as it is
    and answers with a zero value: [Get] not-found without counting a
    miss, [Delete] false, [Len] 0. Nothing reopens the cache. *)
Theorem closed_cache_refuses_every_call c c' (calls : list (request BV)) :
  closed c = 0 → Close M c = Some c' →
  closed c' = 1 ∧ initialized c' = 0 ∧ store c' = None
  ∧ hits c' = hits c ∧ misses c' = misses c
  ∧ serve_all M B c' calls = Some (c', refused B <$> calls).
Proof.
  intros Hc E. unfold Close in E. rewrite decide_True in E by done.
  destruct (match store c with Some _ => _ | None => _ end) as [st1 |] eqn:E1;
    [| done].
  simpl in E. injection E as <-.
  assert (st1 = None) as ->.
  { destruct (store c) as [st |]; [| by simplify_eq].
    destruct (sClose M) as [close |]; [| by simplify_eq].
    destruct (close st); by simplify_eq/=. }
  split_and!; try done. by apply run_calls_closed.
Qed.

Lemma ensureInitialized_store_present c :
  methods_total M → store_present c →
  ∃ c1 st, ensureInitialized M c = Some c1 ∧ store c1 = Some st
    ∧ initialized c1 = 1 ∧ closed c1 = closed c.
Proof.
  intros HM [Hst Hi]. unfold ensureInitialized. case_decide as H1.
  - destruct (Hst H1) as [st Est]. exists c, st. split_and!; done.
  - rewrite decide_True by lia.
    destruct (total_NewStore M HM (opts c)) as [st ->]. simpl.
    do 2 eexists. split_and!; done.
Qed.

Lemma run_call_store_present c a :
  methods_total M → store_present c → ∃ c' r, serve M B c a = Some (c', r) ∧ store_present c'.
Proof.
  intros HM Hpres. pose proof Hpres as [Hst Hi].
  destruct (decide (closed c = 1)) as [Hc | Hc].
  { rewrite (run_call_closed c a Hc). eauto. }
  destruct a as [key value | key value until | key | key | | |]; simpl.
  - unfold Add. rewrite decide_False by done.
    destruct (ensureInitialized_store_present c HM Hpres) as (c1 & st & -> & Est & Hi1 & _).
    simpl. rewrite Est. simpl.
    destruct (total_Set M HM st key (toValue B value)) as [st' ->]. simpl.
    do 2 eexists. split; [done |]. split; simpl; [by eauto | by right].
  - unfold AddWithExpiration. rewrite decide_False by done.
    destruct (ensureInitialized_store_present c HM Hpres) as (c1 & st & -> & Est & Hi1 & _).
    simpl. case_decide.
    + do 2 eexists. split; [done |]. split; [by rewrite Est; eauto | by right].
    + rewrite Est. simpl.
      destruct (total_SetWithExpiration M HM st key (toValue B value) until)
        as [[st' err] ->].
      simpl. do 2 eexists. split; [done |]. split; simpl; [by eauto | by right].
  - unfold Get. rewrite decide_False by done. case_decide as H0.
    + do 2 eexists. split; [done |]. split; simpl; [lia | by left].
    + destruct (Hst ltac:(lia)) as [st ->]. simpl.
      destruct (total_Get M HM st key) as [[st' [val found]] ->]. simpl.
      destruct found; [destruct (asByteView B val) |];
        do 2 eexists; (split; [done |]); split; simpl; eauto.
  - unfold Delete. case_decide as H0.
    + eauto.
    + destruct (Hst ltac:(lia)) as [st ->]. simpl.
      destruct (total_Delete M HM st key) as [[st' b] ->]. simpl.
      do 2 eexists. split; [done |]. split; simpl; eauto.
  - unfold Clear. case_decide as H0.
    + eauto.
    + destruct (Hst ltac:(lia)) as [st ->]. simpl.
      destruct (total_Clear M HM st) as [st' ->]. simpl.
      do 2 eexists. split; [done |]. split; simpl; eauto.
  - unfold Len. case_decide as H0.
    + eauto.
    + destruct (Hst ltac:(lia)) as [st ->]. simpl.
      destruct (total_Len M HM st) as [[st' n] ->]. simpl.
      do 2 eexists. split; [done |]. split; simpl; eauto.
  - unfold Close. case_decide as H0; [| by eauto].
    assert (∃ st1, match store c with
                   | Some st =>
                       match sClose M with
                       | Some close => _ ← close st; Some None
                       | None => Some None
                       end
                   | None => Some None
                   end = Some st1) as [st1 ->].
    { destruct (store c) as [st |]; [| by eauto].
      destruct (sClose M) as [close |] eqn:Ecl; [| by eauto].
      destruct (total_Close M HM close st Ecl) as [x ->]. simpl. eauto. }
    simpl. do 2 eexists. split; [done |]. split; simpl; [lia | by left].
Qed.

(** X29. The cache never calls a method of a store it does not have. On
    a cache made by [NewCache] every sequence of calls returns, as long
    as the methods of the store return and [Set] reports no error: the
    store is created before the first call that needs it, and no call
    reaches it after [Close] has dropped it. *)
Theorem cache_calls_never_meet_a_nil_store (o : Opts) (calls : list (request BV)) :
  methods_total M →
  ∃ c' rs, serve_all M B (NewCache o) calls = Some (c', rs)
    ∧ length rs = length calls
    ∧ (initialized c' = 1 → is_Some (store c')).
Proof.
  intros HM.
  assert (∀ c, store_present c → ∃ c' rs, serve_all M B c calls = Some (c', rs)
                         ∧ length rs = length calls ∧ store_present c') as Hrun.
  { induction calls as [| a calls IH]; intros c Hpres; simpl; [by eauto |].
    destruct (run_call_store_present c a HM Hpres) as (c1 & r & -> & Hpres1). simpl.
    destruct (IH c1 Hpres1) as (c2 & rs & -> & Hlen & Hpres2). simpl.
    do 2 eexists. split; [done |]. split; [simpl; lia | done]. }
  destruct (Hrun (NewCache o)) as (c' & rs & E & Hlen & Hst & _).
  - split; simpl; [lia | by left].
  - eauto.
Qed.

(** X30. The store is created lazily, by [Add] and [AddWithExpiration]
    only. On an open cache without a store [Get] counts a miss and
    [Delete], [Clear] and [Len] do nothing, none of them creating the
    store; [AddWithExpiration] creates it even when the expiry is not in
    the future and nothing is stored. *)
Theorem only_Add_creates_the_store c key value until :
  closed c = 0 → initialized c = 0 → until ≤ 0 →
  Get M B c key = Some (count_miss c, (zeroByteView B, false))
  ∧ Delete M c key = Some (c, false)
  ∧ Clear M c = Some c
  ∧ Len M c = Some (c, 0)
  ∧ AddWithExpiration M B c key value until
    = (st ← NewStore M (opts c);
       Some {| store := Some st; opts := opts c; hits := hits c;
               misses := misses c; initialized := 1; closed := closed c |}).
Proof.
  intros Hc Hi Hu. split_and!.
  - unfold Get. rewrite decide_False by lia. by rewrite decide_True.
  - unfold Delete. by rewrite decide_True by (by right).
  - unfold Clear. by rewrite decide_True by (by right).
  - unfold Len. by rewrite decide_True by (by right).
  - unfold AddWithExpiration, ensureInitialized.
    rewrite decide_False by lia. rewrite decide_False by lia.
    rewrite decide_True by done.
    destruct (NewStore M (opts c)) as [st |]; simpl; [| done].
    by rewrite decide_True.
Qed.

End WithStore.

(** ** The laws on the example store *)

Lemma list_store_total : methods_total list_store.
Proof.
  constructor; simpl; intros; first [discriminate | by eexists].
Qed.

Lemma closed_cache_refuses_every_call_witness :
  ∃ c1 c2,
    Add list_store plain_values (NewCache tt) "a" 1 = Some c1
    ∧ Close list_store c1 = Some c2
    ∧ serve_all list_store plain_values c2
        [ReqGet "a"; ReqAdd "b" 2; ReqLen; ReqClose; ReqGet "b"]
      = Some (c2, [Found 0 false; Nothing; Length 0; Nothing; Found 0 false]).
Proof.
  exists {| store := Some [("a", 1)]; opts := tt; hits := 0; misses := 0;
            initialized := 1; closed := 0 |},
         {| store := None; opts := tt; hits := 0; misses := 0;
            initialized := 0; closed := 1 |}.
  split; [reflexivity |]. split; [reflexivity |].
  apply (closed_cache_refuses_every_call list_store plain_values
           {| store := Some [("a", 1)]; opts := tt; hits := 0; misses := 0;
              initialized := 1; closed := 0 |}).
  - reflexivity.
  - reflexivity.
Defined.

Lemma cache_calls_never_meet_a_nil_store_witness :
  methods_total list_store
  ∧ ∃ c' rs,
      serve_all list_store plain_values (NewCache tt)
        [ReqGet "a"; ReqAdd "a" 1; ReqGet "a"; ReqClose; ReqGet "a"]
      = Some (c', rs)
      ∧ length rs = 5%nat.
Proof.
  split; [apply list_store_total |].
  destruct (cache_calls_never_meet_a_nil_store list_store plain_values tt
              [ReqGet "a"; ReqAdd "a" 1; ReqGet "a"; ReqClose; ReqGet "a"]
              list_store_total) as (c' & rs & E & Hlen & _).
  exists c', rs. split; [exact E | exact Hlen].
Defined.

Lemma only_Add_creates_the_store_witness :
  Get list_store plain_values (NewCache tt) "a"
  = Some ({| store := None; opts := tt; hits := 0; misses := 1;
             initialized := 0; closed := 0 |}, (0, false))
  ∧ AddWithExpiration list_store plain_values (NewCache tt) "a" 1 (-5)
    = Some {| store := Some []; opts := tt; hits := 0; misses := 0;
              initialized := 1; closed := 0 |}.
Proof.
  destruct (only_Add_creates_the_store list_store plain_values (NewCache tt) "a" 1 (-5))
    as (Hget & _ & _ & _ & Hadd).
  - reflexivity.
  - reflexivity.
  - lia.
  - split; [exact Hget | exact Hadd].
Defined.

End YangCacheSpec.
